(** * Generic Graph Viewer: validation, indexing, colours and layout set-up

    A shallow embedding of the layout and indexing core of the viewer
    ([renderer/utils/categoryColors.ts], which also holds the graph
    validation helpers, [renderer/components/Graph/useForceGraph.ts] and
    [config/constants]) together with the properties its specification
    states about them, and of the code around it: the selection and graph
    reducers, the file loader, the category legend, the property panel, the
    search, the store of recent files and the helpers of the canvas.

    Conventions of the embedding.
    - A JavaScript string is a [string]: a sequence of code units, here the
      code units 0..255.  [charCodeAt] is [nat_of_ascii].
    - A 32-bit integer is a [Z] with the wrap-around written out
      ([ToInt32], [ToUint32]).
    - A JavaScript [number] that carries a coordinate, a radius or a force
      constant is an exact rational [Q]; the rounding of binary64
      arithmetic is not modelled.  A node level is a [Q] as well.
    - A validated node is the parsed object itself: besides its declared
      fields it keeps its other own properties ([Node.others]), which the
      spread [{...node}] of the hook copies and d3 reads ([fx], [fy], [vx],
      [vy]).  An optional field is read as a value of its declared type, as
      [null], or as absent; a value of another type (which JavaScript
      would coerce) is outside the model and is read as absent.
    - [Map<string, V>] is [gmap string V] (only [set] and [get] are used on
      the maps of this program), [Set<string>] is [gset string].
    - The d3 simulation object is a record of the settings the hook reads
      and writes through the d3-force API. *)

From Stdlib Require Import ZArith QArith Lqa Ascii String List Lia Permutation.
From stdpp Require Import gmap strings list sorting pretty.

Import ListNotations.
Local Open Scope Z_scope.

(** ** 32-bit integer operators of JavaScript *)

Module JsInt.

Definition two32 : Z := 4294967296.
Definition two31 : Z := 2147483648.

(** [ToUint32] and [ToInt32] on an integral number. *)
Definition ToUint32 (z : Z) : Z := z mod two32.
Definition ToInt32 (z : Z) : Z := (z + two31) mod two32 - two31.

(** [a << n], [a >>> n], [a ^ b], [a | b] and [Math.imul(a, b)]. *)
Definition shl (a n : Z) : Z := ToInt32 (Z.shiftl (ToInt32 a) (n mod 32)).
Definition ushr (a n : Z) : Z := Z.shiftr (ToUint32 a) (n mod 32).
Definition xor (a b : Z) : Z := ToInt32 (Z.lxor (ToInt32 a) (ToInt32 b)).
Definition or (a b : Z) : Z := ToInt32 (Z.lor (ToInt32 a) (ToInt32 b)).
Definition imul (a b : Z) : Z := ToInt32 (ToInt32 a * ToInt32 b).

End JsInt.

(** ** Strings *)

Definition charCode (c : ascii) : Z := Z.of_nat (nat_of_ascii c).

(** ** Seeding of the initial positions ([useForceGraph.ts]) *)

(** [hashString]: the loop body is
    [hash = ((hash << 5) + hash) ^ str.charCodeAt(i)]. *)
Fixpoint hashString_loop (str : string) (hash : Z) : Z :=
  match str with
  | EmptyString => hash
  | String c rest =>
      hashString_loop rest (JsInt.xor (JsInt.shl hash 5 + hash) (charCode c))
  end.

Definition hashString (str : string) : Z :=
  JsInt.ushr (hashString_loop str 5381) 0.

(** [seededRandom(seed)] returns a closure over the mutable [seed]; one call
    of the closure is a step of a state monad on the seed: it returns the
    32-bit numerator of the result (the result is that numerator divided by
    4294967296) and the new seed. *)
Definition seededRandom_step (seed : Z) : Z * Z :=
  let seed := JsInt.or seed 0 in
  let seed := JsInt.or (seed + 1831565813 (* 0x6d2b79f5 *)) 0 in
  let t := JsInt.imul (JsInt.xor seed (JsInt.ushr seed 15)) (JsInt.or 1 seed) in
  let t := JsInt.xor (t + JsInt.imul (JsInt.xor t (JsInt.ushr t 7)) (JsInt.or 61 t)) t in
  (JsInt.ushr (JsInt.xor t (JsInt.ushr t 14)) 0, seed).

Definition rng_value (numerator : Z) : Q := numerator # 4294967296.

Definition seededRandom (seed : Z) : Q * Z :=
  let '(u, seed') := seededRandom_step seed in (rng_value u, seed').

(** ** Untyped input values

    The value [JSON.parse] hands to the validator ([data: unknown]). *)

#[local] Unset Elimination Schemes.
Inductive JsValue : Type :=
| JsUndefined
| JsNull
| JsBool (b : bool)
| JsNumber (q : Q)
| JsString (s : string)
| JsArray (elems : list JsValue)
| JsObject (fields : list (string * JsValue)).
#[local] Set Elimination Schemes.

(** [!!v]: the falsy values are [undefined], [null], [false], [0] and the
    empty string. *)
Definition truthy (v : JsValue) : bool :=
  match v with
  | JsUndefined | JsNull => false
  | JsBool b => b
  | JsNumber q => negb (Qeq_bool q 0)
  | JsString s => negb (bool_decide (s = EmptyString))
  | JsArray _ | JsObject _ => true
  end.

(** [typeof v === 'object'] and [typeof v === 'string']. *)
Definition typeof_object (v : JsValue) : bool :=
  match v with
  | JsNull | JsArray _ | JsObject _ => true
  | _ => false
  end.

Definition typeof_string (v : JsValue) : bool :=
  match v with JsString _ => true | _ => false end.

Definition isArray (v : JsValue) : bool :=
  match v with JsArray _ => true | _ => false end.

Fixpoint assoc (k : string) (fields : list (string * JsValue)) : JsValue :=
  match fields with
  | [] => JsUndefined
  | (k', v) :: rest => if bool_decide (k' = k) then v else assoc k rest
  end.

(** [v.k] for one of the keys this program reads ([nodes], [edges], [id],
    [name], [sourceId], ...): an own property of a plain object, and
    [undefined] on an array.  A parsed object holds each key once. *)
Definition getProp (v : JsValue) (k : string) : JsValue :=
  match v with
  | JsObject fields => assoc k fields
  | _ => JsUndefined
  end.

Definition elements (v : JsValue) : list JsValue :=
  match v with JsArray l => l | _ => [] end.

Definition asString (v : JsValue) : string :=
  match v with JsString s => s | _ => EmptyString end.

(** [String.prototype.trim]: the white space among the code units 0..255. *)
Definition isWhiteSpace (c : ascii) : bool :=
  let n := nat_of_ascii c in
  ((9 <=? n) && (n <=? 13) || (n =? 32) || (n =? 160))%nat.

Fixpoint trimStart (s : string) : string :=
  match s with
  | EmptyString => EmptyString
  | String c rest => if isWhiteSpace c then trimStart rest else s
  end.

Fixpoint trimEnd (s : string) : string :=
  match s with
  | EmptyString => EmptyString
  | String c rest =>
      match trimEnd rest with
      | EmptyString => if isWhiteSpace c then EmptyString else String c EmptyString
      | rest' => String c rest'
      end
  end.

Definition trim (s : string) : string := trimEnd (trimStart s).

(** ** The typed data model ([types/graph.ts]) *)

(** A [level] that the object has: a number, or [null]. *)
Inductive LevelValue : Type :=
| LevelNumber (q : Q)
| LevelNull.

Module Node.
Record t : Type := mk {
  id : string;
  name : string;
  categories : option (list string);
  color : option string;
  level : option LevelValue;
  properties : option (list (string * JsValue));
  (* the own properties of the object that [Node] does not declare *)
  others : list (string * JsValue)
}.
End Node.

Module Edge.
Record t : Type := mk {
  sourceId : string;
  targetId : string;
  properties : option (list (string * JsValue))
}.
End Edge.

Module GraphData.
Record t : Type := mk {
  nodes : list Node.t;
  edges : list Edge.t
}.
End GraphData.

Module D3Node.
Record t : Type := mk {
  node : Node.t;
  index : option nat;
  x : option Q;
  y : option Q;
  vx : option Q;
  vy : option Q;
  fx : option Q;
  fy : option Q
}.
End D3Node.

Module D3Link.
Record t : Type := mk {
  source : string;
  target : string
}.
End D3Link.

Record ValidationError : Type := mkError {
  message : string;
  field : option string
}.

Inductive ValidationResult (T : Type) : Type :=
| Success (data : T)
| Failure (error : ValidationError).
Arguments Success {T} data.
Arguments Failure {T} error.

(** The casts [obj.nodes as Node[]] and [obj.edges as Edge[]]: the typed view
    of an object.  The validator has checked [id], [name], [sourceId] and
    [targetId].  The functions on [Node] and [Edge] are modelled on values
    of their declared types, so the view reads an optional field that does
    not have its declared type as absent; a [level] that is [null] is kept,
    since [level !== undefined] tells it from an absent one.  The
    properties that [Node] does not declare are kept as they are. *)
Definition declaredNodeKeys : list string :=
  ["id"; "name"; "categories"; "color"; "level"; "properties"].

Definition otherFields (v : JsValue) : list (string * JsValue) :=
  match v with
  | JsObject fields =>
      List.filter (fun kv => negb (bool_decide (fst kv ∈ declaredNodeKeys))) fields
  | _ => []
  end.

Definition asStrings (v : JsValue) : option (list string) :=
  match v with
  | JsArray l =>
      if forallb typeof_string l then Some (map asString l) else None
  | _ => None
  end.

Definition asNode (v : JsValue) : Node.t :=
  {| Node.id := asString (getProp v "id");
     Node.name := asString (getProp v "name");
     Node.categories := asStrings (getProp v "categories");
     Node.color :=
       match getProp v "color" with JsString s => Some s | _ => None end;
     Node.level :=
       match getProp v "level" with
       | JsNumber q => Some (LevelNumber q)
       | JsNull => Some LevelNull
       | _ => None
       end;
     Node.properties :=
       match getProp v "properties" with JsObject f => Some f | _ => None end;
     Node.others := otherFields v |}.

Definition asEdge (v : JsValue) : Edge.t :=
  {| Edge.sourceId := asString (getProp v "sourceId");
     Edge.targetId := asString (getProp v "targetId");
     Edge.properties :=
       match getProp v "properties" with JsObject f => Some f | _ => None end |}.

(** ** Validation ([validateGraphData]) *)

Definition dquote : string := String (ascii_of_nat 34) EmptyString.
Definition quoted (s : string) : string := dquote +:+ s +:+ dquote.

Definition nodesError (msg : string) : ValidationError :=
  {| message := msg; field := Some "nodes" |}.
Definition edgesError (msg : string) : ValidationError :=
  {| message := msg; field := Some "edges" |}.

Definition nodeNotObject (i : nat) : ValidationError :=
  nodesError ("Node at index " +:+ pretty i +:+ " is not an object").
Definition nodeInvalidId (i : nat) : ValidationError :=
  nodesError ("Node at index " +:+ pretty i +:+ " has invalid or missing "
              +:+ quoted "id").
Definition nodeInvalidName (i : nat) : ValidationError :=
  nodesError ("Node at index " +:+ pretty i +:+ " has invalid or missing "
              +:+ quoted "name").
Definition duplicateNodeId (id : string) : ValidationError :=
  nodesError ("Duplicate node ID: " +:+ quoted id).
Definition edgeNotObject (i : nat) : ValidationError :=
  edgesError ("Edge at index " +:+ pretty i +:+ " is not an object").
Definition edgeInvalidSource (i : nat) : ValidationError :=
  edgesError ("Edge at index " +:+ pretty i +:+ " has invalid or missing "
              +:+ quoted "sourceId").
Definition edgeInvalidTarget (i : nat) : ValidationError :=
  edgesError ("Edge at index " +:+ pretty i +:+ " has invalid or missing "
              +:+ quoted "targetId").

(** [typeof v !== 'string' || v.trim() === ''] *)
Definition blankOrNotString (v : JsValue) : bool :=
  match v with
  | JsString s => bool_decide (trim s = EmptyString)
  | _ => true
  end.

(** The body of the first loop, at index [i]. *)
Definition checkNode (i : nat) (node : JsValue) : option ValidationError :=
  if negb (truthy node) || negb (typeof_object node) then Some (nodeNotObject i)
  else if blankOrNotString (getProp node "id") then Some (nodeInvalidId i)
  else if negb (typeof_string (getProp node "name")) then Some (nodeInvalidName i)
  else None.

Fixpoint checkNodes (i : nat) (nodes : list JsValue) : option ValidationError :=
  match nodes with
  | [] => None
  | node :: rest =>
      match checkNode i node with
      | Some e => Some e
      | None => checkNodes (S i) rest
      end
  end.

(** The second loop, with its [Set] of the ids seen so far. *)
Fixpoint checkDuplicates (nodeIds : gset string) (nodes : list JsValue)
  : option ValidationError :=
  match nodes with
  | [] => None
  | node :: rest =>
      let id := asString (getProp node "id") in
      if bool_decide (id ∈ nodeIds) then Some (duplicateNodeId id)
      else checkDuplicates ({[ id ]} ∪ nodeIds) rest
  end.

(** The body of the third loop, at index [i]. *)
Definition checkEdge (i : nat) (edge : JsValue) : option ValidationError :=
  if negb (truthy edge) || negb (typeof_object edge) then Some (edgeNotObject i)
  else if blankOrNotString (getProp edge "sourceId") then Some (edgeInvalidSource i)
  else if blankOrNotString (getProp edge "targetId") then Some (edgeInvalidTarget i)
  else None.

Fixpoint checkEdges (i : nat) (edges : list JsValue) : option ValidationError :=
  match edges with
  | [] => None
  | edge :: rest =>
      match checkEdge i edge with
      | Some e => Some e
      | None => checkEdges (S i) rest
      end
  end.

Definition validateGraphData (data : JsValue) : ValidationResult GraphData.t :=
  if negb (truthy data) || negb (typeof_object data) then
    Failure {| message := "Data must be an object"; field := None |}
  else if negb (isArray (getProp data "nodes")) then
    Failure (nodesError ("Missing or invalid " +:+ quoted "nodes" +:+ " array"))
  else if negb (isArray (getProp data "edges")) then
    Failure (edgesError ("Missing or invalid " +:+ quoted "edges" +:+ " array"))
  else
    let nodes := elements (getProp data "nodes") in
    let edges := elements (getProp data "edges") in
    match checkNodes 0 nodes with
    | Some e => Failure e
    | None =>
        match checkDuplicates ∅ nodes with
        | Some e => Failure e
        | None =>
            match checkEdges 0 edges with
            | Some e => Failure e
            | None =>
                Success {| GraphData.nodes := map asNode nodes;
                           GraphData.edges := map asEdge edges |}
            end
        end
    end.

(** ** Statistics and index *)

Definition EDGE_ID_DELIMITER : string := "->".

Record GraphStats : Type := mkStats {
  nodeCount : nat;
  edgeCount : nat;
  invalidEdges : list Edge.t
}.

Record GraphIndex : Type := mkIndex {
  nodeById : gmap string Node.t;
  edgeByKey : gmap string Edge.t
}.

(** [new Set(graphData.nodes.map((n) => n.id))] *)
Definition nodeIdSet (nodes : list Node.t) : gset string :=
  list_to_set (map Node.id nodes).

Definition has (ids : gset string) (k : string) : bool := bool_decide (k ∈ ids).

Definition findInvalidEdges (graphData : GraphData.t) : list Edge.t :=
  let nodeIds := nodeIdSet (GraphData.nodes graphData) in
  List.filter
    (fun edge => negb (has nodeIds (Edge.sourceId edge))
                 || negb (has nodeIds (Edge.targetId edge)))
    (GraphData.edges graphData).

Definition calculateStats (graphData : GraphData.t) : GraphStats :=
  {| nodeCount := length (GraphData.nodes graphData);
     edgeCount := length (GraphData.edges graphData);
     invalidEdges := findInvalidEdges graphData |}.

Definition createEdgeId (sourceId targetId : string) : string :=
  sourceId +:+ EDGE_ID_DELIMITER +:+ targetId.

Definition buildGraphIndex (graphData : GraphData.t) : GraphIndex :=
  {| nodeById :=
       fold_left (fun m node => <[Node.id node := node]> m)
                 (GraphData.nodes graphData) ∅;
     edgeByKey :=
       fold_left
         (fun m edge =>
            <[Edge.sourceId edge +:+ EDGE_ID_DELIMITER +:+ Edge.targetId edge
              := edge]> m)
         (GraphData.edges graphData) ∅ |}.

Definition getNodeById (graphData : GraphData.t) (id : string)
    (index : option GraphIndex) : option Node.t :=
  match index with
  | Some index => nodeById index !! id
  | None =>
      List.find (fun n => bool_decide (Node.id n = id)) (GraphData.nodes graphData)
  end.

Definition getEdgeByIds (graphData : GraphData.t) (sourceId targetId : string)
    (index : option GraphIndex) : option Edge.t :=
  match index with
  | Some index =>
      edgeByKey index !! (sourceId +:+ EDGE_ID_DELIMITER +:+ targetId)
  | None =>
      List.find
        (fun e => bool_decide (Edge.sourceId e = sourceId)
                  && bool_decide (Edge.targetId e = targetId))
        (GraphData.edges graphData)
  end.

(** *** String primitives used by [parseEdgeId] *)

Fixpoint startsWith (s prefix : string) {struct prefix} : bool :=
  match prefix, s with
  | EmptyString, _ => true
  | String a prefix', String b s' => bool_decide (a = b) && startsWith s' prefix'
  | String _ _, EmptyString => false
  end.

(** First position at which [needle] occurs in [s], if any. *)
Fixpoint search (s needle : string) : option nat :=
  if startsWith s needle then Some 0%nat
  else match s with
       | EmptyString => None
       | String _ rest => S <$> search rest needle
       end.

(** [s.indexOf(needle)]: [-1] when there is no occurrence. *)
Definition indexOf (s needle : string) : Z :=
  match search s needle with
  | Some i => Z.of_nat i
  | None => -1
  end.

Fixpoint string_drop (n : nat) (s : string) : string :=
  match n, s with
  | O, _ => s
  | S n', String _ rest => string_drop n' rest
  | S _, EmptyString => EmptyString
  end.

Fixpoint string_take (n : nat) (s : string) : string :=
  match n, s with
  | S n', String c rest => String c (string_take n' rest)
  | _, _ => EmptyString
  end.

Definition jsLength (s : string) : Z := Z.of_nat (String.length s).

(** [s.slice(start, end)]; [end = None] is an omitted argument.  Negative
    arguments count from the end, and both are clamped to the string. *)
Definition slice (s : string) (start : Z) (end_ : option Z) : string :=
  let len := jsLength s in
  let clamp (k : Z) := if k <? 0 then Z.max (len + k) 0 else Z.min k len in
  let from := clamp start in
  let to := match end_ with Some e => clamp e | None => len end in
  string_take (Z.to_nat (Z.max (to - from) 0)) (string_drop (Z.to_nat from) s).

Definition parseEdgeId (edgeId : string) : option (string * string) :=
  let delimiterIndex := indexOf edgeId EDGE_ID_DELIMITER in
  if delimiterIndex =? -1 then None
  else Some (slice edgeId 0 (Some delimiterIndex),
             slice edgeId (delimiterIndex + jsLength EDGE_ID_DELIMITER) None).

(** ** Categories and colours ([categoryColors.ts]) *)

(** *** Regular expressions

    The two colour patterns are anchored at both ends, so [test] is a match
    of the whole string.  Patterns are syntax; [test] runs by derivatives. *)

Inductive regex : Type :=
| RNone                                   (* no string *)
| REps                                    (* the empty string *)
| RClass (p : ascii -> bool)              (* one character of a class *)
| RCat (r1 r2 : regex)
| RAlt (r1 r2 : regex)
| RStar (r : regex).

Fixpoint nullable (r : regex) : bool :=
  match r with
  | RNone => false
  | REps => true
  | RClass _ => false
  | RCat r1 r2 => nullable r1 && nullable r2
  | RAlt r1 r2 => nullable r1 || nullable r2
  | RStar _ => true
  end.

Fixpoint deriv (c : ascii) (r : regex) : regex :=
  match r with
  | RNone | REps => RNone
  | RClass p => if p c then REps else RNone
  | RCat r1 r2 =>
      if nullable r1 then RAlt (RCat (deriv c r1) r2) (deriv c r2)
      else RCat (deriv c r1) r2
  | RAlt r1 r2 => RAlt (deriv c r1) (deriv c r2)
  | RStar r1 => RCat (deriv c r1) (RStar r1)
  end.

Fixpoint test (r : regex) (s : string) : bool :=
  match s with
  | EmptyString => nullable r
  | String c rest => test (deriv c r) rest
  end.

Definition RChar (c : ascii) : regex := RClass (fun x => bool_decide (x = c)).
Definition RPlus (r : regex) : regex := RCat r (RStar r).
Definition ROpt (r : regex) : regex := RAlt r REps.
Fixpoint RRep (n : nat) (r : regex) : regex :=
  match n with
  | O => REps
  | S n' => RCat r (RRep n' r)
  end.
Fixpoint RLit (s : string) : regex :=
  match s with
  | EmptyString => REps
  | String c rest => RCat (RChar c) (RLit rest)
  end.

Definition inRange (lo hi : ascii) (c : ascii) : bool :=
  ((nat_of_ascii lo <=? nat_of_ascii c) && (nat_of_ascii c <=? nat_of_ascii hi))%nat.

(** [[0-9A-Fa-f]], [\d], [\s] and [[\d.]]. *)
Definition isHexDigit (c : ascii) : bool :=
  inRange "0" "9" c || inRange "A" "F" c || inRange "a" "f" c.
Definition isDigit (c : ascii) : bool := inRange "0" "9" c.
Definition isDigitOrDot (c : ascii) : bool :=
  isDigit c || bool_decide (c = "."%char).

Definition Rs : regex := RStar (RClass isWhiteSpace).
Definition Rd : regex := RPlus (RClass isDigit).

(** The pattern [^ # ( [0-9A-Fa-f]{3} | [0-9A-Fa-f]{6} | [0-9A-Fa-f]{8} ) $] *)
Definition HEX_COLOR_REGEX : regex :=
  RCat (RChar "#")
       (RAlt (RRep 3 (RClass isHexDigit))
             (RAlt (RRep 6 (RClass isHexDigit)) (RRep 8 (RClass isHexDigit)))).

(** The pattern, token by token:
    [^ rgb a? \( \s* \d+ \s* , \s* \d+ \s* , \s* \d+ \s* ( , \s* [\d.]+ \s* )? \) $] *)
Definition RGBA_COLOR_REGEX : regex :=
  RCat (RLit "rgb") (RCat (ROpt (RChar "a")) (RCat (RChar "(")
  (RCat Rs (RCat Rd (RCat Rs (RCat (RChar ",")
  (RCat Rs (RCat Rd (RCat Rs (RCat (RChar ",")
  (RCat Rs (RCat Rd (RCat Rs
  (RCat (ROpt (RCat (RChar ",") (RCat Rs (RCat (RPlus (RClass isDigitOrDot)) Rs))))
        (RChar ")"))))))))))))))).

Definition isValidColor (color : string) : bool :=
  test HEX_COLOR_REGEX color || test RGBA_COLOR_REGEX color.

(** *** Palette

    [schemeSet3] of d3-scale-chromatic (ColorBrewer Set3, twelve colours)
    and [DEFAULT_NODE_COLOR] of [config/constants]. *)
Definition PALETTE : list string :=
  [ "#8dd3c7"; "#ffffb3"; "#bebada"; "#fb8072"; "#80b1d3"; "#fdb462";
    "#b3de69"; "#fccde5"; "#d9d9d9"; "#bc80bd"; "#ccebc5"; "#ffed6f" ].

Definition DEFAULT_NODE_COLOR : string := "#4A90D9".

(** [PALETTE[i]] *)
Definition palette_at (i : nat) : string := nth i PALETTE EmptyString.

(** *** [extractCategories]

    The [Set] keeps its members in the order of their first insertion;
    [Array.from] reads them in that order and [sort] orders them by code
    units. *)
Definition set_add (categories : list string) (category : string) : list string :=
  if bool_decide (category ∈ categories) then categories
  else categories ++ [category].

Definition nonEmpty (s : string) : bool := negb (bool_decide (s = EmptyString)).

Definition addNodeCategories (categories : list string) (node : Node.t)
  : list string :=
  match Node.categories node with
  | Some cs =>
      fold_left (fun acc category =>
                   if nonEmpty category then set_add acc category else acc)
                cs categories
  | None => categories
  end.

Definition sortStrings (l : list string) : list string := merge_sort String.le l.

Definition extractCategories (nodes : list Node.t) : list string :=
  sortStrings (fold_left addNodeCategories nodes []).

(** *** [createCategoryColorMap] *)
Fixpoint colorMap_from (index : nat) (categories : list string)
    (colorMap : gmap string string) : gmap string string :=
  match categories with
  | [] => colorMap
  | category :: rest =>
      colorMap_from (S index) rest
        (<[category := palette_at (index mod length PALETTE)]> colorMap)
  end.

Definition createCategoryColorMap (categories : list string) : gmap string string :=
  colorMap_from 0 categories ∅.

(** *** [getNodeColor] *)
Definition getNodeColor (node : Node.t) (categoryColorMap : gmap string string)
  : string :=
  match Node.color node with
  | Some c =>
      if nonEmpty c && isValidColor c then c
      else
        match Node.categories node with
        | Some (firstCategory :: _) =>
            default DEFAULT_NODE_COLOR (categoryColorMap !! firstCategory)
        | _ => DEFAULT_NODE_COLOR
        end
  | None =>
      match Node.categories node with
      | Some (firstCategory :: _) =>
          default DEFAULT_NODE_COLOR (categoryColorMap !! firstCategory)
      | _ => DEFAULT_NODE_COLOR
      end
  end.

(** ** The layout hook ([useForceGraph.ts])

    Constants of [config/constants]. *)

Record ForceParams : Type := mkParams {
  linkDistance : Q;
  chargeStrength : Q;
  collisionRadius : Q
}.

Definition FORCE_DEFAULTS : ForceParams :=
  {| linkDistance := 150; chargeStrength := -400; collisionRadius := 45 |}.

Definition FORCE_RADIAL : ForceParams :=
  {| linkDistance := 400; chargeStrength := -1000; collisionRadius := 80 |}.
Definition FORCE_RADIAL_radialStrength : Q := 8 # 10.

Definition SIMULATION_REHEAT_ALPHA : Q := 3 # 10.

Definition defaultForceParams : ForceParams :=
  {| linkDistance := linkDistance FORCE_DEFAULTS;
     chargeStrength := chargeStrength FORCE_DEFAULTS;
     collisionRadius := collisionRadius FORCE_DEFAULTS |}.

Record UseForceGraphOptions : Type := mkOptions {
  width : Q;
  height : Q;
  radialLayout : bool;
  forceParams : ForceParams
}.

Record ForceGraphResult : Type := mkResult {
  nodes : list D3Node.t;
  links : list D3Link.t;
  isStable : bool
}.

(** *** Initial positions

    [rng] is called twice, first for [x] and then for [y]. *)
Definition initialPosition (width height : Q) (nodeId : string) : Q * Q :=
  let '(r1, seed1) := seededRandom (hashString nodeId) in
  let '(r2, _) := seededRandom seed1 in
  (width / 2 + (r1 - (1 # 2)) * 100, height / 2 + (r2 - (1 # 2)) * 100)%Q.

(** The fields of a simulation node that the spread [{...node, x, y}]
    takes over from the node.  [fx] and [fy] are tested with [!= null]: a
    number pins the node, [null] or no value does not.  [vx] and [vy] are
    tested with [isNaN]: [null] is kept and is the number 0 in every
    operation on it.  [index] is overwritten by d3. *)
Definition pinnedField (k : string) (node : Node.t) : option Q :=
  match assoc k (Node.others node) with
  | JsNumber q => Some q
  | _ => None
  end.

Definition velocityField (k : string) (node : Node.t) : option Q :=
  match assoc k (Node.others node) with
  | JsNumber q => Some q
  | JsNull => Some 0%Q
  | _ => None
  end.

Definition initD3Node (width height : Q) (node : Node.t) : D3Node.t :=
  let p := initialPosition width height (Node.id node) in
  {| D3Node.node := node;
     D3Node.index := None;
     D3Node.x := Some (fst p);
     D3Node.y := Some (snd p);
     D3Node.vx := velocityField "vx" node;
     D3Node.vy := velocityField "vy" node;
     D3Node.fx := pinnedField "fx" node;
     D3Node.fy := pinnedField "fy" node |}.

Definition initD3Nodes (width height : Q) (graphData : GraphData.t)
  : list D3Node.t :=
  map (initD3Node width height) (GraphData.nodes graphData).

(** [d3.forceSimulation(nodes)] initialises the nodes it is given, in
    place: the index, a pinned coordinate in the place of [x] or [y], and a
    zero velocity unless the node brings both components.  (d3 also places
    a node whose [x] or [y] is not a number; the nodes of the hook have
    both.) *)
Definition initializeNode (i : nat) (node : D3Node.t) : D3Node.t :=
  let x := match D3Node.fx node with Some fx => Some fx | None => D3Node.x node end in
  let y := match D3Node.fy node with Some fy => Some fy | None => D3Node.y node end in
  let noVelocity :=
    match D3Node.vx node, D3Node.vy node with
    | Some _, Some _ => false
    | _, _ => true
    end in
  {| D3Node.node := D3Node.node node;
     D3Node.index := Some i;
     D3Node.x := x;
     D3Node.y := y;
     D3Node.vx := if noVelocity then Some 0%Q else D3Node.vx node;
     D3Node.vy := if noVelocity then Some 0%Q else D3Node.vy node;
     D3Node.fx := D3Node.fx node;
     D3Node.fy := D3Node.fy node |}.

Definition initializeNodes (nodes : list D3Node.t) : list D3Node.t :=
  imap initializeNode nodes.

(** *** Active links *)
Definition initD3Links (graphData : GraphData.t) : list D3Link.t :=
  let nodeIds := nodeIdSet (GraphData.nodes graphData) in
  map (fun edge => {| D3Link.source := Edge.sourceId edge;
                      D3Link.target := Edge.targetId edge |})
      (List.filter
         (fun edge => has nodeIds (Edge.sourceId edge)
                      && has nodeIds (Edge.targetId edge))
         (GraphData.edges graphData)).

(** *** Radial rings *)
Definition Qgtb (a b : Q) : bool := negb (Qle_bool a b).

(** The number that [>] and [*] make of a level: [null] is 0. *)
Definition levelNumber (level : LevelValue) : Q :=
  match level with
  | LevelNumber q => q
  | LevelNull => 0%Q
  end.

(** The loop over the nodes that raises [maxLevel]. *)
Definition observedMaxLevel (nodes : list Node.t) : Q :=
  fold_left
    (fun maxLevel node =>
       match Node.level node with
       | Some l => if Qgtb (levelNumber l) maxLevel then levelNumber l else maxLevel
       | None => maxLevel
       end)
    nodes 0%Q.

Definition computeMaxLevel (radialLayout : bool) (nodes : list Node.t) : Q :=
  if radialLayout then (observedMaxLevel nodes + 1)%Q else 0%Q.

Definition Qmin (a b : Q) : Q := if Qle_bool a b then a else b.

Definition computeRadiusPerLevel (width height : Q) (radialLayout : bool)
    (maxLevel : Q) : Q :=
  let maxRadius := (Qmin width height / 2 - 80)%Q in
  if radialLayout && Qgtb maxLevel 0 then (maxRadius / maxLevel)%Q else 0%Q.

(** The radius accessor handed to [d3.forceRadial]. *)
Definition radialRadius (maxLevel radiusPerLevel : Q) (d : D3Node.t) : Q :=
  let level :=
    match Node.level (D3Node.node d) with
    | Some l => levelNumber l
    | None => maxLevel
    end in
  (level * radiusPerLevel)%Q.

(** *** The simulation object and the state of the hook

    [Simulation] holds what the hook configures through the d3-force API:
    the settings of the named forces, [alpha] and whether the internal timer
    runs.  The simulation's node and link arrays are the arrays kept in
    [nodesRef] and [linksRef] (the same objects), so they are stored once,
    in the hook state; d3 moves the nodes by mutating that array. *)

Record RadialForce : Type := mkRadial {
  radial_radius : D3Node.t -> Q;
  radial_x : Q;
  radial_y : Q;
  radial_strength : Q
}.

Record Simulation : Type := mkSimulation {
  link_distance : Q;
  charge_strength : Q;
  center_x : Q;
  center_y : Q;
  collide_radius : Q;
  radial : option RadialForce;
  alpha : Q;
  running : bool
}.

Record HookState : Type := mkHook {
  simulationRef : option Simulation;
  nodesRef : list D3Node.t;
  linksRef : list D3Link.t;
  rafIdRef : nat;
  isRadialRef : bool;
  isStableState : bool;
  (* React: a state update was requested since the last render; the value
     returned by each render so far, latest first *)
  renderRequested : bool;
  rendered : list ForceGraphResult;
  (* host: the animation-frame callbacks waiting for the next frame, and the
     last handle that [requestAnimationFrame] returned *)
  frameQueue : list nat;
  lastFrameHandle : nat
}.

Definition set_simulationRef (v : option Simulation) (st : HookState) : HookState :=
  mkHook v (nodesRef st) (linksRef st) (rafIdRef st) (isRadialRef st)
         (isStableState st) (renderRequested st) (rendered st)
         (frameQueue st) (lastFrameHandle st).
Definition set_nodesRef (v : list D3Node.t) (st : HookState) : HookState :=
  mkHook (simulationRef st) v (linksRef st) (rafIdRef st) (isRadialRef st)
         (isStableState st) (renderRequested st) (rendered st)
         (frameQueue st) (lastFrameHandle st).
Definition set_linksRef (v : list D3Link.t) (st : HookState) : HookState :=
  mkHook (simulationRef st) (nodesRef st) v (rafIdRef st) (isRadialRef st)
         (isStableState st) (renderRequested st) (rendered st)
         (frameQueue st) (lastFrameHandle st).
Definition set_rafIdRef (v : nat) (st : HookState) : HookState :=
  mkHook (simulationRef st) (nodesRef st) (linksRef st) v (isRadialRef st)
         (isStableState st) (renderRequested st) (rendered st)
         (frameQueue st) (lastFrameHandle st).
Definition set_isRadialRef (v : bool) (st : HookState) : HookState :=
  mkHook (simulationRef st) (nodesRef st) (linksRef st) (rafIdRef st) v
         (isStableState st) (renderRequested st) (rendered st)
         (frameQueue st) (lastFrameHandle st).
Definition set_isStableState (v : bool) (st : HookState) : HookState :=
  mkHook (simulationRef st) (nodesRef st) (linksRef st) (rafIdRef st)
         (isRadialRef st) v (renderRequested st) (rendered st)
         (frameQueue st) (lastFrameHandle st).
Definition set_renderRequested (v : bool) (st : HookState) : HookState :=
  mkHook (simulationRef st) (nodesRef st) (linksRef st) (rafIdRef st)
         (isRadialRef st) (isStableState st) v (rendered st)
         (frameQueue st) (lastFrameHandle st).
Definition set_rendered (v : list ForceGraphResult) (st : HookState) : HookState :=
  mkHook (simulationRef st) (nodesRef st) (linksRef st) (rafIdRef st)
         (isRadialRef st) (isStableState st) (renderRequested st) v
         (frameQueue st) (lastFrameHandle st).
Definition set_frames (queue : list nat) (last : nat) (st : HookState) : HookState :=
  mkHook (simulationRef st) (nodesRef st) (linksRef st) (rafIdRef st)
         (isRadialRef st) (isStableState st) (renderRequested st) (rendered st)
         queue last.

(** What the hook returns when it renders in state [st]. *)
Definition snapshot (st : HookState) : ForceGraphResult :=
  {| nodes := nodesRef st; links := linksRef st; isStable := isStableState st |}.

(** [forceRender()] and [setIsStable(v)]: both request a render; setting the
    flag to the value it has requests nothing. *)
Definition forceRender (st : HookState) : HookState :=
  set_renderRequested true st.

Definition setIsStable (v : bool) (st : HookState) : HookState :=
  if Bool.eqb (isStableState st) v then st
  else set_renderRequested true (set_isStableState v st).

(** React renders once after a handler or an effect that requested it. *)
Definition reactRender (st : HookState) : HookState :=
  if renderRequested st then
    set_renderRequested false (set_rendered (snapshot st :: rendered st) st)
  else st.

(** [requestAnimationFrame(cb)] returns a fresh non-zero handle and queues
    the callback; [cancelAnimationFrame(id)] removes it from the queue. *)
Definition requestAnimationFrame (st : HookState) : nat * HookState :=
  let id := S (lastFrameHandle st) in
  (id, set_frames (frameQueue st ++ [id]) id st).

Definition cancelAnimationFrame (id : nat) (st : HookState) : HookState :=
  set_frames (List.filter (fun h => negb (Nat.eqb h id)) (frameQueue st))
             (lastFrameHandle st) st.

(** The state of the hook at its first render, before any effect has run. *)
Definition initialHook (options : UseForceGraphOptions) : HookState :=
  {| simulationRef := None; nodesRef := []; linksRef := []; rafIdRef := 0%nat;
     isRadialRef := radialLayout options; isStableState := false;
     renderRequested := false;
     rendered := [ {| nodes := []; links := []; isStable := false |} ];
     frameQueue := []; lastFrameHandle := 0%nat |}.

(** *** Effects of the hook *)

(** The effect that keeps [isRadialRef] up to date. *)
Definition effectTrackRadial (options : UseForceGraphOptions) (st : HookState)
  : HookState :=
  set_isRadialRef (radialLayout options) st.

(** The first statements of effect 1: cancel the pending frame, stop and
    forget the simulation. *)
Definition cancelPendingFrame (st : HookState) : HookState :=
  if Nat.eqb (rafIdRef st) 0 then st
  else set_rafIdRef 0%nat (cancelAnimationFrame (rafIdRef st) st).

Definition dropSimulation (st : HookState) : HookState :=
  match simulationRef st with
  | Some _ => set_simulationRef None st
  | None => st
  end.

(** [d3.forceSimulation(...)] with the five forces of effect 1; a new
    simulation has [alpha = 1] and its timer runs. *)
Definition newSimulation (graphData : GraphData.t)
    (options : UseForceGraphOptions) : Simulation :=
  let radialLayout := radialLayout options in
  let maxLevel := computeMaxLevel radialLayout (GraphData.nodes graphData) in
  let radiusPerLevel :=
    computeRadiusPerLevel (width options) (height options) radialLayout maxLevel in
  let params := if radialLayout then FORCE_RADIAL else forceParams options in
  {| link_distance := linkDistance params;
     charge_strength := chargeStrength params;
     center_x := (width options / 2)%Q;
     center_y := (height options / 2)%Q;
     collide_radius := collisionRadius params;
     radial :=
       if radialLayout then
         Some {| radial_radius := radialRadius maxLevel radiusPerLevel;
                 radial_x := (width options / 2)%Q;
                 radial_y := (height options / 2)%Q;
                 radial_strength := FORCE_RADIAL_radialStrength |}
       else None;
     alpha := 1%Q;
     running := true |}.

(** Effect 1: (re)initialise the simulation. *)
Definition effectInit (graphData : option GraphData.t)
    (options : UseForceGraphOptions) (st : HookState) : HookState :=
  let st := dropSimulation (cancelPendingFrame st) in
  let empty :=
    forceRender (setIsStable true (set_linksRef [] (set_nodesRef [] st))) in
  match graphData with
  | None => empty
  | Some graphData =>
      if Nat.eqb (length (GraphData.nodes graphData)) 0 then empty
      else
        let st := setIsStable false st in
        (* [d3.forceSimulation(d3Nodes)], further down, initialises the
           nodes of this array in place before the first render *)
        let st :=
          set_nodesRef
            (initializeNodes
               (initD3Nodes (width options) (height options) graphData)) st in
        let st := set_linksRef (initD3Links graphData) st in
        let st := set_simulationRef (Some (newSimulation graphData options)) st in
        forceRender st
  end.

(** The clean-up function that effect 1 returns. *)
Definition stopSimulation (st : HookState) : HookState :=
  match simulationRef st with
  | Some sim =>
      set_simulationRef
        (Some (mkSimulation (link_distance sim) (charge_strength sim)
                 (center_x sim) (center_y sim) (collide_radius sim)
                 (radial sim) (alpha sim) false)) st
  | None => st
  end.

Definition effectInitCleanup (st : HookState) : HookState :=
  stopSimulation (cancelPendingFrame st).

(** Effect 2: apply new force parameters to the existing forces and reheat. *)
Definition applyParams (p : ForceParams) (sim : Simulation) : Simulation :=
  {| link_distance := linkDistance p;
     charge_strength := chargeStrength p;
     center_x := center_x sim;
     center_y := center_y sim;
     collide_radius := collisionRadius p;
     radial := radial sim;
     alpha := SIMULATION_REHEAT_ALPHA;
     running := true |}.

Definition effectParams (forceParams : ForceParams) (st : HookState) : HookState :=
  match simulationRef st with
  | None => st
  | Some simulation =>
      if isRadialRef st then st
      else setIsStable false
             (set_simulationRef (Some (applyParams forceParams simulation)) st)
  end.

(** *** Handlers *)

(** The [tick] listener. *)
Definition onTick (st : HookState) : HookState :=
  if Nat.eqb (rafIdRef st) 0 then
    let '(id, st) := requestAnimationFrame st in set_rafIdRef id st
  else st.

(** The callback given to [requestAnimationFrame]. *)
Definition frameCallback (st : HookState) : HookState :=
  forceRender (set_rafIdRef 0%nat st).

(** The [end] listener. *)
Definition onEnd (st : HookState) : HookState :=
  forceRender (setIsStable true st).

(** *** The engine and the host

    The integrator of d3-force is a parameter: [integrate] moves the nodes
    for one tick and [decay] cools [alpha]; a simulation stops when [alpha]
    falls below [alphaMin]. *)
Section Engine.

Variable integrate : Simulation -> list D3Link.t -> list D3Node.t -> list D3Node.t.
Variable decay : Q -> Q.
Variable alphaMin : Q.

Definition cool (sim : Simulation) : Simulation :=
  mkSimulation (link_distance sim) (charge_strength sim) (center_x sim)
    (center_y sim) (collide_radius sim) (radial sim) (decay (alpha sim))
    (running sim).

(** One firing of the simulation's timer: tick, call the [tick] listener
    and, when the simulation has cooled down, stop and call the [end]
    listener. *)
Definition timerStep (st : HookState) : HookState :=
  match simulationRef st with
  | Some sim =>
      if running sim then
        let sim := cool sim in
        let st := set_simulationRef (Some sim) st in
        let st := set_nodesRef (integrate sim (linksRef st) (nodesRef st)) st in
        let st := onTick st in
        if Qgtb alphaMin (alpha sim) then onEnd (stopSimulation st) else st
      else st
  | None => st
  end.

(** A display frame: the host runs the callbacks that are queued. *)
Definition displayFrame (st : HookState) : HookState :=
  fold_left (fun st _ => frameCallback st) (frameQueue st)
            (set_frames [] (lastFrameHandle st) st).

Inductive Event : Type :=
| EvTimer                                  (* the simulation's timer fires *)
| EvFrame                                  (* the display refreshes *)
| EvParams (forceParams : ForceParams)     (* only [forceParams] changed *)
| EvInit (graphData : option GraphData.t)  (* graph, size or mode changed *)
         (options : UseForceGraphOptions).

(** An event runs its handlers or effects; React then renders if asked. *)
Definition handle (ev : Event) (st : HookState) : HookState :=
  reactRender
    match ev with
    | EvTimer => timerStep st
    | EvFrame => displayFrame st
    | EvParams p => effectParams p st
    | EvInit graphData options =>
        effectInit graphData options
          (effectInitCleanup (effectTrackRadial options st))
    end.

Definition run (evs : list Event) (st : HookState) : HookState :=
  fold_left (fun st ev => handle ev st) evs st.

(** Mounting the hook runs the three effects in order. *)
Definition mount (graphData : option GraphData.t)
    (options : UseForceGraphOptions) : HookState :=
  reactRender
    (effectParams (forceParams options)
       (effectInit graphData options
          (effectTrackRadial options (initialHook options)))).

End Engine.

(** ** Category counts and visibility ([categoryColors.ts]) *)

Definition UNCATEGORIZED : string := "(uncategorized)".

(** [counts.set(category, (counts.get(category) ?? 0) + 1)] *)
Definition countCategory (counts : gmap string nat) (category : string)
  : gmap string nat :=
  <[category := (default 0 (counts !! category) + 1)%nat]> counts.

(** The body of the loop of [getCategoryCounts], on the pair of [counts] and
    [uncategorizedCount]. *)
Definition countNode (acc : gmap string nat * nat) (node : Node.t)
  : gmap string nat * nat :=
  match Node.categories node with
  | Some (c :: cs) => (fold_left countCategory (c :: cs) (fst acc), snd acc)
  | _ => (fst acc, S (snd acc))
  end.

Definition getCategoryCounts (nodes : list Node.t) : gmap string nat :=
  let '(counts, uncategorizedCount) := fold_left countNode nodes (∅, 0%nat) in
  if (0 <? uncategorizedCount)%nat
  then <[UNCATEGORIZED := uncategorizedCount]> counts
  else counts.

Definition nodeHasCategory (node : Node.t) (category : string) : bool :=
  match Node.categories node with
  | Some (c :: cs) => bool_decide (category ∈ c :: cs)
  | _ => bool_decide (category = UNCATEGORIZED)
  end.

Definition isNodeHidden (node : Node.t) (hiddenCategories : gset string) : bool :=
  if Nat.eqb (size hiddenCategories) 0 then false
  else
    match Node.categories node with
    | Some (c :: cs) => existsb (fun cat => has hiddenCategories cat) (c :: cs)
    | _ => has hiddenCategories UNCATEGORIZED
    end.

(** ** Neighbours ([getConnectedNodes]) *)

Definition addConnected (nodeId : string) (connectedIds : gset string)
    (edge : Edge.t) : gset string :=
  if bool_decide (Edge.sourceId edge = nodeId)
  then {[ Edge.targetId edge ]} ∪ connectedIds
  else if bool_decide (Edge.targetId edge = nodeId)
       then {[ Edge.sourceId edge ]} ∪ connectedIds
       else connectedIds.

Definition getConnectedNodes (graphData : GraphData.t) (nodeId : string)
  : list Node.t :=
  let connectedIds :=
    fold_left (addConnected nodeId) (GraphData.edges graphData) ∅ in
  List.filter (fun node => has connectedIds (Node.id node))
              (GraphData.nodes graphData).

(** ** Selection ([SelectionContext.tsx]) *)

Module SelectionType.
Inductive t : Type := node | edge.
End SelectionType.

Module SelectionState.
Record t : Type := mk {
  type : option SelectionType.t;
  ids : list string
}.
End SelectionState.

Module SelectionContext.
Definition initialState : SelectionState.t :=
  {| SelectionState.type := None; SelectionState.ids := [] |}.
End SelectionContext.

Inductive SelectionAction : Type :=
| SELECT_NODE (payload : string)
| SELECT_NODES (payload : list string)
| ADD_NODES (payload : list string)
| REMOVE_NODES (payload : list string)
| TOGGLE_NODE (payload : string)
| SELECT_EDGE (payload : string)
| CLEAR_SELECTION.

(** [state.type === 'node'] *)
Definition isNodeType (type : option SelectionType.t) : bool :=
  match type with
  | Some SelectionType.node => true
  | _ => false
  end.

(** [ids.length > 0 ? 'node' : null] *)
Definition nodeTypeFor (ids : list string) : option SelectionType.t :=
  if (0 <? length ids)%nat then Some SelectionType.node else None.

(** [[...new Set(list)]]: the distinct elements, in the order of their
    first occurrence. *)
Definition distinct (l : list string) : list string := fold_left set_add l [].

Definition selectionReducer (state : SelectionState.t) (action : SelectionAction)
  : SelectionState.t :=
  match action with
  | SELECT_NODE payload =>
      {| SelectionState.type := Some SelectionType.node;
         SelectionState.ids := [payload] |}
  | SELECT_NODES payload =>
      {| SelectionState.type := nodeTypeFor payload;
         SelectionState.ids := payload |}
  | ADD_NODES payload =>
      if Nat.eqb (length payload) 0 then state
      else
        let currentIds :=
          if isNodeType (SelectionState.type state)
          then SelectionState.ids state else [] in
        let newIds := distinct (currentIds ++ payload) in
        {| SelectionState.type := Some SelectionType.node;
           SelectionState.ids := newIds |}
  | REMOVE_NODES payload =>
      if negb (isNodeType (SelectionState.type state))
         || Nat.eqb (length payload) 0
      then state
      else
        let removeSet : gset string := list_to_set payload in
        let remainingIds :=
          List.filter (fun id => negb (has removeSet id))
                      (SelectionState.ids state) in
        {| SelectionState.type := nodeTypeFor remainingIds;
           SelectionState.ids := remainingIds |}
  | TOGGLE_NODE payload =>
      if negb (isNodeType (SelectionState.type state))
      then {| SelectionState.type := Some SelectionType.node;
              SelectionState.ids := [payload] |}
      else
        let exists_ := bool_decide (payload ∈ SelectionState.ids state) in
        let newIds :=
          if exists_
          then List.filter (fun id => negb (bool_decide (id = payload)))
                           (SelectionState.ids state)
          else SelectionState.ids state ++ [payload] in
        {| SelectionState.type := nodeTypeFor newIds;
           SelectionState.ids := newIds |}
  | SELECT_EDGE payload =>
      {| SelectionState.type := Some SelectionType.edge;
         SelectionState.ids := [payload] |}
  | CLEAR_SELECTION =>
      {| SelectionState.type := None; SelectionState.ids := [] |}
  end.

Definition getEdgeId (sourceId targetId : string) : string :=
  sourceId +:+ "->" +:+ targetId.

(** ** The property panel ([PropertyPanel.tsx]) *)

Inductive SelectedElements : Type :=
| SelectedNodes (data : list Node.t)
| SelectedEdge (data : list Edge.t).

(** The [useMemo] that resolves the selection against the graph. *)
Definition selectedElements (graphData : option GraphData.t)
    (graphIndex : option GraphIndex) (selection : SelectionState.t)
  : option SelectedElements :=
  match graphData, SelectionState.type selection with
  | Some graphData, Some type =>
      if Nat.eqb (length (SelectionState.ids selection)) 0 then None
      else
        let index := graphIndex in
        match type with
        | SelectionType.node =>
            let nodes :=
              fold_left
                (fun nodes id =>
                   match getNodeById graphData id index with
                   | Some node => nodes ++ [node]
                   | None => nodes
                   end)
                (SelectionState.ids selection) [] in
            if (0 <? length nodes)%nat then Some (SelectedNodes nodes) else None
        | SelectionType.edge =>
            match SelectionState.ids selection with
            | edgeId :: _ =>
                match parseEdgeId edgeId with
                | None => None
                | Some (sourceId, targetId) =>
                    match getEdgeByIds graphData sourceId targetId index with
                    | Some edge => Some (SelectedEdge [edge])
                    | None => None
                    end
                end
            | [] => None
            end
        end
  | _, _ => None
  end.

(** ** Clicks on the canvas ([GraphCanvas.tsx])

    A link holds the identifiers of its endpoints; once d3 has replaced them
    by the node objects, the handlers read the [id] of those objects, which
    is the same string. *)
Record MouseEvent : Type := mkMouseEvent {
  metaKey : bool;
  ctrlKey : bool;
  shiftKey : bool
}.

Definition handleEdgeClick (link : D3Link.t) (selection : SelectionState.t)
  : SelectionState.t :=
  let sourceId := D3Link.source link in
  let targetId := D3Link.target link in
  let edgeId := getEdgeId sourceId targetId in
  selectionReducer selection (SELECT_EDGE edgeId).

Definition isEdgeSelected (selection : SelectionState.t) (link : D3Link.t) : bool :=
  match SelectionState.type selection with
  | Some SelectionType.edge =>
      bool_decide (getEdgeId (D3Link.source link) (D3Link.target link)
                   ∈ SelectionState.ids selection)
  | _ => false
  end.

(** ** The graph state ([GraphContext.tsx]) *)

Module LoadedGraph.
Record t : Type := mk {
  filePath : string;
  data : GraphData.t;
  index : GraphIndex;
  stats : GraphStats
}.
End LoadedGraph.

(** [Partial<ForceParams>]: [None] is a key that the object does not have. *)
Module PartialForceParams.
Record t : Type := mk {
  linkDistance : option Q;
  chargeStrength : option Q;
  collisionRadius : option Q
}.
End PartialForceParams.

Module GraphState.
Record t : Type := mk {
  graphData : option GraphData.t;
  graphIndex : option GraphIndex;
  stats : option GraphStats;
  filePath : option string;
  isLoading : bool;
  error : option string;
  radialLayout : bool;
  forceParams : ForceParams;
  hiddenCategories : gset string
}.
End GraphState.

Module GraphContext.
Definition initialState : GraphState.t :=
  {| GraphState.graphData := None;
     GraphState.graphIndex := None;
     GraphState.stats := None;
     GraphState.filePath := None;
     GraphState.isLoading := false;
     GraphState.error := None;
     GraphState.radialLayout := false;
     GraphState.forceParams := defaultForceParams;
     GraphState.hiddenCategories := ∅ |}.
End GraphContext.

Inductive GraphAction : Type :=
| LOAD_START
| LOAD_SUCCESS (payload : LoadedGraph.t)
| LOAD_ERROR (payload : string)
| CLEAR_GRAPH
| SET_RADIAL_LAYOUT (payload : bool)
| SET_FORCE_PARAMS (payload : PartialForceParams.t)
| TOGGLE_CATEGORY_VISIBILITY (payload : string)
| SET_HIDDEN_CATEGORIES (payload : gset string).

(** [{ ...forceParams, ...payload }] *)
Definition spreadForceParams (forceParams : ForceParams)
    (payload : PartialForceParams.t) : ForceParams :=
  {| linkDistance :=
       default (linkDistance forceParams) (PartialForceParams.linkDistance payload);
     chargeStrength :=
       default (chargeStrength forceParams)
               (PartialForceParams.chargeStrength payload);
     collisionRadius :=
       default (collisionRadius forceParams)
               (PartialForceParams.collisionRadius payload) |}.

Definition graphReducer (state : GraphState.t) (action : GraphAction)
  : GraphState.t :=
  let '(GraphState.mk graphData graphIndex stats filePath isLoading error
                      radialLayout forceParams hiddenCategories) := state in
  match action with
  | LOAD_START =>
      GraphState.mk graphData graphIndex stats filePath true None
                    radialLayout forceParams hiddenCategories
  | LOAD_SUCCESS payload =>
      GraphState.mk (Some (LoadedGraph.data payload))
                    (Some (LoadedGraph.index payload))
                    (Some (LoadedGraph.stats payload))
                    (Some (LoadedGraph.filePath payload))
                    false None radialLayout forceParams ∅
  | LOAD_ERROR payload =>
      GraphState.mk graphData graphIndex stats filePath false (Some payload)
                    radialLayout forceParams hiddenCategories
  | CLEAR_GRAPH => GraphContext.initialState
  | SET_RADIAL_LAYOUT payload =>
      GraphState.mk graphData graphIndex stats filePath isLoading error
                    payload forceParams hiddenCategories
  | SET_FORCE_PARAMS payload =>
      GraphState.mk graphData graphIndex stats filePath isLoading error
                    radialLayout (spreadForceParams forceParams payload)
                    hiddenCategories
  | TOGGLE_CATEGORY_VISIBILITY payload =>
      let newHidden :=
        if has hiddenCategories payload
        then hiddenCategories ∖ {[ payload ]}
        else {[ payload ]} ∪ hiddenCategories in
      GraphState.mk graphData graphIndex stats filePath isLoading error
                    radialLayout forceParams newHidden
  | SET_HIDDEN_CATEGORIES payload =>
      GraphState.mk graphData graphIndex stats filePath isLoading error
                    radialLayout forceParams payload
  end.

(** The action creators. *)
Module graphActions.
Definition loadStart : GraphAction := LOAD_START.
Definition loadSuccess (data : GraphData.t) (filePath : string) : GraphAction :=
  LOAD_SUCCESS {| LoadedGraph.data := data;
                  LoadedGraph.filePath := filePath;
                  LoadedGraph.index := buildGraphIndex data;
                  LoadedGraph.stats := calculateStats data |}.
Definition loadError (error : string) : GraphAction := LOAD_ERROR error.
Definition clearGraph : GraphAction := CLEAR_GRAPH.
Definition setRadialLayout (enabled : bool) : GraphAction :=
  SET_RADIAL_LAYOUT enabled.
Definition setForceParams (params : PartialForceParams.t) : GraphAction :=
  SET_FORCE_PARAMS params.
Definition toggleCategoryVisibility (category : string) : GraphAction :=
  TOGGLE_CATEGORY_VISIBILITY category.
Definition setHiddenCategories (categories : gset string) : GraphAction :=
  SET_HIDDEN_CATEGORIES categories.
End graphActions.

(** ** Loading a file ([useGraphLoader.ts])

    [JSON.parse] is a parameter: it returns the parsed value, or [None]
    when it throws.  The file dialog and the read of a path answer with
    [null], with an error or with the content of a file, or they throw: an
    [Error] with its message, or another value. *)

Inductive ParseResult : Type :=
| ParseSuccess (data : GraphData.t)
| ParseFailure (error : string).

Inductive FileResult : Type :=
| FileError (error : string)
| FileContent (content filePath : string).

Inductive IpcOutcome : Type :=
| IpcThrew (error : option string)
| IpcReturned (result : option FileResult).

(** [openFile] and [openFilePath] are [async] functions with one [await].
    The part before it runs when the function is called; the part after it
    runs when the call to the main process has settled, and until then the
    reducer takes whatever else is dispatched.  [dispatch] hands the action
    to the reducer with the state of that moment, so each part is a function
    of the state that it finds. *)
Record AsyncLoad : Type := {
  called : GraphState.t -> GraphState.t;
  settled : IpcOutcome -> GraphState.t -> GraphState.t
}.

Section Loader.

Variable JSON_parse : string -> option JsValue.

Definition parseAndValidateGraph (content : string) : ParseResult :=
  match JSON_parse content with
  | None => ParseFailure "Invalid JSON file"
  | Some parsed =>
      match validateGraphData parsed with
      | Failure error => ParseFailure (message error)
      | Success data => ParseSuccess data
      end
  end.

(** The body of the [try] after the [await], with its [catch], which
    [openFile] and [openFilePath] share: [onNull] is the message for a
    [null] answer. *)
Definition afterAwait (onNull : string) (outcome : IpcOutcome)
    (state : GraphState.t) : GraphState.t :=
  match outcome with
  | IpcThrew (Some message) =>
      graphReducer state (graphActions.loadError message)
  | IpcThrew None =>
      graphReducer state (graphActions.loadError "Unknown error")
  | IpcReturned None => graphReducer state (graphActions.loadError onNull)
  | IpcReturned (Some (FileError error)) =>
      graphReducer state (graphActions.loadError error)
  | IpcReturned (Some (FileContent content filePath)) =>
      match parseAndValidateGraph content with
      | ParseFailure error => graphReducer state (graphActions.loadError error)
      | ParseSuccess data =>
          graphReducer state (graphActions.loadSuccess data filePath)
      end
  end.

Definition openFile : AsyncLoad :=
  {| called := fun state => graphReducer state graphActions.loadStart;
     settled := afterAwait EmptyString |}.

Definition openFilePath : AsyncLoad :=
  {| called := fun state => graphReducer state graphActions.loadStart;
     settled := afterAwait "Failed to open file" |}.

Definition clearGraph (state : GraphState.t) : GraphState.t :=
  graphReducer state graphActions.clearGraph.

End Loader.

(** ** The category legend ([CategoryLegend.tsx]) *)

Module LegendData.
Record t : Type := mk {
  categories : list string;
  colorMap : gmap string string;
  counts : gmap string nat;
  uncategorizedCount : nat
}.
End LegendData.

(** The first [useMemo] of the component. *)
Definition legendData (graphState : GraphState.t) : LegendData.t :=
  match GraphState.graphData graphState with
  | None =>
      {| LegendData.categories := []; LegendData.colorMap := ∅;
         LegendData.counts := ∅; LegendData.uncategorizedCount := 0%nat |}
  | Some graphData =>
      let cats := extractCategories (GraphData.nodes graphData) in
      let cMap := createCategoryColorMap cats in
      let cnts := getCategoryCounts (GraphData.nodes graphData) in
      {| LegendData.categories := cats; LegendData.colorMap := cMap;
         LegendData.counts := cnts;
         LegendData.uncategorizedCount := default 0%nat (cnts !! UNCATEGORIZED) |}
  end.

Definition handleCategoryClick (graphState : GraphState.t) (e : MouseEvent)
    (category : string) (selection : SelectionState.t) : SelectionState.t :=
  match GraphState.graphData graphState with
  | None => selection
  | Some graphData =>
      let nodeIds :=
        map Node.id
            (List.filter (fun n => nodeHasCategory n category)
                         (GraphData.nodes graphData)) in
      if Nat.eqb (length nodeIds) 0 then selection
      else if metaKey e || ctrlKey e
           then selectionReducer selection (REMOVE_NODES nodeIds)
           else if shiftKey e
                then selectionReducer selection (ADD_NODES nodeIds)
                else selectionReducer selection (SELECT_NODES nodeIds)
  end.

Definition handleVisibilityToggle (category : string) (graphState : GraphState.t)
  : GraphState.t :=
  graphReducer graphState (graphActions.toggleCategoryVisibility category).

Definition allCategoryKeys (graphState : GraphState.t) : list string :=
  let keys := LegendData.categories (legendData graphState) in
  if (0 <? LegendData.uncategorizedCount (legendData graphState))%nat
  then keys ++ [UNCATEGORIZED] else keys.

Definition allHidden (graphState : GraphState.t) : bool :=
  (0 <? length (allCategoryKeys graphState))%nat
  && forallb (fun cat => has (GraphState.hiddenCategories graphState) cat)
             (allCategoryKeys graphState).

Definition handleToggleAll (graphState : GraphState.t) : GraphState.t :=
  if allHidden graphState
  then graphReducer graphState (graphActions.setHiddenCategories ∅)
  else graphReducer graphState
         (graphActions.setHiddenCategories
            (list_to_set (allCategoryKeys graphState))).

(** ** Recent files ([store.ts])

    The store keeps the list under the key [recentFiles]; the functions
    below take the stored list and return the list that is stored back. *)

Definition MAX_RECENT_FILES : nat := 10.

Definition addRecentFile (filePath : string) (recentFiles : list string)
  : list string :=
  let filtered :=
    List.filter (fun f => negb (bool_decide (f = filePath))) recentFiles in
  let filtered := filePath :: filtered in
  let limited := take MAX_RECENT_FILES filtered in
  limited.

Definition clearRecentFiles (recentFiles : list string) : list string := [].

(** ** Export ([GraphCanvas.tsx]) *)

(** [s.replace(/c/g, replacement)] for a pattern that is one character and
    a replacement without [$]. *)
Fixpoint replaceAll (c : ascii) (replacement : string) (s : string) : string :=
  match s with
  | EmptyString => EmptyString
  | String x rest =>
      if bool_decide (x = c) then replacement +:+ replaceAll c replacement rest
      else String x (replaceAll c replacement rest)
  end.

Definition quoteChar : ascii := "034"%char.

Definition escapeXml (text : string) : string :=
  replaceAll "'"%char "&apos;"
    (replaceAll quoteChar "&quot;"
       (replaceAll ">"%char "&gt;"
          (replaceAll "<"%char "&lt;"
             (replaceAll "&"%char "&amp;" text)))).

(** ** Zoom to fit ([GraphCanvas.tsx])

    [d3.extent] skips the values that are undefined; [Transform] is the
    zoom transform of d3, a scale [k] and a translation [(x, y)]. *)

Definition ZOOM_PADDING : Q := 80.
Definition ZOOM_MAX_SCALE : Q := 2.

Definition Qmax (a b : Q) : Q := if Qle_bool a b then b else a.

Definition extent {A : Type} (values : list A) (accessor : A -> option Q)
  : option (Q * Q) :=
  fold_left
    (fun acc d =>
       match accessor d with
       | None => acc
       | Some value =>
           match acc with
           | None => Some (value, value)
           | Some (min, max) =>
               Some (if Qgtb min value then value else min,
                     if Qgtb value max then value else max)
           end
       end)
    values None.

Module Transform.
Record t : Type := mk { k : Q; x : Q; y : Q }.
Definition translate (tx ty : Q) (this : t) : t :=
  {| k := k this; x := x this + k this * tx; y := y this + k this * ty |}%Q.
Definition scale (factor : Q) (this : t) : t :=
  {| k := k this * factor; x := x this; y := y this |}%Q.
Definition applyX (this : t) (px : Q) : Q := (px * k this + x this)%Q.
Definition applyY (this : t) (py : Q) : Q := (py * k this + y this)%Q.
End Transform.

Definition zoomIdentity : Transform.t :=
  {| Transform.k := 1; Transform.x := 0; Transform.y := 0 |}.

(** The transform that [zoomToNodes] hands to the zoom behaviour for an
    SVG element of [width] x [height]; [None] when it returns early. *)
Definition zoomToNodes (width height : Q) (targetNodes : list D3Node.t)
  : option Transform.t :=
  if Nat.eqb (length targetNodes) 0 then None
  else
    let padding := ZOOM_PADDING in
    match extent targetNodes D3Node.x, extent targetNodes D3Node.y with
    | Some xExtent, Some yExtent =>
        let boundsWidth := Qmax (snd xExtent - fst xExtent) 1 in
        let boundsHeight := Qmax (snd yExtent - fst yExtent) 1 in
        let scale :=
          Qmin (Qmin ((width - padding * 2) / boundsWidth)
                     ((height - padding * 2) / boundsHeight))
               ZOOM_MAX_SCALE in
        let centerX := ((fst xExtent + snd xExtent) / 2)%Q in
        let centerY := ((fst yExtent + snd yExtent) / 2)%Q in
        Some (Transform.translate (- centerX) (- centerY)
                (Transform.scale scale
                   (Transform.translate (width / 2) (height / 2) zoomIdentity)))
    | _, _ => None
    end%Q.

(** ** Search ([SearchInput.tsx])

    [toLowerCase] is a parameter. *)

(** [s.includes(needle)] *)
Definition includes (s needle : string) : bool :=
  match search s needle with
  | Some _ => true
  | None => false
  end.

Section SearchInput.

Variable toLowerCase : string -> string.

Definition searchNodes (query : string) (nodes : list Node.t) : list Node.t :=
  if negb (nonEmpty (trim query)) then []
  else
    let lowerQuery := toLowerCase query in
    List.filter
      (fun node =>
         if includes (toLowerCase (Node.id node)) lowerQuery then true
         else if includes (toLowerCase (Node.name node)) lowerQuery then true
         else match Node.categories node with
              | Some categories =>
                  existsb (fun cat => includes (toLowerCase cat) lowerQuery)
                          categories
              | None => false
              end)
      nodes.

(** [handleSearch]: the match count that is displayed and the selection. *)
Definition handleSearch (graphData : option GraphData.t) (searchQuery : string)
    (selection : SelectionState.t) : option nat * SelectionState.t :=
  match graphData with
  | None => (None, selection)
  | Some graphData =>
      if negb (nonEmpty (trim searchQuery)) then (None, selection)
      else
        let matches := searchNodes searchQuery (GraphData.nodes graphData) in
        (Some (length matches),
         if (0 <? length matches)%nat
         then selectionReducer selection (SELECT_NODES (map Node.id matches))
         else selection)
  end.

End SearchInput.

(** * Vocabulary of the properties

    Predicates that the statements below use, and the documents, graphs and
    engine that serve as examples. *)

(** [contains s needle]: [needle] occurs in [s]. *)
Definition contains (s needle : string) : Prop :=
  exists before after, s = before +:+ needle +:+ after.

(** The identifier that the duplicate check reads off a node. *)
Definition nodeIdOf (v : JsValue) : string := asString (getProp v "id").

(** The two loops of [buildGraphIndex]: [set] each element under its key. *)
Definition index_by {A : Type} (key : A -> string) (l : list A)
    (m : gmap string A) : gmap string A :=
  fold_left (fun m x => <[key x := x]> m) l m.

(** The composite key of an edge. *)
Definition edgeKey (e : Edge.t) : string :=
  Edge.sourceId e +:+ EDGE_ID_DELIMITER +:+ Edge.targetId e.

(** Some node of the graph has the identifier (a scan of the node array),
    and both endpoints of the edge have one. *)
Definition isNodeId (g : GraphData.t) (id : string) : bool :=
  existsb (fun n => bool_decide (Node.id n = id)) (GraphData.nodes g).

Definition resolvable (g : GraphData.t) (e : Edge.t) : bool :=
  isNodeId g (Edge.sourceId e) && isNodeId g (Edge.targetId e).

(** The link that the layout makes of an edge. *)
Definition linkOf (e : Edge.t) : D3Link.t :=
  {| D3Link.source := Edge.sourceId e; D3Link.target := Edge.targetId e |}.

(** The seeding of the positions as arithmetic on 32-bit unsigned
    integers: the hash is djb2 with exclusive or (multiply by 33, then mix
    in the next code unit), the generator is mulberry32.  A draw is the
    numerator of a fraction of [4294967296]. *)
Definition word (z : Z) : Z := z mod 4294967296.





(** Documents used as examples. *)
Definition obj_node (id name : string) : JsValue :=
  JsObject [("id", JsString id); ("name", JsString name)].
Definition obj_edge (sourceId targetId : string) : JsValue :=
  JsObject [("sourceId", JsString sourceId); ("targetId", JsString targetId)].
Definition obj_graph (nodes edges : list JsValue) : JsValue :=
  JsObject [("nodes", JsArray nodes); ("edges", JsArray edges)].

(** A node and an edge without optional fields. *)
Definition plainNode (id name : string) : Node.t :=
  Node.mk id name None None None None [].
Definition plainEdge (sourceId targetId : string) : Edge.t :=
  Edge.mk sourceId targetId None.

(** Two nodes joined by one edge. *)
Definition doc_ab : JsValue :=
  obj_graph [obj_node "a" "A"; obj_node "b" "B"] [obj_edge "a" "b"].
Definition graph_ab : GraphData.t :=
  GraphData.mk [plainNode "a" "A"; plainNode "b" "B"] [plainEdge "a" "b"].


(** Two parallel edges from [a] to [b]; the first carries properties. *)
Definition weightedEdge : Edge.t :=
  Edge.mk "a" "b" (Some [("weight", JsNumber 1)]).
Definition doc_parallel : JsValue :=
  obj_graph
    [obj_node "a" "A"; obj_node "b" "B"]
    [JsObject [("sourceId", JsString "a"); ("targetId", JsString "b");
               ("properties", JsObject [("weight", JsNumber 1)])];
     obj_edge "a" "b"].
Definition graph_parallel : GraphData.t :=
  GraphData.mk [plainNode "a" "A"; plainNode "b" "B"]
               [weightedEdge; plainEdge "a" "b"].

(** An edge from [a] to a node that does not exist. *)
Definition doc_missing : JsValue :=
  obj_graph [obj_node "a" "A"; obj_node "b" "B"] [obj_edge "a" "missing"].
Definition graph_missing : GraphData.t :=
  GraphData.mk [plainNode "a" "A"; plainNode "b" "B"] [plainEdge "a" "missing"].

(** A non-null object, in the sense of [typeof]. *)
Definition isObjectValue (v : JsValue) : Prop :=
  truthy v = true /\ typeof_object v = true.

(** Well-formed documents, for a condition [ok] on identifier strings. *)
Definition idString (ok : string -> Prop) (v : JsValue) : Prop :=
  exists s, v = JsString s /\ ok s.

Definition validNode (ok : string -> Prop) (v : JsValue) : Prop :=
  isObjectValue v /\ idString ok (getProp v "id")
  /\ typeof_string (getProp v "name") = true.

Definition validEdge (ok : string -> Prop) (v : JsValue) : Prop :=
  isObjectValue v /\ idString ok (getProp v "sourceId")
  /\ idString ok (getProp v "targetId").

Definition wellFormed (ok : string -> Prop) (data : JsValue) : Prop :=
  isObjectValue data
  /\ exists ns es,
       getProp data "nodes" = JsArray ns
       /\ getProp data "edges" = JsArray es
       /\ Forall (validNode ok) ns
       /\ NoDup (map nodeIdOf ns)
       /\ Forall (validEdge ok) es.

(** The condition of the claim, and the one the code applies. *)
Definition nonEmptyId (s : string) : Prop := s <> EmptyString.
Definition nonBlankId (s : string) : Prop := trim s <> EmptyString.

(** The failure reported for an invalid node or edge at index [i]. *)
Inductive nodeFailure (i : nat) (v : JsValue) : ValidationError -> Prop :=
| NodeNotObject :
    ~ isObjectValue v -> nodeFailure i v (nodeNotObject i)
| NodeInvalidId :
    isObjectValue v -> ~ idString nonBlankId (getProp v "id") ->
    nodeFailure i v (nodeInvalidId i)
| NodeInvalidName :
    isObjectValue v -> idString nonBlankId (getProp v "id") ->
    typeof_string (getProp v "name") = false ->
    nodeFailure i v (nodeInvalidName i).

Inductive edgeFailure (i : nat) (v : JsValue) : ValidationError -> Prop :=
| EdgeNotObject :
    ~ isObjectValue v -> edgeFailure i v (edgeNotObject i)
| EdgeInvalidSource :
    isObjectValue v -> ~ idString nonBlankId (getProp v "sourceId") ->
    edgeFailure i v (edgeInvalidSource i)
| EdgeInvalidTarget :
    isObjectValue v -> idString nonBlankId (getProp v "sourceId") ->
    ~ idString nonBlankId (getProp v "targetId") ->
    edgeFailure i v (edgeInvalidTarget i).

(** The failure of a document, by the first check that it does not pass. *)
Inductive firstFailure (data : JsValue) : ValidationError -> Prop :=
| FailNotObject :
    ~ isObjectValue data ->
    firstFailure data {| message := "Data must be an object"; field := None |}
| FailNodes :
    isObjectValue data -> isArray (getProp data "nodes") = false ->
    firstFailure data
      (nodesError ("Missing or invalid " +:+ quoted "nodes" +:+ " array"))
| FailEdges ns :
    isObjectValue data -> getProp data "nodes" = JsArray ns ->
    isArray (getProp data "edges") = false ->
    firstFailure data
      (edgesError ("Missing or invalid " +:+ quoted "edges" +:+ " array"))
| FailNode ns es i v e :
    isObjectValue data -> getProp data "nodes" = JsArray ns ->
    getProp data "edges" = JsArray es ->
    ns !! i = Some v -> Forall (validNode nonBlankId) (take i ns) ->
    nodeFailure i v e ->
    firstFailure data e
| FailDuplicate ns es before v after :
    isObjectValue data -> getProp data "nodes" = JsArray ns ->
    getProp data "edges" = JsArray es ->
    Forall (validNode nonBlankId) ns ->
    ns = before ++ v :: after ->
    NoDup (map nodeIdOf before) -> nodeIdOf v ∈ map nodeIdOf before ->
    firstFailure data (duplicateNodeId (nodeIdOf v))
| FailEdge ns es i v e :
    isObjectValue data -> getProp data "nodes" = JsArray ns ->
    getProp data "edges" = JsArray es ->
    Forall (validNode nonBlankId) ns -> NoDup (map nodeIdOf ns) ->
    es !! i = Some v -> Forall (validEdge nonBlankId) (take i es) ->
    edgeFailure i v e ->
    firstFailure data e.

(** A loop over the elements stops at the first one that fails. *)
Fixpoint loop (check : nat -> JsValue -> option ValidationError)
    (i : nat) (l : list JsValue) : option ValidationError :=
  match l with
  | [] => None
  | v :: rest =>
      match check i v with
      | Some e => Some e
      | None => loop check (S i) rest
      end
  end.

(** A node whose identifier is a single space. *)
Definition doc_blank_id : JsValue := obj_graph [obj_node " " "A"] [].

(** A repeated identifier, on a node whose name is not a string. *)
Definition doc_name_and_duplicate : JsValue :=
  obj_graph
    [obj_node "x" "X"; JsObject [("id", JsString "x"); ("name", JsNumber 5)]]
    [].

(** No graph, or a graph without nodes. *)
Definition emptyGraph (graphData : option GraphData.t) : Prop :=
  match graphData with
  | None => True
  | Some g => GraphData.nodes g = []
  end.

(** The empty, stable snapshot. *)
Definition emptyStable : ForceGraphResult :=
  {| nodes := []; links := []; isStable := true |}.

(** At most one frame callback waits, and [rafIdRef] is its handle. *)
Definition framesCoalesced (st : HookState) : Prop :=
  frameQueue st = (if Nat.eqb (rafIdRef st) 0 then [] else [rafIdRef st])
  /\ (rafIdRef st <= lastFrameHandle st)%nat
  /\ renderRequested st = false.

(** The state that the [tick] listener sees in a timer step. *)
Definition ticked
    (integrate : Simulation -> list D3Link.t -> list D3Node.t -> list D3Node.t)
    (decay : Q -> Q) (sim : Simulation) (st : HookState) : HookState :=
  set_nodesRef (integrate (cool decay sim) (linksRef st) (nodesRef st))
    (set_simulationRef (Some (cool decay sim)) st).

(** An engine to run the hook on examples: each tick moves every node one
    unit to the right and halves [alpha]. *)
Definition exampleIntegrate (sim : Simulation) (links : list D3Link.t)
    (ns : list D3Node.t) : list D3Node.t :=
  map (fun d => D3Node.mk (D3Node.node d) (D3Node.index d)
                  (option_map (Qplus 1) (D3Node.x d))
                  (D3Node.y d) (D3Node.vx d) (D3Node.vy d)
                  (D3Node.fx d) (D3Node.fy d)) ns.
Definition exampleDecay (a : Q) : Q := (a / 2)%Q.
Definition exampleAlphaMin : Q := 1 # 1000.

Definition exampleOptions : UseForceGraphOptions :=
  mkOptions 800 600 false defaultForceParams.
Definition exampleRadialOptions : UseForceGraphOptions :=
  mkOptions 800 600 true defaultForceParams.

(** New force parameters, and the hook after mounting and three ticks. *)
Definition exampleParams : ForceParams := mkParams 200 (-300) 50.


(** The body of the loop that computes [maxLevel]. *)
Definition raiseLevel (maxLevel : Q) (node : Node.t) : Q :=
  match Node.level node with
  | Some l => if Qgtb (levelNumber l) maxLevel then levelNumber l else maxLevel
  | None => maxLevel
  end.

(** A hub at level 0, a node at level 2 and a node without level. *)
Definition graph_levels : GraphData.t :=
  GraphData.mk
    [Node.mk "hub" "Hub" None None (Some (LevelNumber 0)) None [];
     Node.mk "leaf" "Leaf" None None (Some (LevelNumber 2)) None [];
     Node.mk "free" "Free" None None None None []]
    [].



(** The language of a pattern: [star L] is the concatenations of strings
    of [L]. *)
Inductive star (L : string -> Prop) : string -> Prop :=
| star_nil : star L EmptyString
| star_app s1 s2 : L s1 -> star L s2 -> star L (s1 +:+ s2).

Fixpoint lang (r : regex) (s : string) : Prop :=
  match r with
  | RNone => False
  | REps => s = EmptyString
  | RClass p => exists c, s = String c EmptyString /\ p c = true
  | RCat r1 r2 => exists s1 s2, s = s1 +:+ s2 /\ lang r1 s1 /\ lang r2 s2
  | RAlt r1 r2 => lang r1 s \/ lang r2 s
  | RStar r1 => star (lang r1) s
  end.

(** Every character of the string is in the class. *)
Fixpoint allChars (p : ascii -> bool) (s : string) : bool :=
  match s with
  | EmptyString => true
  | String c rest => p c && allChars p rest
  end.

(** The non-empty category labels that occur on the nodes. *)
Definition categoryOf (ns : list Node.t) (c : string) : Prop :=
  c <> EmptyString
  /\ exists n cs, n ∈ ns /\ Node.categories n = Some cs /\ c ∈ cs.

(** The body of the inner loop of [extractCategories]. *)
Definition addCategory (acc : list string) (category : string) : list string :=
  if nonEmpty category then set_add acc category else acc.

(** The colour of a node that has no valid explicit colour. *)
Definition fallbackColor (node : Node.t) (m : gmap string string) : string :=
  match Node.categories node with
  | Some (firstCategory :: _) => default DEFAULT_NODE_COLOR (m !! firstCategory)
  | _ => DEFAULT_NODE_COLOR
  end.

(** A node whose first category is the empty string. *)
Definition node_blank_category : Node.t :=
  Node.mk "a" "A" (Some [EmptyString]) None None None [].

(** A node with an explicit colour and two nodes with categories. *)
Definition graph_colors : list Node.t :=
  [Node.mk "n1" "One" (Some ["web"; "api"]) (Some "#A0b1C2") None None [];
   Node.mk "n2" "Two" (Some ["db"]) (Some "red") None None [];
   Node.mk "n3" "Three" (Some ["api"]) None None None []].

(** ** Vocabulary of the further properties *)

(** How often a label occurs in the category list of a node, and over all
    nodes; the nodes without categories. *)
Definition occurrences (c : string) (node : Node.t) : nat :=
  match Node.categories node with
  | Some cs => length (List.filter (fun x => bool_decide (x = c)) cs)
  | None => 0%nat
  end.

Definition totalOccurrences (c : string) (ns : list Node.t) : nat :=
  sum_list (map (occurrences c) ns).

Definition hasNoCategories (node : Node.t) : bool :=
  match Node.categories node with
  | Some (_ :: _) => false
  | _ => true
  end.

Definition uncategorized (ns : list Node.t) : nat :=
  length (List.filter hasNoCategories ns).

(** An edge joins the two identifiers, in either direction. *)
Definition adjacent (g : GraphData.t) (a b : string) : Prop :=
  exists e, e ∈ GraphData.edges g
            /\ ((Edge.sourceId e = a /\ Edge.targetId e = b)
                \/ (Edge.sourceId e = b /\ Edge.targetId e = a)).

(** [counts.get(c) ?? 0], and the maps without zero entries. *)
Definition countOf (m : gmap string nat) (c : string) : nat := default 0%nat (m !! c).

Definition positiveCounts (m : gmap string nat) : Prop :=
  forall c k, m !! c = Some k -> (1 <= k)%nat.

(** The category lists of the nodes repeat no label, and none is the label
    that stands for the nodes without categories. *)
Definition plainCategories (ns : list Node.t) : Prop :=
  forall n cs, n ∈ ns -> Node.categories n = Some cs ->
               NoDup cs /\ UNCATEGORIZED ∉ cs.

(** The nodes that a click on a legend entry selects. *)
Definition nodesOfCategory (category : string) (ns : list Node.t) : list Node.t :=
  List.filter (fun n => nodeHasCategory n category) ns.

Definition graph_categories : list Node.t :=
  [Node.mk "a" "A" (Some ["x"; "y"]) None None None [];
   Node.mk "b" "B" None None None None [];
   Node.mk "c" "C" (Some ["x"]) None None None [];
   Node.mk "d" "D" (Some []) None None None []].

(** A simulation exists and its timer runs; the stability flag says so. *)
Definition simulationRunning (st : HookState) : bool :=
  match simulationRef st with
  | Some sim => running sim
  | None => false
  end.

Definition stableMatchesEngine (st : HookState) : Prop :=
  isStableState st = negb (simulationRunning st).

(** The value that the component last received carries the current
    stability flag, or a render that will deliver it is requested. *)
Definition stableShown (st : HookState) : Prop :=
  renderRequested st = true
  \/ option_map isStable (head (rendered st)) = Some (isStableState st).

(** A selection whose type is null exactly when it holds no identifier. *)
Definition consistentSelection (s : SelectionState.t) : Prop :=
  SelectionState.type s = None <-> SelectionState.ids s = [].

(** The selection that a sequence of actions leaves. *)
Definition dispatchAll (actions : list SelectionAction) (s : SelectionState.t)
  : SelectionState.t :=
  fold_left selectionReducer actions s.

(** A selection of the nodes [a] and [b]. *)
Definition selection_ab : SelectionState.t :=
  {| SelectionState.type := Some SelectionType.node;
     SelectionState.ids := ["a"; "b"] |}.

(** What the user and the loader can do to the graph state.  A load is two
    events, the call and the settling of its request, and anything can come
    between the two. *)
Inductive UiEvent : Type :=
| UiOpenFile
| UiOpenFileSettled (outcome : IpcOutcome)
| UiOpenFilePath
| UiOpenFilePathSettled (outcome : IpcOutcome)
| UiClearGraph
| UiSetRadialLayout (enabled : bool)
| UiSetForceParams (params : PartialForceParams.t)
| UiToggleCategory (category : string)
| UiToggleAll.

Definition uiStep (JSON_parse : string -> option JsValue)
    (state : GraphState.t) (ev : UiEvent) : GraphState.t :=
  match ev with
  | UiOpenFile => called (openFile JSON_parse) state
  | UiOpenFileSettled outcome => settled (openFile JSON_parse) outcome state
  | UiOpenFilePath => called (openFilePath JSON_parse) state
  | UiOpenFilePathSettled outcome =>
      settled (openFilePath JSON_parse) outcome state
  | UiClearGraph => clearGraph state
  | UiSetRadialLayout enabled =>
      graphReducer state (graphActions.setRadialLayout enabled)
  | UiSetForceParams params =>
      graphReducer state (graphActions.setForceParams params)
  | UiToggleCategory category => handleVisibilityToggle category state
  | UiToggleAll => handleToggleAll state
  end.

(** The graph of the state is a validated document, and the index, the
    statistics and the path of the state belong to it. *)
Definition coherentGraphState (JSON_parse : string -> option JsValue)
    (state : GraphState.t) : Prop :=
  match GraphState.graphData state with
  | None =>
      GraphState.graphIndex state = None
      /\ GraphState.stats state = None
      /\ GraphState.filePath state = None
  | Some g =>
      (exists content data,
         JSON_parse content = Some data /\ validateGraphData data = Success g)
      /\ GraphState.graphIndex state = Some (buildGraphIndex g)
      /\ GraphState.stats state = Some (calculateStats g)
      /\ is_Some (GraphState.filePath state)
  end.

(** A request that gives no graph, with the message that the user is shown:
    the request threw, it answered [null] (for which the two loaders have
    their own message, [onNull]) or with an error, or the content of the
    file is not JSON or not a graph document. *)
Inductive loadFails (JSON_parse : string -> option JsValue) (onNull : string)
  : IpcOutcome -> string -> Prop :=
| fails_threw_error message :
    loadFails JSON_parse onNull (IpcThrew (Some message)) message
| fails_threw_other :
    loadFails JSON_parse onNull (IpcThrew None) "Unknown error"
| fails_null :
    loadFails JSON_parse onNull (IpcReturned None) onNull
| fails_error error :
    loadFails JSON_parse onNull (IpcReturned (Some (FileError error))) error
| fails_not_json content filePath :
    JSON_parse content = None ->
    loadFails JSON_parse onNull
      (IpcReturned (Some (FileContent content filePath))) "Invalid JSON file"
| fails_not_graph content filePath data error :
    JSON_parse content = Some data ->
    validateGraphData data = Failure error ->
    loadFails JSON_parse onNull
      (IpcReturned (Some (FileContent content filePath))) (message error).

(** A request that gives the graph [g] of the file at [filePath]. *)
Definition loadGives (JSON_parse : string -> option JsValue)
    (outcome : IpcOutcome) (g : GraphData.t) (filePath : string) : Prop :=
  exists content data,
    outcome = IpcReturned (Some (FileContent content filePath))
    /\ JSON_parse content = Some data
    /\ validateGraphData data = Success g.

(** The message for a [null] answer, and the outcome, of the settling of a
    load. *)
Definition settlingOf (ev : UiEvent) : option (string * IpcOutcome) :=
  match ev with
  | UiOpenFileSettled outcome => Some (EmptyString, outcome)
  | UiOpenFilePathSettled outcome => Some ("Failed to open file", outcome)
  | _ => None
  end.

(** The events that are neither [clearGraph] nor the settling of a load that
    gives a graph. *)
Definition keepsGraph (JSON_parse : string -> option JsValue) (ev : UiEvent)
  : Prop :=
  ev <> UiClearGraph
  /\ forall onNull outcome,
       settlingOf ev = Some (onNull, outcome) ->
       exists message, loadFails JSON_parse onNull outcome message.

(** A [JSON.parse] for the examples: the text [ab] is the document
    [doc_ab], and no other text parses. *)
Definition parseExample (content : string) : option JsValue :=
  if bool_decide (content = "ab") then Some doc_ab else None.

(** The index that the property panel is given: none, or the one of the
    graph. *)
Definition indexOfGraph (g : GraphData.t) (index : option GraphIndex) : Prop :=
  index = None \/ index = Some (buildGraphIndex g).

(** A click without modifier keys. *)
Definition plainClick : MouseEvent :=
  {| metaKey := false; ctrlKey := false; shiftKey := false |}.

(** A graph state that holds the graph. *)
Definition stateOf (g : GraphData.t) : GraphState.t :=
  graphReducer GraphContext.initialState (graphActions.loadSuccess g "g.json").

(** A node has a label that is not the empty string. *)
Definition hasNamedCategory (node : Node.t) : Prop :=
  exists cs c, Node.categories node = Some cs /\ c ∈ cs /\ c <> EmptyString.

(** The calls made on the store of recent files. *)
Inductive StoreCall : Type :=
| AddRecentFile (filePath : string)
| ClearRecentFiles.

Definition storeCall (recentFiles : list string) (call : StoreCall) : list string :=
  match call with
  | AddRecentFile filePath => addRecentFile filePath recentFiles
  | ClearRecentFiles => clearRecentFiles recentFiles
  end.

(** The stored list after the calls, from the default (empty) list. *)
Definition storedAfter (calls : list StoreCall) : list string :=
  fold_left storeCall calls [].

(** The entity that stands for a character, or the character itself. *)
Definition escapeChar (c : ascii) : string :=
  if bool_decide (c = "&"%char) then "&amp;"
  else if bool_decide (c = "<"%char) then "&lt;"
  else if bool_decide (c = ">"%char) then "&gt;"
  else if bool_decide (c = quoteChar) then "&quot;"
  else if bool_decide (c = "'"%char) then "&apos;"
  else String c EmptyString.

(** Escaping in one pass, character by character. *)
Fixpoint escapeEach (s : string) : string :=
  match s with
  | EmptyString => EmptyString
  | String c rest => escapeChar c +:+ escapeEach rest
  end.

(** The character occurs in the string. *)
Fixpoint occurs (c : ascii) (s : string) : bool :=
  match s with
  | EmptyString => false
  | String x rest => bool_decide (x = c) || occurs c rest
  end.

(** The characters that delimit markup and attribute values. *)
Definition markupChars : list ascii := ["<"; ">"; quoteChar; "'"]%char.

(** Two nodes with positions, 300 apart horizontally and 100 vertically. *)
Definition placedNodes : list D3Node.t :=
  [D3Node.mk (plainNode "a" "A") (Some 0%nat) (Some 100%Q) (Some 50%Q)
             (Some 0%Q) (Some 0%Q) None None;
   D3Node.mk (plainNode "b" "B") (Some 1%nat) (Some 400%Q) (Some 150%Q)
             (Some 0%Q) (Some 0%Q) None None].

(** A case mapping for examples: the letters [A] to [Z]. *)
Definition lowerChar (c : ascii) : ascii :=
  let n := nat_of_ascii c in
  if ((65 <=? n) && (n <=? 90))%nat then ascii_of_nat (n + 32) else c.

Fixpoint lowerAscii (s : string) : string :=
  match s with
  | EmptyString => EmptyString
  | String c rest => String (lowerChar c) (lowerAscii rest)
  end.

(** The query is, up to case, the identifier, the name or a category of the
    node. *)
Definition namesNode (toLowerCase : string -> string) (query : string)
    (node : Node.t) : Prop :=
  toLowerCase query = toLowerCase (Node.id node)
  \/ toLowerCase query = toLowerCase (Node.name node)
  \/ exists cs cat, Node.categories node = Some cs /\ cat ∈ cs
                    /\ toLowerCase query = toLowerCase cat.

(** * Properties *)

(** ** Initial positions *)








(** Projections of the hook state see through the setters. *)
Ltac hook_simpl :=
  cbn [simulationRef nodesRef linksRef rafIdRef isRadialRef isStableState
       renderRequested rendered frameQueue lastFrameHandle
       set_simulationRef set_nodesRef set_linksRef set_rafIdRef
       set_isRadialRef set_isStableState set_renderRequested set_rendered
       set_frames forceRender cancelAnimationFrame fst snd].

Ltac hook_cases :=
  hook_simpl;
  repeat (match goal with
          | |- context [if ?b then _ else _] => destruct b eqn:?
          | |- context [match ?o with Some _ => _ | None => _ end] =>
              destruct o eqn:?
          end; hook_simpl).





(** *** The integer operators, on unsigned words *)

Lemma word_ToUint32 (a : Z) : JsInt.ToUint32 a = word a.
Proof. reflexivity. Qed.





























(** ** Edge identifiers *)

Lemma startsWith_spec (s prefix : string) :
  startsWith s prefix = true <-> exists rest, s = prefix +:+ rest.
Proof.
  revert s. induction prefix as [|a prefix IH]; intros s; cbn.
  - split; [intros _; by exists s | done].
  - destruct s as [|b s].
    + split; [done | intros [rest Hr]; discriminate].
    + rewrite andb_true_iff, bool_decide_eq_true, IH. split.
      * intros [-> [rest ->]]. by exists rest.
      * intros [rest Hr]. injection Hr as -> ->. eauto.
Qed.

Lemma search_Some (s needle : string) (i : nat) :
  search s needle = Some i ->
  exists before after,
    s = before +:+ needle +:+ after /\ String.length before = i.
Proof.
  revert i. induction s as [|c s IH]; intros i; cbn.
  - destruct (startsWith EmptyString needle) eqn:Hs; [|done].
    intros [= <-]. apply startsWith_spec in Hs as [rest Hr].
    by exists EmptyString, rest.
  - destruct (startsWith (String c s) needle) eqn:Hs.
    + intros [= <-]. apply startsWith_spec in Hs as [rest Hr].
      by exists EmptyString, rest.
    + destruct (search s needle) as [j|] eqn:Hj; [|done].
      intros [= <-]. destruct (IH j eq_refl) as (before & after & -> & <-).
      by exists (String c before), after.
Qed.

Lemma search_None (s needle : string) :
  search s needle = None -> ~ contains s needle.
Proof.
  induction s as [|c s IH]; cbn.
  - destruct (startsWith EmptyString needle) eqn:Hs; [done|].
    intros _ (before & after & H).
    destruct before; [|discriminate]. cbn in H.
    assert (startsWith EmptyString needle = true) by (apply startsWith_spec; eauto).
    congruence.
  - destruct (startsWith (String c s) needle) eqn:Hs; [done|].
    destruct (search s needle) eqn:Hj; [done|].
    intros _ (before & after & H). destruct before as [|b before].
    + assert (startsWith (String c s) needle = true)
        by (apply startsWith_spec; eauto).
      congruence.
    + injection H as -> ->. apply IH; [done|]. by exists before, after.
Qed.

Lemma search_is_None (s needle : string) :
  search s needle = None <-> ~ contains s needle.
Proof.
  split; [apply search_None|].
  intros Hn. destruct (search s needle) as [i|] eqn:Hs; [|done].
  destruct (search_Some _ _ _ Hs) as (before & after & -> & _).
  exfalso. apply Hn. by exists before, after.
Qed.

Lemma indexOf_minus_one (s needle : string) :
  indexOf s needle = -1 <-> ~ contains s needle.
Proof.
  rewrite <- search_is_None. unfold indexOf.
  destruct (search s needle); split; intros; try done; lia.
Qed.

Lemma contains_tail (c : ascii) (s needle : string) :
  contains s needle -> contains (String c s) needle.
Proof. intros (b & a & ->). by exists (String c b), a. Qed.

(** In a key built from a source without the delimiter, the first occurrence
    of the delimiter is the one that [createEdgeId] wrote. *)
Lemma search_createEdgeId (sourceId targetId : string) :
  ~ contains sourceId EDGE_ID_DELIMITER ->
  search (createEdgeId sourceId targetId) EDGE_ID_DELIMITER
  = Some (String.length sourceId).
Proof.
  unfold createEdgeId. induction sourceId as [|c s IH]; intros Hn.
  - reflexivity.
  - assert (Hs : search (s +:+ EDGE_ID_DELIMITER +:+ targetId) EDGE_ID_DELIMITER
                 = Some (String.length s)).
    { apply IH. intros H. by apply Hn, contains_tail. }
    change (String c s +:+ EDGE_ID_DELIMITER +:+ targetId)
      with (String c (s +:+ EDGE_ID_DELIMITER +:+ targetId)).
    cbn [search]. rewrite Hs.
    destruct (startsWith _ EDGE_ID_DELIMITER) eqn:Hst; [|reflexivity].
    exfalso. apply startsWith_spec in Hst as [rest Hr].
    destruct s as [|c' s']; cbn in Hr; [discriminate|].
    injection Hr as -> -> _. apply Hn. by exists EmptyString, s'.
Qed.

Lemma string_take_app (a b : string) :
  string_take (String.length a) (a +:+ b) = a.
Proof. induction a as [|c a IH]; simpl; [by destruct b | by f_equal]. Qed.

Lemma string_drop_app (a b : string) :
  string_drop (String.length a) (a +:+ b) = b.
Proof. induction a as [|c a IH]; simpl; done. Qed.

Lemma string_take_all (s : string) : string_take (String.length s) s = s.
Proof. induction s as [|c s IH]; simpl; [done | by f_equal]. Qed.

Lemma length_app (a b : string) :
  String.length (a +:+ b) = (String.length a + String.length b)%nat.
Proof. induction a as [|c a IH]; simpl; [done | by f_equal]. Qed.

Lemma append_cons (x : ascii) (a b : string) :
  String x a +:+ b = String x (a +:+ b).
Proof. reflexivity. Qed.

Lemma append_assoc (a b c : string) : a +:+ b +:+ c = (a +:+ b) +:+ c.
Proof.
  induction a as [|x a IH]; [reflexivity|].
  rewrite !append_cons. by f_equal.
Qed.

(** [slice] with arguments inside the string. *)
Lemma slice_prefix (s : string) (n : nat) :
  (n <= String.length s)%nat ->
  slice s 0 (Some (Z.of_nat n)) = string_take n s.
Proof.
  intros Hn. unfold slice, jsLength. cbv zeta. cbn [Z.ltb Z.compare].
  destruct (Z.ltb_spec (Z.of_nat n) 0) as [?|_]; [lia|].
  rewrite !Z.min_l by lia.
  rewrite Z.sub_0_r, Z.max_l by lia. by rewrite Nat2Z.id.
Qed.

Lemma slice_suffix (s : string) (n : nat) :
  (n <= String.length s)%nat ->
  slice s (Z.of_nat n) None = string_drop n s.
Proof.
  intros Hn. unfold slice, jsLength. cbv zeta.
  destruct (Z.ltb_spec (Z.of_nat n) 0) as [?|_]; [lia|].
  rewrite Z.min_l by lia. rewrite Z.max_l by lia. rewrite Nat2Z.id.
  assert (Hl : forall k t, (k <= String.length t)%nat ->
             String.length (string_drop k t) = (String.length t - k)%nat).
  { induction k as [|k IH]; intros [|c t] Hk; simpl in *; try lia.
    apply IH. lia. }
  replace (Z.to_nat (Z.of_nat (String.length s) - Z.of_nat n))
    with (String.length (string_drop n s)) by (rewrite Hl; lia).
  apply string_take_all.
Qed.

(** C10. Edge-key round trip.  When [sourceId] does not contain the
    delimiter, parsing the key made from [sourceId] and [targetId] gives
    back exactly that pair; and [parseEdgeId] returns null exactly on the
    strings in which the delimiter does not occur. *)
Theorem parseEdgeId_createEdgeId :
  (forall sourceId targetId,
     ~ contains sourceId EDGE_ID_DELIMITER ->
     parseEdgeId (createEdgeId sourceId targetId) = Some (sourceId, targetId))
  /\ (forall edgeId,
        parseEdgeId edgeId = None <-> ~ contains edgeId EDGE_ID_DELIMITER).
Proof.
  split.
  - intros s t Hn. unfold parseEdgeId, indexOf.
    rewrite (search_createEdgeId s t Hn).
    destruct (Z.eqb_spec (Z.of_nat (String.length s)) (-1)) as [E|_]; [lia|].
    f_equal. f_equal.
    + rewrite slice_prefix by (unfold createEdgeId; rewrite length_app; lia).
      apply string_take_app.
    + unfold jsLength. rewrite <- Nat2Z.inj_add.
      rewrite slice_suffix
        by (unfold createEdgeId; rewrite !length_app; lia).
      unfold createEdgeId. rewrite append_assoc.
      rewrite <- length_app. apply string_drop_app.
  - intros edgeId. rewrite <- indexOf_minus_one. unfold parseEdgeId.
    destruct (Z.eqb_spec (indexOf edgeId EDGE_ID_DELIMITER) (-1)); split; done.
Qed.

Lemma parseEdgeId_createEdgeId_witness :
  parseEdgeId (createEdgeId "a-" ">b->c") = Some ("a-", ">b->c")
  /\ parseEdgeId "abc" = None.
Proof.
  split.
  - apply (proj1 parseEdgeId_createEdgeId). 
    apply search_is_None. reflexivity.
  - reflexivity.
Defined.

(** ** What a successful validation guarantees *)

Lemma validateGraphData_Success_inv (data : JsValue) (g : GraphData.t) :
  validateGraphData data = Success g ->
  exists ns es,
    getProp data "nodes" = JsArray ns
    /\ getProp data "edges" = JsArray es
    /\ checkNodes 0 ns = None
    /\ checkDuplicates ∅ ns = None
    /\ checkEdges 0 es = None
    /\ g = {| GraphData.nodes := map asNode ns; GraphData.edges := map asEdge es |}.
Proof.
  unfold validateGraphData.
  destruct (negb (truthy data) || negb (typeof_object data)); [done|].
  destruct (getProp data "nodes") as [| | | | |ns|] eqn:Hn; try done.
  destruct (getProp data "edges") as [| | | | |es|] eqn:He; try done.
  cbn [isArray negb elements].
  destruct (checkNodes 0 ns) eqn:H1; [done|].
  destruct (checkDuplicates ∅ ns) eqn:H2; [done|].
  destruct (checkEdges 0 es) eqn:H3; [done|].
  intros [= <-]. by exists ns, es.
Qed.

Lemma checkDuplicates_None (seen : gset string) (ns : list JsValue) :
  checkDuplicates seen ns = None ->
  NoDup (map nodeIdOf ns) /\ (forall k, k ∈ map nodeIdOf ns -> k ∉ seen).
Proof.
  revert seen. induction ns as [|v ns IH]; intros seen; cbn [checkDuplicates map].
  - intros _. split; [constructor | intros k Hk; inversion Hk].
  - fold (nodeIdOf v). case_bool_decide as Hin; [done|].
    intros H. destruct (IH _ H) as [Hnd Hfresh]. split.
    + constructor; [|done]. intros Hv. apply (Hfresh _ Hv).
      apply elem_of_union_l. by apply elem_of_singleton.
    + intros k Hk. apply elem_of_cons in Hk as [->|Hk]; [done|].
      intros Hs. apply (Hfresh _ Hk). by apply elem_of_union_r.
Qed.

Lemma map_id_asNode (ns : list JsValue) :
  map Node.id (map asNode ns) = map nodeIdOf ns.
Proof. by rewrite map_map. Qed.

Lemma validated_NoDup (data : JsValue) (g : GraphData.t) :
  validateGraphData data = Success g ->
  NoDup (map Node.id (GraphData.nodes g)).
Proof.
  intros (ns & es & _ & _ & _ & Hd & _ & ->)%validateGraphData_Success_inv.
  cbn [GraphData.nodes]. rewrite map_id_asNode.
  by apply checkDuplicates_None in Hd as [? _].
Qed.

(** ** The index *)

Section FoldInsert.
Context {A : Type} (key : A -> string).

Lemma index_by_other (l : list A) (m : gmap string A) (k : string) :
  Forall (fun y => key y <> k) l -> index_by key l m !! k = m !! k.
Proof.
  revert m. induction l as [|y l IH]; intros m Hl; [done|].
  inversion Hl as [|? ? Hy Hl']; subst. cbn. unfold index_by in IH.
  rewrite IH by done. by rewrite lookup_insert_ne.
Qed.

(** A key is bound to the last element that carries it. *)
Lemma index_by_last (l1 l2 : list A) (x : A) (m : gmap string A) :
  Forall (fun y => key y <> key x) l2 ->
  index_by key (l1 ++ x :: l2) m !! key x = Some x.
Proof.
  intros Hl. unfold index_by. rewrite fold_left_app. cbn [fold_left].
  fold (index_by key l2 (<[key x:=x]> (fold_left (fun m x => <[key x:=x]> m) l1 m))).
  rewrite index_by_other by done. apply lookup_insert_eq.
Qed.

Lemma index_by_elem (l : list A) (m : gmap string A) (k : string) (x : A) :
  index_by key l m !! k = Some x -> m !! k = Some x \/ (x ∈ l /\ key x = k).
Proof.
  revert m. induction l as [|y l IH]; intros m; [by left|].
  cbn. intros [H|[H1 H2]]%IH.
  - destruct (decide (key y = k)) as [<-|Hne].
    + rewrite lookup_insert_eq in H. injection H as ->. right. split; [left|done].
    + rewrite lookup_insert_ne in H by done. by left.
  - right. split; [by right | done].
Qed.

Lemma index_by_mono (l : list A) (m : gmap string A) (k : string) :
  is_Some (m !! k) -> is_Some (index_by key l m !! k).
Proof.
  revert m. induction l as [|y l IH]; intros m Hm; [done|].
  cbn. apply IH. rewrite lookup_insert. by case_decide.
Qed.

Lemma index_by_is_Some (l : list A) (m : gmap string A) (x : A) :
  x ∈ l -> is_Some (index_by key l m !! key x).
Proof.
  revert m. induction l as [|y l IH]; intros m Hin; [inversion Hin|].
  apply elem_of_cons in Hin as [->|Hin]; cbn; [|by apply IH].
  apply index_by_mono. by rewrite lookup_insert_eq.
Qed.

Lemma NoDup_key_split (l : list A) (x : A) :
  NoDup (map key l) -> x ∈ l ->
  exists l1 l2, l = l1 ++ x :: l2 /\ Forall (fun y => key y <> key x) l2.
Proof.
  intros Hnd (l1 & l2 & ->)%list_elem_of_split. exists l1, l2. split; [done|].
  rewrite map_app in Hnd. cbn in Hnd.
  apply NoDup_app in Hnd as (_ & _ & Hnd). apply NoDup_cons in Hnd as [Hx _].
  apply Forall_forall. intros y Hy Heq. apply Hx. rewrite <- Heq.
  apply list_elem_of_In. apply in_map. by apply list_elem_of_In.
Qed.
End FoldInsert.

(** C2, as amended.  For a validated graph the index returns, for the id of
    each node, that node; and for the endpoints of an edge it returns the
    last edge of the array that has the same composite key: the edge itself
    whenever no later edge has its key. *)
Theorem index_lookup (data : JsValue) (g : GraphData.t) :
  validateGraphData data = Success g ->
  let index := buildGraphIndex g in
  (forall node, node ∈ GraphData.nodes g ->
     nodeById index !! Node.id node = Some node
     /\ getNodeById g (Node.id node) (Some index) = Some node)
  /\ (forall before edge after,
        GraphData.edges g = before ++ edge :: after ->
        Forall (fun e => edgeKey e <> edgeKey edge) after ->
        getEdgeByIds g (Edge.sourceId edge) (Edge.targetId edge) (Some index)
        = Some edge)
  /\ (forall edge, edge ∈ GraphData.edges g ->
        exists last,
          getEdgeByIds g (Edge.sourceId edge) (Edge.targetId edge) (Some index)
          = Some last
          /\ last ∈ GraphData.edges g /\ edgeKey last = edgeKey edge).
Proof.
  intros Hv index. pose proof (validated_NoDup _ _ Hv) as Hnd.
  split; [|split].
  - intros node Hin.
    destruct (NoDup_key_split Node.id _ _ Hnd Hin) as (l1 & l2 & Hl & Hl2).
    assert (nodeById index !! Node.id node = Some node); [|done].
    unfold index, buildGraphIndex. cbn [nodeById]. rewrite Hl.
    by apply (index_by_last Node.id).
  - intros before edge after Hl Hafter.
    unfold getEdgeByIds, index, buildGraphIndex. cbn [edgeByKey]. rewrite Hl.
    by apply (index_by_last edgeKey).
  - intros edge Hin. unfold getEdgeByIds, index, buildGraphIndex. cbn [edgeByKey].
    fold (edgeKey edge).
    change (fold_left _ (GraphData.edges g) ∅)
      with (index_by edgeKey (GraphData.edges g) ∅).
    destruct (index_by_is_Some edgeKey (GraphData.edges g) ∅ edge Hin)
      as [last Hlast].
    exists last. split; [done|].
    apply index_by_elem in Hlast as [H|[? ?]]; [|done].
    by rewrite lookup_empty in H.
Qed.

Lemma index_lookup_witness :
  let index := buildGraphIndex graph_ab in
  (forall node, node ∈ GraphData.nodes graph_ab ->
     nodeById index !! Node.id node = Some node
     /\ getNodeById graph_ab (Node.id node) (Some index) = Some node)
  /\ (forall before edge after,
        GraphData.edges graph_ab = before ++ edge :: after ->
        Forall (fun e => edgeKey e <> edgeKey edge) after ->
        getEdgeByIds graph_ab (Edge.sourceId edge) (Edge.targetId edge) (Some index)
        = Some edge)
  /\ (forall edge, edge ∈ GraphData.edges graph_ab ->
        exists last,
          getEdgeByIds graph_ab (Edge.sourceId edge) (Edge.targetId edge) (Some index)
          = Some last
          /\ last ∈ GraphData.edges graph_ab /\ edgeKey last = edgeKey edge).
Proof. apply (index_lookup doc_ab graph_ab). vm_compute. reflexivity. Defined.

(** C2 as stated fails: a validated graph with a resolvable edge whose
    composite key returns another edge object. *)
Lemma index_lookup_parallel_edges :
  validateGraphData doc_parallel = Success graph_parallel
  /\ weightedEdge ∈ GraphData.edges graph_parallel
  /\ resolvable graph_parallel weightedEdge = true
  /\ getEdgeByIds graph_parallel (Edge.sourceId weightedEdge)
       (Edge.targetId weightedEdge) (Some (buildGraphIndex graph_parallel))
     = Some (plainEdge "a" "b")
  /\ plainEdge "a" "b" <> weightedEdge.
Proof.
  split; [vm_compute; reflexivity|].
  split; [left|].
  split; [vm_compute; reflexivity|].
  split; [vm_compute; reflexivity | discriminate].
Qed.

(** ** Unresolved edges *)

Lemma has_nodeIdSet (nodes : list Node.t) (k : string) :
  has (nodeIdSet nodes) k = true <-> exists n, n ∈ nodes /\ Node.id n = k.
Proof.
  unfold has, nodeIdSet. rewrite bool_decide_eq_true, elem_of_list_to_set.
  rewrite list_elem_of_In, in_map_iff. split.
  - intros (n & Hn & Hin). exists n. by rewrite list_elem_of_In.
  - intros (n & Hin & Hn). exists n. by rewrite <- list_elem_of_In.
Qed.

Lemma isNodeId_spec (g : GraphData.t) (k : string) :
  isNodeId g k = true <-> exists n, n ∈ GraphData.nodes g /\ Node.id n = k.
Proof.
  unfold isNodeId. rewrite existsb_exists. split.
  - intros (n & Hn & Hk%bool_decide_eq_true). exists n.
    by rewrite list_elem_of_In.
  - intros (n & Hn & Hk). exists n. rewrite <- list_elem_of_In.
    split; [done | by apply bool_decide_eq_true].
Qed.

Lemma has_isNodeId (g : GraphData.t) (k : string) :
  has (nodeIdSet (GraphData.nodes g)) k = isNodeId g k.
Proof. apply eq_true_iff_eq. by rewrite has_nodeIdSet, isNodeId_spec. Qed.

Lemma findInvalidEdges_filter (g : GraphData.t) :
  findInvalidEdges g
  = List.filter (fun e => negb (resolvable g e)) (GraphData.edges g).
Proof.
  unfold findInvalidEdges, resolvable. apply filter_ext. intros e.
  by rewrite !has_isNodeId, negb_andb.
Qed.

Lemma initD3Links_filter (g : GraphData.t) :
  initD3Links g = map linkOf (List.filter (resolvable g) (GraphData.edges g)).
Proof.
  unfold initD3Links, resolvable, linkOf. f_equal. apply filter_ext. intros e.
  by rewrite !has_isNodeId.
Qed.

Lemma filter_partition {A : Type} (p : A -> bool) (l : list A) :
  (length (List.filter (fun x => negb (p x)) l) + length (List.filter p l)
   = length l)%nat.
Proof. induction l as [|x l IH]; [done|]. cbn. destruct (p x); cbn; lia. Qed.

Lemma initD3Links_elem (g : GraphData.t) (link : D3Link.t) :
  link ∈ initD3Links g ->
  has (nodeIdSet (GraphData.nodes g)) (D3Link.source link) = true
  /\ has (nodeIdSet (GraphData.nodes g)) (D3Link.target link) = true.
Proof.
  unfold initD3Links. rewrite list_elem_of_In, in_map_iff.
  intros (e & <- & He). apply filter_In in He as [_ He].
  by apply andb_true_iff in He.
Qed.

Lemma effectInit_linksRef (g : GraphData.t) (o : UseForceGraphOptions)
    (st : HookState) :
  linksRef (effectInit (Some g) o st)
  = if Nat.eqb (length (GraphData.nodes g)) 0 then [] else initD3Links g.
Proof.
  unfold effectInit, setIsStable.
  destruct (Nat.eqb (length (GraphData.nodes g)) 0); hook_cases; reflexivity.
Qed.

Lemma checkEdges_snoc (i : nat) (es : list JsValue) (e : JsValue) :
  checkEdges i es = None ->
  checkEdges i (es ++ [e]) = checkEdge (i + length es) e.
Proof.
  revert i. induction es as [|x es IH]; intros i; cbn [checkEdges app length].
  - intros _. rewrite Nat.add_0_r. by destruct (checkEdge i e).
  - destruct (checkEdge i x); [done|]. intros H. rewrite IH by done.
    f_equal. lia.
Qed.

Lemma checkEdge_obj_edge (i : nat) (s t : string) :
  trim s <> EmptyString -> trim t <> EmptyString ->
  checkEdge i (obj_edge s t) = None.
Proof.
  intros Hs Ht. unfold checkEdge.
  change (getProp (obj_edge s t) "sourceId") with (JsString s).
  change (getProp (obj_edge s t) "targetId") with (JsString t).
  cbn [obj_edge truthy typeof_object negb orb blankOrNotString].
  by rewrite !bool_decide_eq_false_2.
Qed.

(** C3. Referential tolerance and partition.  Validation does not look at
    whether the endpoints of an edge exist: a valid document stays valid
    when any edge with non-blank endpoints is added to it.  In a validated
    graph, an edge whose target (or source) is the id of no node is listed
    in the statistics' [invalidEdges] and has no link in the layout's link
    array, and an edge whose endpoints are both ids of nodes is not listed
    and has its link.  The invalid edges are the edges that do not resolve,
    in the order of the edge array, the links are the links of the edges
    that resolve, in that order, and the two add up to all edges. *)
Theorem referential_tolerance (data : JsValue) (g : GraphData.t) :
  validateGraphData data = Success g ->
  (forall ns es s t,
     data = obj_graph ns es ->
     trim s <> EmptyString -> trim t <> EmptyString ->
     validateGraphData (obj_graph ns (es ++ [obj_edge s t]))
     = Success {| GraphData.nodes := GraphData.nodes g;
                  GraphData.edges := GraphData.edges g ++ [plainEdge s t] |})
  /\ (forall e,
        e ∈ GraphData.edges g ->
        (forall n, n ∈ GraphData.nodes g -> Node.id n <> Edge.targetId e)
        \/ (forall n, n ∈ GraphData.nodes g -> Node.id n <> Edge.sourceId e) ->
        let link := {| D3Link.source := Edge.sourceId e;
                       D3Link.target := Edge.targetId e |} in
        e ∈ invalidEdges (calculateStats g)
        /\ (link ∉ initD3Links g)
        /\ (forall o st, link ∉ linksRef (effectInit (Some g) o st)))
  /\ (forall e source target,
        e ∈ GraphData.edges g ->
        source ∈ GraphData.nodes g -> Node.id source = Edge.sourceId e ->
        target ∈ GraphData.nodes g -> Node.id target = Edge.targetId e ->
        let link := {| D3Link.source := Edge.sourceId e;
                       D3Link.target := Edge.targetId e |} in
        (e ∉ invalidEdges (calculateStats g))
        /\ link ∈ initD3Links g
        /\ (forall o st, link ∈ linksRef (effectInit (Some g) o st)))
  /\ invalidEdges (calculateStats g)
     = List.filter (fun e => negb (resolvable g e)) (GraphData.edges g)
  /\ (forall o st,
        GraphData.nodes g <> [] ->
        linksRef (effectInit (Some g) o st)
        = map linkOf (List.filter (resolvable g) (GraphData.edges g)))
  /\ (length (invalidEdges (calculateStats g))
      + length (List.filter (resolvable g) (GraphData.edges g))
      = edgeCount (calculateStats g))%nat
  /\ length (initD3Links g)
     = length (List.filter (resolvable g) (GraphData.edges g))
  /\ edgeCount (calculateStats g) = length (GraphData.edges g).
Proof.
  intros Hv. split; [|split; [|split; [|split; [|split; [|split; [|split]]]]]].
  - intros ns es s t -> Hs Ht.
    apply validateGraphData_Success_inv in Hv
      as (ns' & es' & [= <-] & [= <-] & H1 & H2 & H3 & ->).
    unfold validateGraphData.
    change (getProp (obj_graph ns (es ++ [obj_edge s t])) "nodes")
      with (JsArray ns).
    change (getProp (obj_graph ns (es ++ [obj_edge s t])) "edges")
      with (JsArray (es ++ [obj_edge s t])).
    cbn [obj_graph truthy typeof_object negb orb isArray elements].
    rewrite H1, H2, checkEdges_snoc, checkEdge_obj_edge by done.
    cbn [GraphData.nodes GraphData.edges]. by rewrite map_app.
  - intros e He Hun link.
    assert (Hr : resolvable g e = false).
    { unfold resolvable. apply andb_false_iff.
      destruct Hun as [Hun|Hun]; [right|left];
        apply not_true_iff_false; rewrite isNodeId_spec;
        intros (n & Hn & Heq); by apply (Hun n). }
    assert (Hl : link ∉ initD3Links g).
    { rewrite initD3Links_filter, list_elem_of_In, in_map_iff.
      intros (e' & Heq & [_ He']%filter_In).
      unfold resolvable in Hr, He'. unfold linkOf, link in Heq.
      injection Heq as Hs Ht. rewrite Hs, Ht in He'. congruence. }
    split; [|split; [done|]].
    + cbn [calculateStats invalidEdges]. rewrite findInvalidEdges_filter.
      apply list_elem_of_In, filter_In. rewrite <- list_elem_of_In.
      by rewrite Hr.
    + intros o st. rewrite effectInit_linksRef.
      destruct (Nat.eqb _ _); [apply not_elem_of_nil | done].
  - intros e source target He Hs Hsid Ht Htid link.
    assert (Hr : resolvable g e = true).
    { unfold resolvable. apply andb_true_iff.
      split; apply isNodeId_spec; [by exists source | by exists target]. }
    assert (Hl : link ∈ initD3Links g).
    { rewrite initD3Links_filter, list_elem_of_In, in_map_iff. exists e.
      split; [done|]. apply filter_In. by rewrite <- list_elem_of_In. }
    split; [|split; [done|]].
    + cbn [calculateStats invalidEdges]. rewrite findInvalidEdges_filter.
      rewrite list_elem_of_In, filter_In, Hr. by intros [_ ?].
    + intros o st. rewrite effectInit_linksRef.
      destruct (GraphData.nodes g) as [|n ns] eqn:E; [inversion Hs | done].
  - cbn [calculateStats invalidEdges]. apply findInvalidEdges_filter.
  - intros o st Hne. rewrite effectInit_linksRef, initD3Links_filter.
    by destruct (GraphData.nodes g).
  - cbn [calculateStats invalidEdges edgeCount]. rewrite findInvalidEdges_filter.
    apply filter_partition.
  - rewrite initD3Links_filter. by rewrite length_map.
  - reflexivity.
Qed.

Lemma referential_tolerance_witness :
  validateGraphData doc_missing = Success graph_missing
  /\ invalidEdges (calculateStats graph_missing) = [plainEdge "a" "missing"]
  /\ initD3Links graph_missing = []
  /\ {| D3Link.source := "a"; D3Link.target := "b" |} ∈ initD3Links graph_ab
  /\ (length (invalidEdges (calculateStats graph_missing))
      + length (List.filter (resolvable graph_missing)
                            (GraphData.edges graph_missing))
      = edgeCount (calculateStats graph_missing))%nat.
Proof.
  pose proof (referential_tolerance doc_missing graph_missing eq_refl)
    as (_ & _ & _ & _ & _ & Hsum & _).
  pose proof (referential_tolerance doc_ab graph_ab eq_refl)
    as (_ & _ & Hkept & _).
  split; [vm_compute; reflexivity|]. split; [vm_compute; reflexivity|].
  split; [vm_compute; reflexivity|]. split; [|exact Hsum].
  refine (proj1 (proj2 (Hkept (plainEdge "a" "b") (plainNode "a" "A")
                          (plainNode "b" "B") _ _ eq_refl _ eq_refl))).
  - left.
  - left.
  - right. left.
Defined.

(** ** The validator's contract *)

Lemma isObjectValue_test (v : JsValue) :
  negb (truthy v) || negb (typeof_object v) = false <-> isObjectValue v.
Proof.
  unfold isObjectValue. rewrite orb_false_iff, !negb_false_iff. tauto.
Qed.

Lemma blankOrNotString_false (v : JsValue) :
  blankOrNotString v = false <-> idString nonBlankId v.
Proof.
  unfold idString, nonBlankId. destruct v; cbn;
    try (split; [done | by intros (s' & ? & _)]).
  rewrite bool_decide_eq_false. split.
  - intros H. by exists s.
  - by intros (s' & [= <-] & H).
Qed.

Lemma checkNode_None (i : nat) (v : JsValue) :
  checkNode i v = None <-> validNode nonBlankId v.
Proof.
  unfold checkNode, validNode.
  rewrite <- isObjectValue_test, <- blankOrNotString_false.
  destruct (negb (truthy v) || negb (typeof_object v));
    [split; [done | by intros [? _]]|].
  destruct (blankOrNotString (getProp v "id"));
    [split; [done | by intros (_ & ? & _)]|].
  destruct (typeof_string (getProp v "name")); cbn; split; try done.
  by intros (_ & _ & ?).
Qed.

Lemma checkNode_Some (i : nat) (v : JsValue) (e : ValidationError) :
  checkNode i v = Some e -> nodeFailure i v e.
Proof.
  unfold checkNode.
  destruct (negb (truthy v) || negb (typeof_object v)) eqn:Ho.
  { intros [= <-]. apply NodeNotObject. rewrite <- isObjectValue_test. congruence. }
  apply isObjectValue_test in Ho.
  destruct (blankOrNotString (getProp v "id")) eqn:Hid.
  { intros [= <-]. apply NodeInvalidId; [done|].
    rewrite <- blankOrNotString_false. congruence. }
  apply blankOrNotString_false in Hid.
  destruct (typeof_string (getProp v "name")) eqn:Hname; [done|].
  intros [= <-]. by apply NodeInvalidName.
Qed.

Lemma checkEdge_None (i : nat) (v : JsValue) :
  checkEdge i v = None <-> validEdge nonBlankId v.
Proof.
  unfold checkEdge, validEdge.
  rewrite <- isObjectValue_test, <- !blankOrNotString_false.
  destruct (negb (truthy v) || negb (typeof_object v));
    [split; [done | by intros [? _]]|].
  destruct (blankOrNotString (getProp v "sourceId"));
    [split; [done | by intros (_ & ? & _)]|].
  destruct (blankOrNotString (getProp v "targetId")); split; try done.
  by intros (_ & _ & ?).
Qed.

Lemma checkEdge_Some (i : nat) (v : JsValue) (e : ValidationError) :
  checkEdge i v = Some e -> edgeFailure i v e.
Proof.
  unfold checkEdge.
  destruct (negb (truthy v) || negb (typeof_object v)) eqn:Ho.
  { intros [= <-]. apply EdgeNotObject. rewrite <- isObjectValue_test. congruence. }
  apply isObjectValue_test in Ho.
  destruct (blankOrNotString (getProp v "sourceId")) eqn:Hs.
  { intros [= <-]. apply EdgeInvalidSource; [done|].
    rewrite <- blankOrNotString_false. congruence. }
  apply blankOrNotString_false in Hs.
  destruct (blankOrNotString (getProp v "targetId")) eqn:Ht; [|done].
  intros [= <-]. apply EdgeInvalidTarget; [done..|].
  rewrite <- blankOrNotString_false. congruence.
Qed.

Section Loop.
Variable check : nat -> JsValue -> option ValidationError.

Lemma loop_None (i : nat) (l : list JsValue) :
  loop check i l = None <-> forall j v, l !! j = Some v -> check (i + j) v = None.
Proof.
  revert i. induction l as [|x l IH]; intros i; cbn [loop].
  - split; [intros _ j v H; inversion H | done].
  - destruct (check i x) eqn:Hx.
    + split; [done|]. intros H. specialize (H 0%nat x eq_refl).
      rewrite Nat.add_0_r in H. congruence.
    + rewrite IH. split.
      * intros H [|j] v Hj; cbn in Hj.
        -- injection Hj as <-. by rewrite Nat.add_0_r.
        -- rewrite <- Nat.add_succ_comm. by apply H.
      * intros H j v Hj. rewrite Nat.add_succ_comm. by apply (H (S j)).
Qed.

Lemma loop_Some (i : nat) (l : list JsValue) (e : ValidationError) :
  loop check i l = Some e ->
  exists j v,
    l !! j = Some v /\ check (i + j) v = Some e
    /\ forall k w, (k < j)%nat -> l !! k = Some w -> check (i + k) w = None.
Proof.
  revert i. induction l as [|x l IH]; intros i; cbn [loop]; [done|].
  destruct (check i x) eqn:Hx.
  - intros [= <-]. exists 0%nat, x. rewrite Nat.add_0_r.
    split; [done|]. split; [done|]. intros; lia.
  - intros (j & v & Hj & Hc & Hbefore)%IH. exists (S j), v.
    rewrite <- Nat.add_succ_comm. split; [done|]. split; [done|].
    intros [|k] w Hk Hw; cbn in Hw.
    + injection Hw as <-. by rewrite Nat.add_0_r.
    + rewrite <- Nat.add_succ_comm. apply Hbefore; [lia | done].
Qed.
Lemma loop_first (i j : nat) (l : list JsValue) (v : JsValue)
    (e : ValidationError) :
  (forall k w, (k < j)%nat -> l !! k = Some w -> check (i + k) w = None) ->
  l !! j = Some v -> check (i + j) v = Some e ->
  loop check i l = Some e.
Proof.
  revert i j. induction l as [|x l IH]; intros i j Hb Hj Hc; [done|].
  destruct j as [|j]; cbn in Hj; cbn [loop].
  - injection Hj as ->. rewrite Nat.add_0_r in Hc. by rewrite Hc.
  - rewrite <- (Nat.add_0_r i) at 1. rewrite (Hb 0%nat x) by (lia || done).
    apply (IH (S i) j); [|done|by rewrite Nat.add_succ_comm].
    intros k w Hk Hw. rewrite Nat.add_succ_comm. apply Hb; [lia | done].
Qed.
End Loop.

Lemma checkNodes_loop (i : nat) (ns : list JsValue) :
  checkNodes i ns = loop checkNode i ns.
Proof. revert i. induction ns as [|x l IH]; intros i; cbn; [done|]. by rewrite IH. Qed.

Lemma checkEdges_loop (i : nat) (es : list JsValue) :
  checkEdges i es = loop checkEdge i es.
Proof. revert i. induction es as [|x l IH]; intros i; cbn; [done|]. by rewrite IH. Qed.

Lemma Forall_take_lookup {A : Type} (P : A -> Prop) (l : list A) (j : nat) :
  (forall k w, (k < j)%nat -> l !! k = Some w -> P w) -> Forall P (take j l).
Proof.
  intros H. apply Forall_lookup. intros k w Hk.
  apply lookup_take_Some in Hk as [Hk Hlt]. by apply (H k).
Qed.

Lemma checkNodes_None (ns : list JsValue) :
  checkNodes 0 ns = None <-> Forall (validNode nonBlankId) ns.
Proof.
  rewrite checkNodes_loop, loop_None, Forall_lookup.
  split; intros H j v Hj.
  - apply (checkNode_None j), (H j v Hj).
  - apply checkNode_None, (H j v Hj).
Qed.

Lemma checkEdges_None (es : list JsValue) :
  checkEdges 0 es = None <-> Forall (validEdge nonBlankId) es.
Proof.
  rewrite checkEdges_loop, loop_None, Forall_lookup.
  split; intros H j v Hj.
  - apply (checkEdge_None j), (H j v Hj).
  - apply checkEdge_None, (H j v Hj).
Qed.

Lemma checkNodes_Some (ns : list JsValue) (e : ValidationError) :
  checkNodes 0 ns = Some e ->
  exists i v, ns !! i = Some v /\ Forall (validNode nonBlankId) (take i ns)
              /\ nodeFailure i v e.
Proof.
  rewrite checkNodes_loop. intros (j & v & Hj & Hc & Hb)%loop_Some.
  exists j, v. split; [done|]. split; [|by apply checkNode_Some].
  apply Forall_take_lookup. intros k w Hk Hw. by apply (checkNode_None k), Hb.
Qed.

Lemma checkEdges_Some (es : list JsValue) (e : ValidationError) :
  checkEdges 0 es = Some e ->
  exists i v, es !! i = Some v /\ Forall (validEdge nonBlankId) (take i es)
              /\ edgeFailure i v e.
Proof.
  rewrite checkEdges_loop. intros (j & v & Hj & Hc & Hb)%loop_Some.
  exists j, v. split; [done|]. split; [|by apply checkEdge_Some].
  apply Forall_take_lookup. intros k w Hk Hw. by apply (checkEdge_None k), Hb.
Qed.

Lemma checkDuplicates_None_iff (seen : gset string) (ns : list JsValue) :
  checkDuplicates seen ns = None <->
  NoDup (map nodeIdOf ns) /\ (forall k, k ∈ map nodeIdOf ns -> k ∉ seen).
Proof.
  split; [apply checkDuplicates_None|].
  revert seen. induction ns as [|v ns IH]; intros seen [Hnd Hfresh]; [done|].
  cbn [checkDuplicates map] in *. fold (nodeIdOf v).
  apply NoDup_cons in Hnd as [Hv Hnd].
  rewrite bool_decide_eq_false_2 by (apply Hfresh; left).
  apply IH. split; [done|]. intros k Hk [->%elem_of_singleton|Hs]%elem_of_union.
  - done.
  - apply (Hfresh k); [by right | done].
Qed.

Lemma checkDuplicates_Some (seen : gset string) (ns : list JsValue)
    (e : ValidationError) :
  checkDuplicates seen ns = Some e ->
  exists before v after,
    ns = before ++ v :: after
    /\ NoDup (map nodeIdOf before)
    /\ (forall k, k ∈ map nodeIdOf before -> k ∉ seen)
    /\ (nodeIdOf v ∈ seen \/ nodeIdOf v ∈ map nodeIdOf before)
    /\ e = duplicateNodeId (nodeIdOf v).
Proof.
  revert seen. induction ns as [|v ns IH]; intros seen; [done|].
  cbn [checkDuplicates]. fold (nodeIdOf v). case_bool_decide as Hin.
  - intros [= <-]. exists [], v, ns. cbn.
    split; [done|]. split; [constructor|].
    split; [intros k Hk; inversion Hk|]. split; [by left | done].
  - intros (before & w & after & -> & Hnd & Hfresh & Hdup & ->)%IH.
    exists (v :: before), w, after. cbn [app map].
    split; [done|]. split; [|split; [|split; [|done]]].
    + apply NoDup_cons. split; [|done]. intros Hv. apply (Hfresh _ Hv).
      apply elem_of_union_l. by apply elem_of_singleton.
    + intros k [->|Hk]%elem_of_cons; [done|].
      intros Hs. apply (Hfresh _ Hk). by apply elem_of_union_r.
    + destruct Hdup as [[->%elem_of_singleton|Hs]%elem_of_union|Hb].
      * right. left.
      * by left.
      * right. by right.
Qed.

Lemma validateGraphData_Success_object (data : JsValue) (g : GraphData.t) :
  validateGraphData data = Success g -> isObjectValue data.
Proof.
  unfold validateGraphData. intros H. apply isObjectValue_test.
  by destruct (negb (truthy data) || negb (typeof_object data)).
Qed.

Lemma append_inj_r (a b s : string) : a +:+ s = b +:+ s -> a = b.
Proof.
  revert b. induction a as [|x a IH]; intros [|y b] H.
  - done.
  - apply (f_equal String.length) in H. rewrite !length_app in H. cbn in H. lia.
  - apply (f_equal String.length) in H. rewrite !length_app in H. cbn in H. lia.
  - rewrite !append_cons in H. injection H as -> H. f_equal. by apply IH.
Qed.

(** The message names the index, or the identifier: different indices (or
    identifiers) give different errors. *)
Lemma error_names_its_subject :
  (forall i j, nodeNotObject i = nodeNotObject j -> i = j)
  /\ (forall i j, nodeInvalidId i = nodeInvalidId j -> i = j)
  /\ (forall i j, nodeInvalidName i = nodeInvalidName j -> i = j)
  /\ (forall a b, duplicateNodeId a = duplicateNodeId b -> a = b)
  /\ (forall i j, edgeNotObject i = edgeNotObject j -> i = j)
  /\ (forall i j, edgeInvalidSource i = edgeInvalidSource j -> i = j)
  /\ (forall i j, edgeInvalidTarget i = edgeInvalidTarget j -> i = j).
Proof.
  assert (Hidx : forall (pre post : string) (i j : nat),
             pre +:+ pretty i +:+ post = pre +:+ pretty j +:+ post -> i = j).
  { intros pre post i j H. apply (inj (String.app pre)) in H.
    apply append_inj_r in H. by apply (inj pretty) in H. }
  repeat split; intros i j H; try (injection H as H; by apply Hidx in H).
  injection H as H. change (i +:+ dquote = j +:+ dquote) in H.
  by apply append_inj_r in H.
Qed.

(** C4, as amended.  [validateGraphData] succeeds exactly on the
    well-formed documents, where an identifier ([id], [sourceId],
    [targetId]) must be a string that is not blank (not empty once white
    space is trimmed); its result then holds the nodes and edges of the
    document in their order.  A failure is the one of the first check, in
    the listed order, that the document does not pass, and its message
    names the index of the first invalid node or edge, or the identifier
    that is repeated.  In particular, when the first invalid node has an
    invalid name, that is the failure reported, whether or not identifiers
    are repeated. *)
Theorem validateGraphData_contract (data : JsValue) :
  ((exists g, validateGraphData data = Success g) <-> wellFormed nonBlankId data)
  /\ (forall g, validateGraphData data = Success g ->
        g = {| GraphData.nodes := map asNode (elements (getProp data "nodes"));
               GraphData.edges := map asEdge (elements (getProp data "edges")) |})
  /\ (forall e, validateGraphData data = Failure e -> firstFailure data e)
  /\ (forall ns es i v,
        isObjectValue data ->
        getProp data "nodes" = JsArray ns -> getProp data "edges" = JsArray es ->
        ns !! i = Some v -> Forall (validNode nonBlankId) (take i ns) ->
        isObjectValue v -> idString nonBlankId (getProp v "id") ->
        typeof_string (getProp v "name") = false ->
        validateGraphData data = Failure (nodeInvalidName i))
  /\ ((forall i j, nodeNotObject i = nodeNotObject j -> i = j)
      /\ (forall i j, nodeInvalidId i = nodeInvalidId j -> i = j)
      /\ (forall i j, nodeInvalidName i = nodeInvalidName j -> i = j)
      /\ (forall a b, duplicateNodeId a = duplicateNodeId b -> a = b)
      /\ (forall i j, edgeNotObject i = edgeNotObject j -> i = j)
      /\ (forall i j, edgeInvalidSource i = edgeInvalidSource j -> i = j)
      /\ (forall i j, edgeInvalidTarget i = edgeInvalidTarget j -> i = j)).
Proof.
  split; [|split; [|split; [|split; [|apply error_names_its_subject]]]].
  - split.
    + intros [g Hg].
      pose proof (validateGraphData_Success_inv _ _ Hg)
        as (ns & es & Hn & He & H1 & H2 & H3 & _).
      split; [by apply (validateGraphData_Success_object data g)|].
      exists ns, es. split; [done|]. split; [done|].
      split; [by apply checkNodes_None|].
      split; [by apply checkDuplicates_None in H2 as [? _]|].
      by apply checkEdges_None.
    + intros (Ho & ns & es & Hn & He & H1 & H2 & H3).
      unfold validateGraphData. apply isObjectValue_test in Ho. rewrite Ho, Hn, He.
      cbn [isArray negb elements].
      apply checkNodes_None in H1. apply checkEdges_None in H3.
      rewrite H1, H3.
      assert (checkDuplicates ∅ ns = None) as ->; [|eauto].
      apply checkDuplicates_None_iff. split; [done|]. intros k _.
      apply not_elem_of_empty.
  - intros g (ns & es & -> & -> & _ & _ & _ & ->)%validateGraphData_Success_inv.
    done.
  - intros e. unfold validateGraphData.
    destruct (negb (truthy data) || negb (typeof_object data)) eqn:Ho.
    { intros [= <-]. apply FailNotObject. rewrite <- isObjectValue_test. congruence. }
    apply isObjectValue_test in Ho.
    destruct (isArray (getProp data "nodes")) eqn:Hn; cbn [negb];
      [|intros [= <-]; by apply FailNodes].
    destruct (getProp data "nodes") as [| | | | |ns|] eqn:Hns; try done.
    destruct (isArray (getProp data "edges")) eqn:He; cbn [negb];
      [|intros [= <-]; by apply (FailEdges _ ns)].
    destruct (getProp data "edges") as [| | | | |es|] eqn:Hes; try done.
    cbn [elements].
    destruct (checkNodes 0 ns) as [e1|] eqn:H1.
    { intros [= <-]. apply checkNodes_Some in H1 as (i & v & Hi & Hb & Hf).
      by apply (FailNode _ ns es i v). }
    apply checkNodes_None in H1.
    destruct (checkDuplicates ∅ ns) as [e2|] eqn:H2.
    { intros [= <-].
      apply checkDuplicates_Some in H2
        as (before & v & after & -> & Hnd & _ & [Hs|Hb] & ->).
      - by apply not_elem_of_empty in Hs.
      - by apply (FailDuplicate _ (before ++ v :: after) es before v after). }
    apply checkDuplicates_None in H2 as [H2 _].
    destruct (checkEdges 0 es) as [e3|] eqn:H3; [|done].
    intros [= <-]. apply checkEdges_Some in H3 as (i & v & Hi & Hb & Hf).
    by apply (FailEdge _ ns es i v).
  - intros ns es i v Ho Hn He Hi Hb Hov Hid Hname.
    unfold validateGraphData. apply isObjectValue_test in Ho. rewrite Ho, Hn, He.
    cbn [isArray negb elements].
    assert (checkNodes 0 ns = Some (nodeInvalidName i)) as ->; [|done].
    rewrite checkNodes_loop. apply (loop_first checkNode 0 i ns v).
    + intros k w Hk Hw. apply checkNode_None.
      apply (proj1 (Forall_lookup _ _) Hb k). by apply lookup_take_Some.
    + done.
    + unfold checkNode. apply isObjectValue_test in Hov.
      apply blankOrNotString_false in Hid. by rewrite Hov, Hid, Hname.
Qed.

(** C4 as stated fails: every identifier of this document is a non-empty
    string, and the validator rejects it. *)
Lemma validateGraphData_rejects_blank_id :
  wellFormed nonEmptyId doc_blank_id
  /\ validateGraphData doc_blank_id = Failure (nodeInvalidId 0).
Proof.
  split; [|vm_compute; reflexivity].
  split; [done|]. exists [obj_node " " "A"], [].
  split; [reflexivity|]. split; [reflexivity|].
  split; [|split; [|constructor]].
  - constructor; [|constructor]. split; [done|].
    split; [|reflexivity]. by exists " ".
  - apply NoDup_cons. split; [apply not_elem_of_nil | constructor].
Qed.

Lemma validateGraphData_contract_witness :
  validateGraphData doc_name_and_duplicate = Failure (nodeInvalidName 1)
  /\ validateGraphData (obj_graph [obj_node "x" "X"; obj_node "x" "Y"] [])
     = Failure (duplicateNodeId "x").
Proof.
  split; [|vm_compute; reflexivity].
  apply (proj1 (proj2 (proj2 (proj2
           (validateGraphData_contract doc_name_and_duplicate))))
           [obj_node "x" "X"; JsObject [("id", JsString "x"); ("name", JsNumber 5)]]
           [] 1%nat (JsObject [("id", JsString "x"); ("name", JsNumber 5)])).
  - done.
  - reflexivity.
  - reflexivity.
  - reflexivity.
  - constructor; [|constructor]. split; [done|].
    split; [|reflexivity]. exists "x". split; [reflexivity|].
    unfold nonBlankId. vm_compute. discriminate.
  - done.
  - exists "x". split; [reflexivity|]. unfold nonBlankId. vm_compute. discriminate.
  - reflexivity.
Defined.

(** ** The hook *)

(** What the effects leave alone. *)
Lemma effectTrackRadial_frames (o : UseForceGraphOptions) (st : HookState) :
  frameQueue (effectTrackRadial o st) = frameQueue st
  /\ rafIdRef (effectTrackRadial o st) = rafIdRef st
  /\ lastFrameHandle (effectTrackRadial o st) = lastFrameHandle st
  /\ renderRequested (effectTrackRadial o st) = renderRequested st
  /\ isRadialRef (effectTrackRadial o st) = radialLayout o.
Proof. done. Qed.

Lemma reactRender_fields (st : HookState) :
  simulationRef (reactRender st) = simulationRef st
  /\ nodesRef (reactRender st) = nodesRef st
  /\ linksRef (reactRender st) = linksRef st
  /\ rafIdRef (reactRender st) = rafIdRef st
  /\ isRadialRef (reactRender st) = isRadialRef st
  /\ isStableState (reactRender st) = isStableState st
  /\ frameQueue (reactRender st) = frameQueue st
  /\ lastFrameHandle (reactRender st) = lastFrameHandle st
  /\ renderRequested (reactRender st) = false
  /\ rendered (reactRender st)
     = if renderRequested st then snapshot st :: rendered st else rendered st.
Proof. unfold reactRender. destruct (renderRequested st) eqn:E; by hook_simpl. Qed.

Lemma reactRender_idle (st : HookState) :
  renderRequested st = false -> reactRender st = st.
Proof. unfold reactRender. by intros ->. Qed.

Lemma effectInit_empty (graphData : option GraphData.t)
    (o : UseForceGraphOptions) (st : HookState) :
  emptyGraph graphData ->
  simulationRef (effectInit graphData o st) = None
  /\ nodesRef (effectInit graphData o st) = []
  /\ linksRef (effectInit graphData o st) = []
  /\ isStableState (effectInit graphData o st) = true
  /\ renderRequested (effectInit graphData o st) = true
  /\ rafIdRef (effectInit graphData o st) = 0%nat
  /\ isRadialRef (effectInit graphData o st) = isRadialRef st.
Proof.
  intros He.
  assert (Hempty :
    effectInit graphData o st
    = forceRender (setIsStable true (set_linksRef [] (set_nodesRef []
        (dropSimulation (cancelPendingFrame st)))))).
  { unfold effectInit. destruct graphData as [g|]; [|done].
    cbn in He. by rewrite He. }
  rewrite Hempty. unfold setIsStable, dropSimulation, cancelPendingFrame.
  hook_cases; repeat split; try done.
  all: try (by apply Nat.eqb_eq).
  all: by match goal with H : Bool.eqb _ true = true |- _ =>
            apply Bool.eqb_prop in H end.
Qed.

Lemma effectParams_no_simulation (p : ForceParams) (st : HookState) :
  simulationRef st = None -> effectParams p st = st.
Proof. unfold effectParams. by intros ->. Qed.

Section EngineProperties.
Variable integrate : Simulation -> list D3Link.t -> list D3Node.t -> list D3Node.t.
Variable decay : Q -> Q.
Variable alphaMin : Q.

Local Abbreviation handleE := (handle integrate decay alphaMin).
Local Abbreviation runE := (run integrate decay alphaMin).
Local Abbreviation timerStepE := (timerStep integrate decay alphaMin).
Local Abbreviation tickedE := (ticked integrate decay).

Lemma timerStep_no_simulation (st : HookState) :
  simulationRef st = None -> timerStepE st = st.
Proof. unfold timerStep. by intros ->. Qed.

(** The state after an initialisation with no graph or no node. *)
Lemma init_empty_state (graphData : option GraphData.t)
    (o : UseForceGraphOptions) (st : HookState) :
  emptyGraph graphData ->
  let st' := reactRender (effectInit graphData o st) in
  simulationRef st' = None /\ snapshot st' = emptyStable
  /\ head (rendered st') = Some emptyStable
  /\ renderRequested st' = false /\ rafIdRef st' = 0%nat.
Proof.
  intros He st'.
  destruct (effectInit_empty graphData o st He)
    as (H1 & H2 & H3 & H4 & H5 & H6 & _).
  destruct (reactRender_fields (effectInit graphData o st))
    as (R1 & R2 & R3 & R4 & _ & R6 & _ & _ & R9 & R10).
  subst st'. unfold snapshot. rewrite R1, R2, R3, R4, R6, R9, R10, H5.
  unfold snapshot. rewrite H1, H2, H3, H4, H6. done.
Qed.

(** C8. Zero-node degradation.  For a null graph or a graph without nodes,
    mounting the hook, or re-initialising it from any state, leaves no
    simulation, and the snapshot it exposes has empty node and link arrays
    and [isStable] true; timer events and parameter changes then change
    nothing, so the layout does not go back to running. *)
Theorem zero_node_layout (graphData : option GraphData.t)
    (o : UseForceGraphOptions) :
  emptyGraph graphData ->
  (simulationRef (mount graphData o) = None
   /\ snapshot (mount graphData o) = emptyStable
   /\ head (rendered (mount graphData o)) = Some emptyStable)
  /\ (forall st,
        let st' := handleE (EvInit graphData o) st in
        simulationRef st' = None
        /\ snapshot st' = emptyStable
        /\ head (rendered st') = Some emptyStable
        /\ handleE EvTimer st' = st'
        /\ (forall p, handleE (EvParams p) st' = st')).
Proof.
  intros He. split.
  - unfold mount. set (st0 := effectTrackRadial o (initialHook o)).
    rewrite (effectParams_no_simulation _ (effectInit graphData o st0))
      by apply (effectInit_empty graphData o st0 He).
    destruct (init_empty_state graphData o st0 He) as (H1 & H2 & H3 & _).
    done.
  - intros st st'. subst st'. unfold handle.
    set (st0 := effectInitCleanup (effectTrackRadial o st)).
    destruct (init_empty_state graphData o st0 He) as (H1 & H2 & H3 & H4 & _).
    split; [done|]. split; [done|]. split; [done|]. split.
    + rewrite timerStep_no_simulation by done. by apply reactRender_idle.
    + intros p. rewrite effectParams_no_simulation by done.
      by apply reactRender_idle.
Qed.

(** *** Parameter updates *)

Lemma effectInit_isRadialRef (graphData : option GraphData.t)
    (o : UseForceGraphOptions) (st : HookState) :
  isRadialRef (effectInit graphData o st) = isRadialRef st.
Proof.
  unfold effectInit, setIsStable, dropSimulation, cancelPendingFrame.
  destruct graphData as [g|]; hook_cases; reflexivity.
Qed.

Lemma effectInitCleanup_isRadialRef (st : HookState) :
  isRadialRef (effectInitCleanup st) = isRadialRef st.
Proof.
  unfold effectInitCleanup, stopSimulation, cancelPendingFrame.
  hook_cases; reflexivity.
Qed.

Lemma effectParams_radial (p : ForceParams) (st : HookState) :
  isRadialRef st = true -> effectParams p st = st.
Proof. unfold effectParams. intros ->. by destruct (simulationRef st). Qed.

(** C5. Live parameter update.  On an existing simulation in force mode,
    the parameter effect sets the distance of the link force, the strength
    of the charge force and the radius of the collision force to the new
    values, sets [alpha] to 0.3 and restarts the timer, and marks the layout
    as not stable; the centre and radial forces, the node array with its
    positions, the link array and the pending frame are untouched.  In
    radial mode the effect changes nothing, and after an initialisation in
    radial mode a parameter change leaves the whole state as it is. *)
Theorem live_parameter_update (p : ForceParams) (st : HookState)
    (sim : Simulation) :
  simulationRef st = Some sim ->
  (isRadialRef st = false ->
   let st' := effectParams p st in
   simulationRef st'
   = Some {| link_distance := linkDistance p;
             charge_strength := chargeStrength p;
             center_x := center_x sim; center_y := center_y sim;
             collide_radius := collisionRadius p;
             radial := radial sim;
             alpha := 3 # 10;
             running := true |}
   /\ nodesRef st' = nodesRef st
   /\ linksRef st' = linksRef st
   /\ isStableState st' = false
   /\ rafIdRef st' = rafIdRef st
   /\ frameQueue st' = frameQueue st
   /\ lastFrameHandle st' = lastFrameHandle st
   /\ rendered st' = rendered st
   /\ isRadialRef st' = false)
  /\ (isRadialRef st = true -> effectParams p st = st)
  /\ (forall graphData o st0,
        radialLayout o = true ->
        handleE (EvParams p) (handleE (EvInit graphData o) st0)
        = handleE (EvInit graphData o) st0).
Proof.
  intros Hsim. split; [|split].
  - intros Hr st'. subst st'. unfold effectParams. rewrite Hsim, Hr.
    unfold setIsStable, applyParams. hook_cases; repeat split; try done.
    by match goal with H : Bool.eqb _ false = true |- _ =>
         apply Bool.eqb_prop in H end.
  - apply effectParams_radial.
  - intros graphData o st0 Ho. unfold handle.
    set (st1 := effectInit graphData o
                  (effectInitCleanup (effectTrackRadial o st0))).
    destruct (reactRender_fields st1)
      as (_ & _ & _ & _ & R5 & _ & _ & _ & R9 & _).
    rewrite effectParams_radial.
    + by apply reactRender_idle.
    + rewrite R5. unfold st1.
      by rewrite effectInit_isRadialRef, effectInitCleanup_isRadialRef.
Qed.

(** *** Coalescing of refreshes *)

Lemma onTick_frames (st : HookState) :
  frameQueue st = (if Nat.eqb (rafIdRef st) 0 then [] else [rafIdRef st]) ->
  (rafIdRef st <= lastFrameHandle st)%nat ->
  frameQueue (onTick st) = [rafIdRef (onTick st)]
  /\ rafIdRef (onTick st) <> 0%nat
  /\ (rafIdRef (onTick st) <= lastFrameHandle (onTick st))%nat
  /\ (lastFrameHandle (onTick st)
      = if Nat.eqb (rafIdRef st) 0 then S (lastFrameHandle st)
        else lastFrameHandle st)
  /\ (rafIdRef st <> 0%nat -> onTick st = st)
  /\ simulationRef (onTick st) = simulationRef st
  /\ nodesRef (onTick st) = nodesRef st
  /\ linksRef (onTick st) = linksRef st
  /\ isStableState (onTick st) = isStableState st
  /\ renderRequested (onTick st) = renderRequested st
  /\ rendered (onTick st) = rendered st.
Proof.
  intros Hq Hle. unfold onTick, requestAnimationFrame.
  destruct (Nat.eqb (rafIdRef st) 0) eqn:E; hook_simpl.
  - rewrite Hq. repeat split; try done. intros H. by apply Nat.eqb_eq in E.
  - apply Nat.eqb_neq in E. by repeat split.
Qed.

Lemma onEnd_fields (st : HookState) :
  frameQueue (onEnd st) = frameQueue st
  /\ rafIdRef (onEnd st) = rafIdRef st
  /\ lastFrameHandle (onEnd st) = lastFrameHandle st
  /\ nodesRef (onEnd st) = nodesRef st
  /\ linksRef (onEnd st) = linksRef st
  /\ rendered (onEnd st) = rendered st
  /\ isStableState (onEnd st) = true
  /\ renderRequested (onEnd st) = true.
Proof.
  unfold onEnd, setIsStable. hook_cases; repeat split; try done.
  by match goal with H : Bool.eqb _ true = true |- _ =>
       apply Bool.eqb_prop in H end.
Qed.

Lemma stopSimulation_fields (st : HookState) :
  frameQueue (stopSimulation st) = frameQueue st
  /\ rafIdRef (stopSimulation st) = rafIdRef st
  /\ lastFrameHandle (stopSimulation st) = lastFrameHandle st
  /\ nodesRef (stopSimulation st) = nodesRef st
  /\ linksRef (stopSimulation st) = linksRef st
  /\ rendered (stopSimulation st) = rendered st
  /\ isStableState (stopSimulation st) = isStableState st
  /\ renderRequested (stopSimulation st) = renderRequested st.
Proof. unfold stopSimulation. hook_cases; by repeat split. Qed.

Lemma timerStep_running (st : HookState) (sim : Simulation) :
  simulationRef st = Some sim -> running sim = true ->
  timerStepE st
  = if Qgtb alphaMin (decay (alpha sim))
    then onEnd (stopSimulation (onTick (tickedE sim st)))
    else onTick (tickedE sim st).
Proof. unfold timerStep, ticked. intros -> Hr. cbn [running cool]. by rewrite Hr. Qed.

Lemma timerStep_idle (st : HookState) :
  (forall sim, simulationRef st = Some sim -> running sim = false) ->
  timerStepE st = st.
Proof.
  unfold timerStep. destruct (simulationRef st) as [sim|]; [|done].
  intros H. cbn [running cool]. by rewrite (H sim eq_refl).
Qed.

Lemma timerStep_frames (st : HookState) :
  frameQueue st = (if Nat.eqb (rafIdRef st) 0 then [] else [rafIdRef st]) ->
  (rafIdRef st <= lastFrameHandle st)%nat ->
  let st' := timerStepE st in
  frameQueue st' = (if Nat.eqb (rafIdRef st') 0 then [] else [rafIdRef st'])
  /\ (rafIdRef st' <= lastFrameHandle st')%nat
  /\ (lastFrameHandle st' <= S (lastFrameHandle st))%nat
  /\ (rafIdRef st <> 0%nat ->
      frameQueue st' = frameQueue st /\ rafIdRef st' = rafIdRef st
      /\ lastFrameHandle st' = lastFrameHandle st)
  /\ (rafIdRef st' = 0%nat -> lastFrameHandle st' = lastFrameHandle st).
Proof.
  intros Hq Hle st'. subst st'.
  destruct (simulationRef st) as [sim|] eqn:Hs.
  2: { rewrite timerStep_no_simulation by done. repeat split; try done; lia. }
  destruct (running sim) eqn:Hr.
  2: { rewrite timerStep_idle
         by (intros s Hs'; rewrite Hs in Hs'; by injection Hs' as <-).
       repeat split; try done; lia. }
  rewrite (timerStep_running st sim Hs Hr).
  assert (Hq' : frameQueue (tickedE sim st)
                = if Nat.eqb (rafIdRef (tickedE sim st)) 0 then []
                  else [rafIdRef (tickedE sim st)]) by done.
  assert (Hle' : (rafIdRef (tickedE sim st) <= lastFrameHandle (tickedE sim st))%nat)
    by done.
  destruct (onTick_frames _ Hq' Hle')
    as (T1 & T2 & T3 & T4 & T5 & _).
  change (rafIdRef (tickedE sim st)) with (rafIdRef st) in *.
  change (lastFrameHandle (tickedE sim st)) with (lastFrameHandle st) in *.
  change (frameQueue (tickedE sim st)) with (frameQueue st) in *.
  set (st1 := onTick (tickedE sim st)) in *.
  assert (Hst1 :
    frameQueue st1 = (if Nat.eqb (rafIdRef st1) 0 then [] else [rafIdRef st1])
    /\ (rafIdRef st1 <= lastFrameHandle st1)%nat
    /\ (lastFrameHandle st1 <= S (lastFrameHandle st))%nat
    /\ (rafIdRef st <> 0%nat ->
        frameQueue st1 = frameQueue st /\ rafIdRef st1 = rafIdRef st
        /\ lastFrameHandle st1 = lastFrameHandle st)
    /\ (rafIdRef st1 = 0%nat -> lastFrameHandle st1 = lastFrameHandle st)).
  { split; [|split; [done|split; [|split; [|done]]]].
    - rewrite T1. by apply Nat.eqb_neq in T2 as ->.
    - rewrite T4. destruct (Nat.eqb (rafIdRef st) 0); lia.
    - intros Hne. rewrite T1, T4, Hq.
      assert (onTick (tickedE sim st) = tickedE sim st) as Hid by (by apply T5).
      unfold st1. rewrite Hid.
      change (rafIdRef (tickedE sim st)) with (rafIdRef st).
      by apply Nat.eqb_neq in Hne as ->. }
  destruct (Qgtb alphaMin (decay (alpha sim))); [|done].
  destruct (onEnd_fields (stopSimulation st1)) as (E1 & E2 & E3 & _).
  destruct (stopSimulation_fields st1) as (S1 & S2 & S3 & _).
  rewrite E1, E2, E3, S1, S2, S3. done.
Qed.

Lemma displayFrame_idle (st : HookState) :
  frameQueue st = [] -> displayFrame st = st.
Proof. unfold displayFrame. intros Hq. rewrite Hq. destruct st. by cbn in *; subst. Qed.

Lemma displayFrame_pending (st : HookState) :
  frameQueue st = [rafIdRef st] ->
  let st' := displayFrame st in
  frameQueue st' = [] /\ rafIdRef st' = 0%nat
  /\ lastFrameHandle st' = lastFrameHandle st
  /\ renderRequested st' = true
  /\ snapshot st' = snapshot st
  /\ rendered st' = rendered st
  /\ simulationRef st' = simulationRef st.
Proof. unfold displayFrame, frameCallback. intros ->. by hook_simpl. Qed.

Lemma cancelPendingFrame_fields (st : HookState) :
  frameQueue st = (if Nat.eqb (rafIdRef st) 0 then [] else [rafIdRef st]) ->
  frameQueue (cancelPendingFrame st) = []
  /\ rafIdRef (cancelPendingFrame st) = 0%nat
  /\ lastFrameHandle (cancelPendingFrame st) = lastFrameHandle st.
Proof.
  unfold cancelPendingFrame. destruct (Nat.eqb (rafIdRef st) 0) eqn:E.
  - intros ->. by apply Nat.eqb_eq in E.
  - intros Hq. hook_simpl. rewrite Hq. cbn [List.filter].
    by rewrite Nat.eqb_refl.
Qed.

Lemma effectInitCleanup_frames (st : HookState) :
  frameQueue st = (if Nat.eqb (rafIdRef st) 0 then [] else [rafIdRef st]) ->
  frameQueue (effectInitCleanup st) = []
  /\ rafIdRef (effectInitCleanup st) = 0%nat
  /\ lastFrameHandle (effectInitCleanup st) = lastFrameHandle st.
Proof.
  intros Hq. unfold effectInitCleanup.
  destruct (stopSimulation_fields (cancelPendingFrame st)) as (S1 & S2 & S3 & _).
  rewrite S1, S2, S3. by apply cancelPendingFrame_fields.
Qed.

Lemma effectInit_frames (graphData : option GraphData.t)
    (o : UseForceGraphOptions) (st : HookState) :
  frameQueue st = [] -> rafIdRef st = 0%nat ->
  frameQueue (effectInit graphData o st) = []
  /\ rafIdRef (effectInit graphData o st) = 0%nat
  /\ lastFrameHandle (effectInit graphData o st) = lastFrameHandle st.
Proof.
  intros Hq Hr.
  assert (Hc : cancelPendingFrame st = st)
    by (unfold cancelPendingFrame; by rewrite Hr).
  unfold effectInit. rewrite Hc. unfold setIsStable, dropSimulation.
  destruct graphData as [g|]; hook_cases; by repeat split.
Qed.

Lemma effectParams_frames (p : ForceParams) (st : HookState) :
  frameQueue (effectParams p st) = frameQueue st
  /\ rafIdRef (effectParams p st) = rafIdRef st
  /\ lastFrameHandle (effectParams p st) = lastFrameHandle st.
Proof. unfold effectParams, setIsStable. hook_cases; by repeat split. Qed.

Lemma framesCoalesced_handle (ev : Event) (st : HookState) :
  framesCoalesced st -> framesCoalesced (handleE ev st).
Proof.
  intros (Hq & Hle & Hrr). unfold framesCoalesced, handle.
  match goal with |- context [reactRender ?s] =>
    destruct (reactRender_fields s)
      as (_ & _ & _ & R4 & _ & _ & R7 & R8 & R9 & _) end.
  rewrite R4, R7, R8, R9. split; [|split; [|done]]; destruct ev as [| |p|g o].
  - by apply timerStep_frames.
  - destruct (Nat.eqb (rafIdRef st) 0) eqn:E.
    + rewrite displayFrame_idle by done. by rewrite E.
    + by destruct (displayFrame_pending st Hq) as (-> & -> & _).
  - destruct (effectParams_frames p st) as (-> & -> & _). done.
  - destruct (effectInitCleanup_frames (effectTrackRadial o st) Hq) as (C1 & C2 & C3).
    destruct (effectInit_frames g o _ C1 C2) as (-> & -> & _). done.
  - by apply timerStep_frames.
  - destruct (Nat.eqb (rafIdRef st) 0) eqn:E.
    + by rewrite displayFrame_idle.
    + destruct (displayFrame_pending st Hq) as (_ & -> & _). lia.
  - by destruct (effectParams_frames p st) as (_ & -> & ->).
  - destruct (effectInitCleanup_frames (effectTrackRadial o st) Hq) as (C1 & C2 & C3).
    destruct (effectInit_frames g o _ C1 C2) as (_ & -> & _). lia.
Qed.

Lemma framesCoalesced_mount (graphData : option GraphData.t)
    (o : UseForceGraphOptions) :
  framesCoalesced (mount graphData o).
Proof.
  unfold framesCoalesced, mount.
  match goal with |- context [reactRender ?s] =>
    destruct (reactRender_fields s)
      as (_ & _ & _ & R4 & _ & _ & R7 & R8 & R9 & _) end.
  rewrite R4, R7, R8, R9.
  match goal with |- context [effectParams ?p ?s] =>
    destruct (effectParams_frames p s) as (-> & -> & ->) end.
  destruct (effectInit_frames graphData o
              (effectTrackRadial o (initialHook o)) eq_refl eq_refl)
    as (-> & -> & ->).
  split; [done|]. split; [cbn; lia | done].
Qed.

Lemma framesCoalesced_run (evs : list Event) (st : HookState) :
  framesCoalesced st -> framesCoalesced (runE evs st).
Proof.
  revert st. induction evs as [|ev evs IH]; intros st H; [done|].
  cbn. apply IH. by apply framesCoalesced_handle.
Qed.








End EngineProperties.

Lemma zero_node_layout_witness :
  snapshot (mount None exampleOptions) = emptyStable
  /\ snapshot (mount (Some (GraphData.mk [] [plainEdge "a" "b"]))
                 exampleRadialOptions) = emptyStable.
Proof.
  split.
  - exact (proj1 (proj2 (proj1
      (zero_node_layout exampleIntegrate exampleDecay exampleAlphaMin
         None exampleOptions I)))).
  - exact (proj1 (proj2 (proj1
      (zero_node_layout exampleIntegrate exampleDecay exampleAlphaMin
         (Some (GraphData.mk [] [plainEdge "a" "b"]))
         exampleRadialOptions eq_refl)))).
Defined.

Lemma live_parameter_update_witness :
  nodesRef (effectParams exampleParams (mount (Some graph_ab) exampleOptions))
  = nodesRef (mount (Some graph_ab) exampleOptions)
  /\ linksRef (effectParams exampleParams (mount (Some graph_ab) exampleOptions))
     = linksRef (mount (Some graph_ab) exampleOptions).
Proof.
  assert (Hsim : simulationRef (mount (Some graph_ab) exampleOptions)
                 = Some (applyParams defaultForceParams
                           (newSimulation graph_ab exampleOptions)))
    by (vm_compute; reflexivity).
  assert (Hmode : isRadialRef (mount (Some graph_ab) exampleOptions) = false)
    by (vm_compute; reflexivity).
  pose proof (proj1 (live_parameter_update exampleIntegrate exampleDecay
                       exampleAlphaMin exampleParams
                       (mount (Some graph_ab) exampleOptions)
                       (applyParams defaultForceParams
                          (newSimulation graph_ab exampleOptions)) Hsim) Hmode)
    as (_ & Hn & Hl & _).
  exact (conj Hn Hl).
Defined.


(** ** Radial rings *)

Lemma Qgtb_true (a b : Q) : Qgtb a b = true <-> (b < a)%Q.
Proof.
  unfold Qgtb. rewrite negb_true_iff. split.
  - intros H. apply Qnot_le_lt. intros Hle. apply Qle_bool_iff in Hle. congruence.
  - intros H. destruct (Qle_bool a b) eqn:E; [|done].
    apply Qle_bool_iff in E. lra.
Qed.

Lemma Qgtb_false (a b : Q) : Qgtb a b = false <-> (a <= b)%Q.
Proof. unfold Qgtb. rewrite negb_false_iff. apply Qle_bool_iff. Qed.

(** The loop returns the largest of its start value and the levels seen. *)
Lemma raise_levels (ns : list Node.t) (start : Q) :
  let result := fold_left raiseLevel ns start in
  (start <= result)%Q
  /\ (forall n l, n ∈ ns -> Node.level n = Some l -> (levelNumber l <= result)%Q)
  /\ (result = start
      \/ exists n l, n ∈ ns /\ Node.level n = Some l /\ levelNumber l = result).
Proof.
  revert start. induction ns as [|x ns IH]; intros start; cbn [fold_left].
  - split; [lra|]. split; [intros n l H; inversion H | by left].
  - destruct (IH (raiseLevel start x)) as (I1 & I2 & I3).
    assert (Hstep : (start <= raiseLevel start x)%Q
                    /\ (forall l, Node.level x = Some l ->
                          (levelNumber l <= raiseLevel start x)%Q)
                    /\ (raiseLevel start x = start
                        \/ exists l, Node.level x = Some l
                                     /\ levelNumber l = raiseLevel start x)).
    { unfold raiseLevel. destruct (Node.level x) as [l|].
      - destruct (Qgtb (levelNumber l) start) eqn:E.
        + apply Qgtb_true in E. split; [lra|]. split; [|right; by exists l].
          intros ? [= <-]. lra.
        + apply Qgtb_false in E. split; [lra|]. split; [|by left].
          by intros ? [= <-].
      - split; [lra|]. split; [done | by left]. }
    destruct Hstep as (S1 & S2 & S3). split; [lra|]. split.
    + intros n l [->|Hin]%elem_of_cons Hl.
      * specialize (S2 l Hl). lra.
      * by apply (I2 n).
    + destruct I3 as [->|(n & l & Hn & Hl & Hr)].
      * destruct S3 as [->|(l & S3 & S4)]; [by left|]. right. exists x, l.
        split; [left | done].
      * right. exists n, l. split; [by right | done].
Qed.

Lemma observedMaxLevel_spec (ns : list Node.t) :
  (0 <= observedMaxLevel ns)%Q
  /\ (forall n l, n ∈ ns -> Node.level n = Some (LevelNumber l) ->
        (l <= observedMaxLevel ns)%Q)
  /\ (observedMaxLevel ns = 0%Q
      \/ exists n, n ∈ ns
                   /\ Node.level n = Some (LevelNumber (observedMaxLevel ns))).
Proof.
  destruct (raise_levels ns 0%Q) as (H1 & H2 & H3).
  change (fold_left raiseLevel ns 0%Q) with (observedMaxLevel ns) in *.
  split; [done|]. split.
  - intros n l Hn Hl. apply (H2 n (LevelNumber l) Hn Hl).
  - destruct H3 as [H3|(n & [q|] & Hn & Hl & Hq)]; [by left | |].
    + right. exists n. cbn [levelNumber] in Hq. by subst q.
    + left. by rewrite <- Hq.
Qed.

Lemma effectInit_simulationRef (g : GraphData.t) (o : UseForceGraphOptions)
    (st : HookState) :
  GraphData.nodes g <> [] ->
  simulationRef (effectInit (Some g) o st) = Some (newSimulation g o).
Proof.
  intros Hne. unfold effectInit, setIsStable.
  destruct (GraphData.nodes g) as [|n ns] eqn:Hn; [done|].
  cbn [length Nat.eqb]. hook_cases; reflexivity.
Qed.




(** ** Colours *)

(** *** The strings a pattern matches *)

Lemma append_nil_inv (a b : string) :
  a +:+ b = EmptyString -> a = EmptyString /\ b = EmptyString.
Proof. destruct a; [done|]. rewrite append_cons. discriminate. Qed.

Lemma nullable_lang (r : regex) : nullable r = true <-> lang r EmptyString.
Proof.
  induction r as [| |p|r1 IH1 r2 IH2|r1 IH1 r2 IH2|r1 IH1]; cbn.
  - split; [discriminate | done].
  - done.
  - split; [discriminate | by intros (c & ? & _)].
  - rewrite andb_true_iff, IH1, IH2. split.
    + intros [H1 H2]. by exists EmptyString, EmptyString.
    + intros (s1 & s2 & Hs & H1 & H2). symmetry in Hs.
      apply append_nil_inv in Hs as [-> ->]. done.
  - rewrite orb_true_iff, IH1, IH2. done.
  - split; [intros _; constructor | done].
Qed.

(** A non-empty match of a star starts with a non-empty match of its body. *)
Lemma star_cons_inv (L : string -> Prop) (c : ascii) (s : string) :
  star L (String c s) ->
  exists s1 s2, s = s1 +:+ s2 /\ L (String c s1) /\ star L s2.
Proof.
  intros H. remember (String c s) as t eqn:Ht. revert c s Ht.
  induction H as [|s1 s2 H1 H2 IH]; intros c s Ht; [discriminate|].
  destruct s1 as [|c1 s1].
  - by apply IH.
  - rewrite append_cons in Ht. injection Ht as -> <-. by exists s1, s2.
Qed.

Lemma deriv_lang (r : regex) (c : ascii) (s : string) :
  lang (deriv c r) s <-> lang r (String c s).
Proof.
  revert s.
  induction r as [| |p|r1 IH1 r2 IH2|r1 IH1 r2 IH2|r1 IH1]; intros s;
    cbn [deriv lang].
  - done.
  - split; [done | discriminate].
  - destruct (p c) eqn:Hp; cbn [lang].
    + split; [intros ->; by exists c | by intros (c' & [= <- ->] & _)].
    + split; [done | intros (c' & [= <- ->] & ?); congruence].
  - assert (Hcat :
      (exists s1 s2, s = s1 +:+ s2 /\ lang (deriv c r1) s1 /\ lang r2 s2)
      <-> exists s1 s2, String c s = s1 +:+ s2 /\ s1 <> EmptyString
                        /\ lang r1 s1 /\ lang r2 s2).
    { split.
      - intros (s1 & s2 & -> & H1 & H2). exists (String c s1), s2.
        split; [done|]. split; [done|]. split; [by apply IH1 | done].
      - intros (s1 & s2 & Hs & Hne & H1 & H2). destruct s1 as [|c1 s1]; [done|].
        rewrite append_cons in Hs. injection Hs as <- ->.
        exists s1, s2. split; [done|]. split; [by apply IH1 | done]. }
    destruct (nullable r1) eqn:Hn; cbn [lang].
    + rewrite Hcat, IH2. apply nullable_lang in Hn. split.
      * intros [(s1 & s2 & Hs & _ & H1 & H2)|H2].
        -- by exists s1, s2.
        -- by exists EmptyString, (String c s).
      * intros (s1 & s2 & Hs & H1 & H2). destruct s1 as [|c1 s1].
        -- right. by rewrite Hs.
        -- left. by exists (String c1 s1), s2.
    + rewrite Hcat. split.
      * intros (s1 & s2 & Hs & _ & H1 & H2). by exists s1, s2.
      * intros (s1 & s2 & Hs & H1 & H2). exists s1, s2.
        split; [done|]. split; [|done]. intros ->.
        apply nullable_lang in H1. congruence.
  - by rewrite IH1, IH2.
  - split.
    + intros (s1 & s2 & -> & H1 & H2). apply IH1 in H1.
      by apply (star_app _ (String c s1) s2).
    + intros (s1 & s2 & -> & H1 & H2)%star_cons_inv.
      exists s1, s2. split; [done|]. split; [by apply IH1 | done].
Qed.

(** [test] decides the language of the pattern. *)
Lemma test_lang (r : regex) (s : string) : test r s = true <-> lang r s.
Proof.
  revert r. induction s as [|c s IH]; intros r; cbn [test].
  - apply nullable_lang.
  - rewrite IH. apply deriv_lang.
Qed.

(** *** Hex colours *)

Lemma lang_RRep_class (p : ascii -> bool) (n : nat) (s : string) :
  lang (RRep n (RClass p)) s <-> String.length s = n /\ allChars p s = true.
Proof.
  revert s. induction n as [|n IH]; intros s; cbn [RRep lang].
  - split; [by intros -> | intros [H _]; by destruct s].
  - split.
    + intros (s1 & s2 & -> & (c & -> & Hc) & H2). apply IH in H2 as [<- H2].
      change (String c EmptyString +:+ s2) with (String c s2).
      cbn [String.length allChars]. by rewrite Hc, H2.
    + intros [Hl Ha]. destruct s as [|c s]; [done|]. cbn in Hl, Ha.
      apply andb_true_iff in Ha as [Hc Ha]. injection Hl as Hl.
      exists (String c EmptyString), s. split; [done|].
      split; [by exists c | by apply IH].
Qed.

(** A hex colour is [#] followed by three, six or eight hex digits. *)
Lemma hex_color_form (s : string) :
  test HEX_COLOR_REGEX s = true <->
  exists digits,
    s = String "#" digits /\ allChars isHexDigit digits = true
    /\ (String.length digits = 3 \/ String.length digits = 6
        \/ String.length digits = 8)%nat.
Proof.
  rewrite test_lang. unfold HEX_COLOR_REGEX. cbn [lang].
  setoid_rewrite lang_RRep_class. split.
  - intros (s1 & s2 & -> & (c & -> & Hc) & H). apply bool_decide_eq_true in Hc as ->.
    exists s2. rewrite append_cons. split; [done|]. tauto.
  - intros (digits & -> & Ha & Hl). exists (String "#" EmptyString), digits.
    split; [done|]. split; [by exists "#"%char|]. tauto.
Qed.

(** *** Categories *)

Lemma set_add_spec (l : list string) (x : string) :
  NoDup l ->
  NoDup (set_add l x) /\ forall c, c ∈ set_add l x <-> c ∈ l \/ c = x.
Proof.
  intros Hnd. unfold set_add. case_bool_decide as Hin.
  - split; [done|]. intros c. split; [by left | by intros [?| ->]].
  - split.
    + apply NoDup_app. split; [done|]. split; [|apply NoDup_singleton].
      intros c Hc ->%list_elem_of_singleton. done.
    + intros c. rewrite elem_of_app, list_elem_of_singleton. done.
Qed.

Lemma nonEmpty_true (s : string) : nonEmpty s = true <-> s <> EmptyString.
Proof. unfold nonEmpty. by rewrite negb_true_iff, bool_decide_eq_false. Qed.

Lemma addCategories_spec (cs acc : list string) :
  NoDup acc ->
  NoDup (fold_left addCategory cs acc)
  /\ forall c, c ∈ fold_left addCategory cs acc
               <-> c ∈ acc \/ (c <> EmptyString /\ c ∈ cs).
Proof.
  revert acc. induction cs as [|x cs IH]; intros acc Hnd; cbn [fold_left].
  - split; [done|]. intros c. split; [by left|].
    intros [?|[_ H]]; [done | inversion H].
  - assert (Hstep : NoDup (addCategory acc x)
              /\ forall c, c ∈ addCategory acc x
                           <-> c ∈ acc \/ (c <> EmptyString /\ c = x)).
    { unfold addCategory. destruct (nonEmpty x) eqn:E.
      - apply nonEmpty_true in E. destruct (set_add_spec acc x Hnd) as [H1 H2].
        split; [done|]. intros c. rewrite H2. split.
        + intros [?| ->]; [by left | by right].
        + intros [?|[_ ->]]; [by left | by right].
      - split; [done|]. intros c. split; [by left|].
        intros [?|[Hc ->]]; [done|]. apply nonEmpty_true in Hc. congruence. }
    destruct Hstep as [S1 S2]. destruct (IH _ S1) as [I1 I2].
    split; [done|]. intros c. rewrite I2, S2, elem_of_cons. tauto.
Qed.

Lemma addNodeCategories_spec (acc : list string) (n : Node.t) :
  NoDup acc ->
  NoDup (addNodeCategories acc n)
  /\ forall c, c ∈ addNodeCategories acc n
               <-> c ∈ acc \/ categoryOf [n] c.
Proof.
  intros Hnd. unfold addNodeCategories, categoryOf.
  destruct (Node.categories n) as [cs|] eqn:Hc.
  - destruct (addCategories_spec cs acc Hnd) as [H1 H2]. split; [done|].
    intros c. rewrite (H2 c). split.
    + intros [?|[? ?]]; [by left|]. right. split; [done|].
      exists n, cs. split; [left | done].
    + intros [?|[? (n' & cs' & ->%list_elem_of_singleton & Hcs & Hin)]];
        [by left|].
      right. split; [done|]. congruence.
  - split; [done|]. intros c. split; [by left|].
    intros [?|[? (n' & cs' & ->%list_elem_of_singleton & Hcs & _)]];
      [done | congruence].
Qed.

Lemma collect_categories_spec (ns : list Node.t) (acc : list string) :
  NoDup acc ->
  NoDup (fold_left addNodeCategories ns acc)
  /\ forall c, c ∈ fold_left addNodeCategories ns acc
               <-> c ∈ acc \/ categoryOf ns c.
Proof.
  revert acc. induction ns as [|n ns IH]; intros acc Hnd; cbn [fold_left].
  - split; [done|]. intros c. split; [by left|].
    intros [?|[_ (n & cs & H & _)]]; [done | inversion H].
  - destruct (addNodeCategories_spec acc n Hnd) as [S1 S2].
    destruct (IH _ S1) as [I1 I2]. split; [done|].
    intros c. rewrite I2, S2. unfold categoryOf. split.
    + intros [[?|[? (n' & cs & ->%list_elem_of_singleton & ? & ?)]]
             |[? (n' & cs & ? & ? & ?)]].
      * by left.
      * right. split; [done|]. exists n, cs. split; [left | done].
      * right. split; [done|]. exists n', cs. split; [by right | done].
    + intros [?|[? (n' & cs & [->|Hin]%elem_of_cons & ? & ?)]].
      * left. by left.
      * left. right. split; [done|]. exists n, cs. split; [left | done].
      * right. split; [done|]. by exists n', cs.
Qed.

(** [extractCategories] lists each category once, in increasing order. *)
Lemma extractCategories_spec (ns : list Node.t) :
  StronglySorted String.le (extractCategories ns)
  /\ NoDup (extractCategories ns)
  /\ forall c, c ∈ extractCategories ns <-> categoryOf ns c.
Proof.
  unfold extractCategories, sortStrings.
  destruct (collect_categories_spec ns [] (NoDup_nil_2)) as [H1 H2].
  split; [apply StronglySorted_merge_sort; apply _|]. split.
  - by rewrite merge_sort_Permutation.
  - intros c. rewrite merge_sort_Permutation, H2. split; [|by right].
    intros [H|?]; [inversion H | done].
Qed.

Lemma extractCategories_ext (ns1 ns2 : list Node.t) :
  (forall c, categoryOf ns1 c <-> categoryOf ns2 c) ->
  extractCategories ns1 = extractCategories ns2.
Proof.
  intros Heq.
  destruct (extractCategories_spec ns1) as (S1 & N1 & E1).
  destruct (extractCategories_spec ns2) as (S2 & N2 & E2).
  apply (StronglySorted_unique String.le); [done..|].
  apply NoDup_Permutation; [done..|]. intros c. by rewrite E1, E2.
Qed.

Lemma categoryOf_Permutation (ns1 ns2 : list Node.t) (c : string) :
  ns1 ≡ₚ ns2 -> categoryOf ns1 c <-> categoryOf ns2 c.
Proof.
  intros Hp. unfold categoryOf.
  split; intros [Hc (n & cs & Hn & H)]; (split; [done|]); exists n, cs;
    (split; [|done]); [by rewrite <- Hp | by rewrite Hp].
Qed.

(** *** The colour map *)

Lemma colorMap_from_other (index : nat) (cs : list string)
    (m : gmap string string) (c : string) :
  c ∉ cs -> colorMap_from index cs m !! c = m !! c.
Proof.
  revert index m. induction cs as [|x cs IH]; intros index m Hc; [done|].
  cbn [colorMap_from]. apply not_elem_of_cons in Hc as [Hne Hc].
  rewrite IH by done. by rewrite lookup_insert_ne.
Qed.

Lemma colorMap_from_lookup (index : nat) (cs : list string)
    (m : gmap string string) (i : nat) (c : string) :
  NoDup cs -> cs !! i = Some c ->
  colorMap_from index cs m !! c
  = Some (palette_at ((index + i) mod length PALETTE)).
Proof.
  revert index m i. induction cs as [|x cs IH]; intros index m i Hnd Hi; [done|].
  apply NoDup_cons in Hnd as [Hx Hnd]. cbn [colorMap_from].
  destruct i as [|i]; cbn in Hi.
  - injection Hi as ->. rewrite colorMap_from_other by done.
    by rewrite lookup_insert_eq, Nat.add_0_r.
  - rewrite (IH (S index) _ i) by done. do 3 f_equal. lia.
Qed.

Lemma isValidColor_nonEmpty (c : string) :
  isValidColor c = true -> nonEmpty c = true.
Proof. by destruct c. Qed.

(** C9, as amended.  [getNodeColor] returns the node's explicit colour when
    [isValidColor] accepts it (a match of the hex pattern, that is [#] and
    three, six or eight hex digits, or of the rgb/rgba pattern); otherwise,
    when the node has categories, the colour that the map holds for its
    first category, and the default colour when the map holds none;
    otherwise the default colour.  The map built from
    [extractCategories nodes] holds, for the category at index [i] of that
    sorted list of distinct non-empty labels, [PALETTE[i mod 12]], and
    nothing for any other string; the list, and with it the map, is the
    same for node lists that carry the same labels, in particular for the
    same nodes in another order. *)
Theorem node_color_resolution (node : Node.t) (ns : list Node.t) :
  let categories := extractCategories ns in
  let colorMap := createCategoryColorMap categories in
  (forall m c, Node.color node = Some c -> isValidColor c = true ->
     getNodeColor node m = c)
  /\ (forall m,
        (Node.color node = None
         \/ exists c, Node.color node = Some c /\ isValidColor c = false) ->
        getNodeColor node m = fallbackColor node m)
  /\ (forall first rest i,
        Node.categories node = Some (first :: rest) ->
        categories !! i = Some first ->
        fallbackColor node colorMap = palette_at (i mod 12))
  /\ (forall first rest,
        Node.categories node = Some (first :: rest) ->
        first ∉ categories ->
        fallbackColor node colorMap = DEFAULT_NODE_COLOR)
  /\ (forall m, Node.categories node = None \/ Node.categories node = Some [] ->
        fallbackColor node m = DEFAULT_NODE_COLOR)
  /\ (forall i c, categories !! i = Some c ->
        colorMap !! c = Some (palette_at (i mod 12)))
  /\ (StronglySorted String.le categories /\ NoDup categories
      /\ forall c, c ∈ categories <-> categoryOf ns c)
  /\ (forall ns',
        (ns ≡ₚ ns' \/ forall c, categoryOf ns c <-> categoryOf ns' c) ->
        extractCategories ns' = categories)
  /\ (forall c,
        isValidColor c = true
        <-> lang HEX_COLOR_REGEX c \/ lang RGBA_COLOR_REGEX c)
  /\ (forall c,
        test HEX_COLOR_REGEX c = true
        <-> exists digits,
              c = String "#" digits /\ allChars isHexDigit digits = true
              /\ (String.length digits = 3 \/ String.length digits = 6
                  \/ String.length digits = 8)%nat).
Proof.
  intros categories colorMap.
  destruct (extractCategories_spec ns) as (Hsorted & Hnd & Helem).
  assert (Hmap : forall i c, categories !! i = Some c ->
                   colorMap !! c = Some (palette_at (i mod 12))).
  { intros i c Hi. unfold colorMap, createCategoryColorMap.
    by rewrite (colorMap_from_lookup 0 categories ∅ i c). }
  repeat apply conj.
  - intros m c Hc Hv. unfold getNodeColor.
    by rewrite Hc, Hv, (isValidColor_nonEmpty c Hv).
  - intros m [Hc|(c & Hc & Hv)]; unfold getNodeColor, fallbackColor; rewrite Hc.
    + done.
    + by rewrite Hv, andb_false_r.
  - intros first rest i Hc Hi. unfold fallbackColor. rewrite Hc.
    by rewrite (Hmap i first Hi).
  - intros first rest Hc Hnotin. unfold fallbackColor. rewrite Hc.
    unfold colorMap, createCategoryColorMap.
    by rewrite colorMap_from_other, lookup_empty.
  - intros m [Hc|Hc]; unfold fallbackColor; by rewrite Hc.
  - exact Hmap.
  - exact Hsorted.
  - exact Hnd.
  - exact Helem.
  - intros ns' [Hp|Hext]; symmetry; apply extractCategories_ext; [|done].
    intros c. by apply categoryOf_Permutation.
  - intros c. unfold isValidColor. by rewrite orb_true_iff, !test_lang.
  - apply hex_color_form.
Qed.

(** C9 as stated fails: this node has no explicit colour and has a
    category, and in the map built from the graph that holds it, it gets
    the default colour, which is no colour of the palette. *)
Lemma node_color_blank_category :
  Node.color node_blank_category = None
  /\ Node.categories node_blank_category = Some [EmptyString]
  /\ getNodeColor node_blank_category
       (createCategoryColorMap (extractCategories [node_blank_category]))
     = DEFAULT_NODE_COLOR
  /\ DEFAULT_NODE_COLOR ∉ PALETTE.
Proof.
  split; [done|]. split; [done|]. split; [vm_compute; reflexivity|].
  intros H. unfold PALETTE in H.
  repeat (apply elem_of_cons in H as [H|H]; [discriminate|]).
  inversion H.
Qed.

Lemma node_color_resolution_witness :
  extractCategories graph_colors = ["api"; "db"; "web"]
  /\ getNodeColor (Node.mk "n2" "Two" (Some ["db"]) (Some "red") None None [])
       (createCategoryColorMap (extractCategories graph_colors))
     = fallbackColor (Node.mk "n2" "Two" (Some ["db"]) (Some "red") None None [])
         (createCategoryColorMap (extractCategories graph_colors))
  /\ fallbackColor (Node.mk "n2" "Two" (Some ["db"]) (Some "red") None None [])
       (createCategoryColorMap (extractCategories graph_colors))
     = "#ffffb3".
Proof.
  split; [vm_compute; reflexivity|].
  destruct (node_color_resolution
              (Node.mk "n2" "Two" (Some ["db"]) (Some "red") None None [])
              graph_colors)
    as (_ & H2 & H3 & _).
  split.
  - apply H2. right. exists "red". split; [reflexivity | vm_compute; reflexivity].
  - apply (H3 "db" [] 1%nat); [reflexivity | vm_compute; reflexivity].
Defined.

(** * Further properties of the program *)

(** ** Category counts *)

Lemma countCategory_spec (m : gmap string nat) (x c : string) :
  countOf (countCategory m x) c
  = (countOf m c + if bool_decide (x = c) then 1 else 0)%nat.
Proof.
  unfold countOf, countCategory. case_bool_decide as E.
  - subst. by rewrite lookup_insert_eq.
  - rewrite lookup_insert_ne by done. lia.
Qed.

Lemma countCategory_positive (m : gmap string nat) (x : string) :
  positiveCounts m -> positiveCounts (countCategory m x).
Proof.
  intros Hp c k. unfold countCategory. destruct (decide (x = c)) as [->|Hne].
  - rewrite lookup_insert_eq. intros [= <-]. lia.
  - rewrite lookup_insert_ne by done. apply Hp.
Qed.

Lemma countCategories_spec (cs : list string) (m : gmap string nat) (c : string) :
  countOf (fold_left countCategory cs m) c
  = (countOf m c + length (List.filter (fun x => bool_decide (x = c)) cs))%nat
  /\ (positiveCounts m -> positiveCounts (fold_left countCategory cs m)).
Proof.
  revert m. induction cs as [|x cs IH]; intros m; cbn [fold_left List.filter].
  - split; [cbn; lia | done].
  - destruct (IH (countCategory m x)) as [I1 I2]. split.
    + rewrite I1, countCategory_spec. case_bool_decide; cbn [length]; lia.
    + intros Hp. by apply I2, countCategory_positive.
Qed.

Lemma countNode_spec (acc : gmap string nat * nat) (n : Node.t) (c : string) :
  countOf (fst (countNode acc n)) c = (countOf (fst acc) c + occurrences c n)%nat
  /\ snd (countNode acc n)
     = (snd acc + if hasNoCategories n then 1 else 0)%nat
  /\ (positiveCounts (fst acc) -> positiveCounts (fst (countNode acc n))).
Proof.
  unfold countNode, occurrences, hasNoCategories.
  destruct (Node.categories n) as [[|x cs]|]; cbn [fst snd].
  - split; [cbn; lia|]. split; [cbn; lia | done].
  - destruct (countCategories_spec (x :: cs) (fst acc) c) as [H1 H2].
    split; [done|]. split; [cbn; lia | done].
  - split; [cbn; lia|]. split; [cbn; lia | done].
Qed.

Lemma countNodes_spec (ns : list Node.t) (acc : gmap string nat * nat) (c : string) :
  countOf (fst (fold_left countNode ns acc)) c
  = (countOf (fst acc) c + totalOccurrences c ns)%nat
  /\ snd (fold_left countNode ns acc) = (snd acc + uncategorized ns)%nat
  /\ (positiveCounts (fst acc) ->
      positiveCounts (fst (fold_left countNode ns acc))).
Proof.
  revert acc. unfold totalOccurrences, uncategorized.
  induction ns as [|n ns IH]; intros acc;
    cbn [fold_left map sum_list_with List.filter id].
  - split; [lia|]. split; [cbn; lia | done].
  - destruct (IH (countNode acc n)) as (I1 & I2 & I3).
    destruct (countNode_spec acc n c) as (S1 & S2 & S3).
    split; [rewrite I1, S1; lia|]. split.
    + rewrite I2, S2. destruct (hasNoCategories n); cbn [length]; lia.
    + intros Hp. by apply I3, S3.
Qed.

(** What [getCategoryCounts] holds for a label: the number of its
    occurrences, except that the count of the nodes without categories, when
    there are such nodes, takes the place of the entry of the label
    [(uncategorized)]; and a label is a key exactly when its count is
    positive. *)
Lemma getCategoryCounts_spec (ns : list Node.t) (c : string) :
  (c <> UNCATEGORIZED ->
   countOf (getCategoryCounts ns) c = totalOccurrences c ns)
  /\ countOf (getCategoryCounts ns) UNCATEGORIZED
     = (if (0 <? uncategorized ns)%nat then uncategorized ns
        else totalOccurrences UNCATEGORIZED ns)
  /\ (getCategoryCounts ns !! c = None <-> countOf (getCategoryCounts ns) c = 0%nat).
Proof.
  unfold getCategoryCounts.
  pose proof (countNodes_spec ns (∅, 0%nat)) as Hs.
  destruct (fold_left countNode ns (∅, 0%nat)) as [counts unc] eqn:E.
  cbn [fst snd] in Hs.
  assert (Hunc : unc = uncategorized ns) by (destruct (Hs c) as (_ & -> & _); lia).
  assert (Hpos : positiveCounts counts).
  { destruct (Hs c) as (_ & _ & H). apply H. intros k v Hk.
    by rewrite lookup_empty in Hk. }
  assert (Hocc : forall x, countOf counts x = totalOccurrences x ns).
  { intros x. destruct (Hs x) as (-> & _). unfold countOf.
    by rewrite lookup_empty. }
  rewrite <- Hunc. destruct (Nat.ltb_spec 0 unc) as [Hlt|Hge].
  - split; [|split].
    + intros Hne. unfold countOf. rewrite lookup_insert_ne by done. apply Hocc.
    + unfold countOf. by rewrite lookup_insert_eq.
    + unfold countOf. destruct (decide (UNCATEGORIZED = c)) as [<-|Hne].
      * rewrite lookup_insert_eq. cbn. split; [done | lia].
      * rewrite lookup_insert_ne by done.
        destruct (counts !! c) as [k|] eqn:Hk; cbn; [|done].
        specialize (Hpos c k Hk). split; [done | lia].
  - split; [|split].
    + intros _. apply Hocc.
    + apply Hocc.
    + unfold countOf. destruct (counts !! c) as [k|] eqn:Hk; cbn; [|done].
      specialize (Hpos c k Hk). split; [done | lia].
Qed.

Lemma filter_count_NoDup (cs : list string) (c : string) :
  NoDup cs ->
  length (List.filter (fun x => bool_decide (x = c)) cs)
  = if bool_decide (c ∈ cs) then 1%nat else 0%nat.
Proof.
  induction cs as [|x cs IH]; intros Hnd; cbn [List.filter].
  - by rewrite bool_decide_eq_false_2 by apply not_elem_of_nil.
  - apply NoDup_cons in Hnd as [Hx Hnd]. specialize (IH Hnd).
    destruct (decide (x = c)) as [->|Hne].
    + rewrite (bool_decide_eq_true_2 (c = c)) by done. cbn [length].
      rewrite IH, (bool_decide_eq_false_2 (c ∈ cs)) by done.
      by rewrite bool_decide_eq_true_2 by left.
    + rewrite (bool_decide_eq_false_2 (x = c)) by done. rewrite IH.
      destruct (decide (c ∈ cs)) as [Hin|Hnin].
      * rewrite !bool_decide_eq_true_2; [done | by right | done].
      * rewrite !bool_decide_eq_false_2; [done | | done].
        intros [?|?]%elem_of_cons; congruence.
Qed.

Lemma length_filter_sum {A : Type} (p : A -> bool) (l : list A) :
  length (List.filter p l) = sum_list (map (fun x => if p x then 1%nat else 0%nat) l).
Proof.
  induction l as [|x l IH]; [done|]. cbn [List.filter map sum_list_with id].
  destruct (p x); cbn [length]; lia.
Qed.

Lemma plain_uncategorized (ns : list Node.t) :
  plainCategories ns ->
  totalOccurrences UNCATEGORIZED ns = 0%nat
  /\ sum_list (map (fun n => if nodeHasCategory n UNCATEGORIZED
                             then 1%nat else 0%nat) ns)
     = uncategorized ns.
Proof.
  unfold totalOccurrences, uncategorized. rewrite length_filter_sum.
  induction ns as [|n ns IH]; intros Hplain; [done|].
  cbn [map sum_list_with id].
  assert (Hp : plainCategories ns)
    by (intros m cs Hm; apply Hplain; by right).
  destruct (IH Hp) as [I1 I2]. rewrite I1, I2.
  unfold occurrences, nodeHasCategory, hasNoCategories.
  destruct (Node.categories n) as [[|x cs]|] eqn:Hc.
  - cbn [List.filter length]. split; [done|]. by rewrite bool_decide_eq_true_2.
  - destruct (Hplain n (x :: cs)) as [Hnd Hno]; [left | done |].
    rewrite (filter_count_NoDup (x :: cs) UNCATEGORIZED Hnd).
    rewrite !bool_decide_eq_false_2 by done. done.
  - split; [done|]. by rewrite bool_decide_eq_true_2.
Qed.

(** X1.  The count that the legend shows for a category is the number of nodes
    that a click on it selects, when no category list repeats a label or
    holds the label [(uncategorized)]. *)
Theorem legend_count_matches_selection (ns : list Node.t) (c : string) :
  plainCategories ns ->
  countOf (getCategoryCounts ns) c = length (nodesOfCategory c ns).
Proof.
  intros Hplain. unfold nodesOfCategory. rewrite length_filter_sum.
  destruct (getCategoryCounts_spec ns c) as (Hother & Hunc & _).
  destruct (decide (c = UNCATEGORIZED)) as [->|Hne].
  - rewrite Hunc. destruct (plain_uncategorized ns Hplain) as [-> ->].
    destruct (0 <? uncategorized ns)%nat eqn:E; [done|].
    apply Nat.ltb_ge in E. lia.
  - rewrite Hother by done. unfold totalOccurrences. f_equal.
    apply map_ext_in. intros n Hn%list_elem_of_In.
    unfold occurrences, nodeHasCategory.
    destruct (Node.categories n) as [[|x cs]|] eqn:Hc.
    + cbn [List.filter length]. by rewrite bool_decide_eq_false_2.
    + destruct (Hplain n (x :: cs) Hn Hc) as [Hnd _].
      by rewrite (filter_count_NoDup (x :: cs) c Hnd).
    + by rewrite bool_decide_eq_false_2.
Qed.

Lemma graph_categories_plain : plainCategories graph_categories.
Proof.
  intros n cs Hn Hc. apply list_elem_of_In in Hn. cbn in Hn.
  destruct Hn as [<-|[<-|[<-|[<-|[]]]]]; cbn in Hc; try discriminate;
    injection Hc as <-; split; apply (bool_decide_unpack _); vm_compute; exact I.
Qed.

Lemma legend_count_matches_selection_witness :
  countOf (getCategoryCounts graph_categories) "x" = 2%nat
  /\ countOf (getCategoryCounts graph_categories) UNCATEGORIZED = 2%nat.
Proof.
  split.
  - rewrite (legend_count_matches_selection graph_categories "x"
               graph_categories_plain).
    vm_compute. reflexivity.
  - rewrite (legend_count_matches_selection graph_categories UNCATEGORIZED
               graph_categories_plain).
    vm_compute. reflexivity.
Defined.

Lemma occurrences_positive (c : string) (n : Node.t) :
  (1 <= occurrences c n)%nat
  <-> exists cs, Node.categories n = Some cs /\ c ∈ cs.
Proof.
  unfold occurrences. destruct (Node.categories n) as [cs|].
  - assert (H : (1 <= length (List.filter (fun x => bool_decide (x = c)) cs))%nat
                <-> c ∈ cs).
    { induction cs as [|x cs IH]; cbn [List.filter].
      - cbn. split; [lia | intros H; inversion H].
      - rewrite elem_of_cons. case_bool_decide as E; cbn [length].
        + subst. split; [by left | lia].
        + rewrite IH. split; [by right | intros [?|?]; congruence]. }
    rewrite H. split; [intros ?; by exists cs | by intros (cs' & [= <-] & ?)].
  - split; [lia | by intros (cs & ? & _)].
Qed.

Lemma totalOccurrences_positive (c : string) (ns : list Node.t) :
  (1 <= totalOccurrences c ns)%nat
  <-> exists n cs, n ∈ ns /\ Node.categories n = Some cs /\ c ∈ cs.
Proof.
  unfold totalOccurrences. induction ns as [|n ns IH]; cbn [map sum_list_with id].
  - split; [lia | intros (n & cs & H & _); inversion H].
  - split.
    + intros H. destruct (Nat.le_gt_cases 1 (occurrences c n)) as [Hn|Hn].
      * apply occurrences_positive in Hn as (cs & ? & ?).
        exists n, cs. split; [left | done].
      * destruct (proj1 IH) as (m & cs & ? & ?); [lia|].
        exists m, cs. split; [by right | done].
    + intros (m & cs & [->|Hin]%elem_of_cons & Hc & Hcs).
      * assert (1 <= occurrences c n)%nat
          by (apply occurrences_positive; eauto).
        lia.
      * assert (1 <= sum_list (map (occurrences c) ns))%nat
          by (apply IH; eauto).
        lia.
Qed.

(** X2.  The legend lists exactly the non-empty labels that have a count, each
    with a colour of the palette and a positive count. *)
Theorem legend_entries (ns : list Node.t) (c : string) :
  (c ∈ extractCategories ns
   <-> c <> EmptyString /\ (1 <= totalOccurrences c ns)%nat)
  /\ (c ∈ extractCategories ns ->
      (1 <= countOf (getCategoryCounts ns) c)%nat
      /\ exists i, extractCategories ns !! i = Some c
                   /\ createCategoryColorMap (extractCategories ns) !! c
                      = Some (palette_at (i mod 12))).
Proof.
  destruct (extractCategories_spec ns) as (_ & Hnd & Helem).
  assert (Hiff : c ∈ extractCategories ns
                 <-> c <> EmptyString /\ (1 <= totalOccurrences c ns)%nat).
  { rewrite Helem. unfold categoryOf. by rewrite totalOccurrences_positive. }
  split; [done|]. intros Hin. split.
  - destruct (getCategoryCounts_spec ns c) as (Hother & Hunc & _).
    apply Hiff in Hin as [_ Hocc].
    destruct (decide (c = UNCATEGORIZED)) as [->|Hne].
    + rewrite Hunc. destruct (Nat.ltb_spec 0 (uncategorized ns)); lia.
    + by rewrite Hother.
  - apply list_elem_of_lookup in Hin as [i Hi]. exists i. split; [done|].
    unfold createCategoryColorMap.
    by rewrite (colorMap_from_lookup 0 (extractCategories ns) ∅ i c).
Qed.

(** ** Visibility *)

Lemma has_elem (s : gset string) (k : string) : has s k = true <-> k ∈ s.
Proof. unfold has. apply bool_decide_eq_true. Qed.

Lemma isNodeHidden_spec (node : Node.t) (hidden : gset string) :
  isNodeHidden node hidden = true
  <-> exists c, c ∈ hidden /\ nodeHasCategory node c = true.
Proof.
  unfold isNodeHidden, nodeHasCategory.
  destruct (Nat.eqb_spec (size hidden) 0) as [E|E].
  - apply size_empty_iff in E. split; [done|].
    intros (c & Hc & _). apply E in Hc. by apply not_elem_of_empty in Hc.
  - destruct (Node.categories node) as [[|x cs]|].
    + rewrite has_elem. split.
      * intros H. exists UNCATEGORIZED. by rewrite bool_decide_eq_true_2.
      * by intros (c & Hc & ->%bool_decide_eq_true).
    + rewrite existsb_exists. split.
      * intros (c & Hin & Hc%has_elem). exists c. split; [done|].
        apply bool_decide_eq_true. by apply list_elem_of_In.
      * intros (c & Hc & Hin%bool_decide_eq_true). exists c.
        split; [by apply list_elem_of_In | by apply has_elem].
    + rewrite has_elem. split.
      * intros H. exists UNCATEGORIZED. by rewrite bool_decide_eq_true_2.
      * by intros (c & Hc & ->%bool_decide_eq_true).
Qed.

(** X3.  A node is hidden exactly when a hidden category is one that the node
    has, in the sense of [nodeHasCategory]: the nodes that a click on a
    legend entry selects are the nodes that hiding the entry hides.  With no
    hidden category, no node is hidden. *)
Theorem node_hidden_iff (node : Node.t) (hidden : gset string) :
  (isNodeHidden node hidden = true
   <-> exists c, c ∈ hidden /\ nodeHasCategory node c = true)
  /\ (forall c, isNodeHidden node {[ c ]} = nodeHasCategory node c)
  /\ isNodeHidden node ∅ = false.
Proof.
  split; [apply isNodeHidden_spec|]. split; [|done]. intros c.
  apply eq_true_iff_eq. rewrite isNodeHidden_spec. split.
  - by intros (c' & ->%elem_of_singleton & H).
  - intros H. exists c. split; [by apply elem_of_singleton | done].
Qed.

(** ** Neighbours *)

Lemma addConnected_spec (nodeId : string) (es : list Edge.t) (acc : gset string)
    (k : string) :
  k ∈ fold_left (addConnected nodeId) es acc
  <-> k ∈ acc
      \/ exists e, e ∈ es
                   /\ ((Edge.sourceId e = nodeId /\ Edge.targetId e = k)
                       \/ (Edge.sourceId e = k /\ Edge.targetId e = nodeId)).
Proof.
  revert acc. induction es as [|e es IH]; intros acc; cbn [fold_left].
  - split; [by left | intros [?|(e & H & _)]; [done | inversion H]].
  - rewrite IH. unfold addConnected.
    destruct (decide (Edge.sourceId e = nodeId)) as [Hs|Hs].
    + rewrite (bool_decide_eq_true_2 _ Hs).
      rewrite elem_of_union, elem_of_singleton. split.
      * intros [[->|?]|(e' & Hin & H)].
        -- right. exists e. split; [left | by left].
        -- by left.
        -- right. exists e'. split; [by right | done].
      * intros [?|(e' & [->|Hin]%elem_of_cons & H)].
        -- left. by right.
        -- left. left. destruct H as [[_ <-]|[<- Ht]]; [done | congruence].
        -- right. by exists e'.
    + rewrite (bool_decide_eq_false_2 _ Hs).
      destruct (decide (Edge.targetId e = nodeId)) as [Ht|Ht].
      * rewrite (bool_decide_eq_true_2 _ Ht).
        rewrite elem_of_union, elem_of_singleton. split.
        -- intros [[->|?]|(e' & Hin & H)].
           ++ right. exists e. split; [left | by right].
           ++ by left.
           ++ right. exists e'. split; [by right | done].
        -- intros [?|(e' & [->|Hin]%elem_of_cons & H)].
           ++ left. by right.
           ++ left. left. destruct H as [[? _]|[<- _]]; [congruence | done].
           ++ right. by exists e'.
      * rewrite (bool_decide_eq_false_2 _ Ht). split.
        -- intros [?|(e' & Hin & H)]; [by left|].
           right. exists e'. split; [by right | done].
        -- intros [?|(e' & [->|Hin]%elem_of_cons & H)]; [by left | |].
           ++ destruct H as [[? _]|[_ ?]]; congruence.
           ++ right. by exists e'.
Qed.

Lemma List_filter_sublist {A : Type} (p : A -> bool) (l : list A) :
  List.filter p l `sublist_of` l.
Proof.
  induction l as [|x l IH]; cbn [List.filter]; [constructor|].
  destruct (p x); [by apply sublist_skip | by apply sublist_cons].
Qed.

Lemma adjacent_sym (g : GraphData.t) (a b : string) :
  adjacent g a b <-> adjacent g b a.
Proof. unfold adjacent. split; intros (e & He & H); exists e; tauto. Qed.

(** X4.  [getConnectedNodes] returns, in the order of the node array, the nodes
    whose identifier is joined to the given one by an edge in either
    direction: an edge to an identifier that no node has adds nothing, and a
    node with a loop edge is its own neighbour.  Between nodes of the graph
    the relation is symmetric. *)
Theorem connected_nodes (g : GraphData.t) (nodeId : string) :
  (forall n, n ∈ getConnectedNodes g nodeId
             <-> n ∈ GraphData.nodes g /\ adjacent g nodeId (Node.id n))
  /\ getConnectedNodes g nodeId `sublist_of` GraphData.nodes g
  /\ (forall a b, a ∈ GraphData.nodes g -> b ∈ GraphData.nodes g ->
        a ∈ getConnectedNodes g (Node.id b)
        <-> b ∈ getConnectedNodes g (Node.id a)).
Proof.
  assert (Hmem : forall k n, n ∈ getConnectedNodes g k
                   <-> n ∈ GraphData.nodes g /\ adjacent g k (Node.id n)).
  { intros k n. unfold getConnectedNodes.
    rewrite list_elem_of_In, filter_In, <- list_elem_of_In, has_elem.
    rewrite addConnected_spec. unfold adjacent. split.
    - intros [Hn [H|H]]; [by apply not_elem_of_empty in H | done].
    - intros [Hn H]. split; [done | by right]. }
  split; [apply Hmem|]. split.
  - unfold getConnectedNodes. apply List_filter_sublist.
  - intros a b Ha Hb. rewrite !Hmem, (adjacent_sym g (Node.id b)). tauto.
Qed.

(** ** Lookups with and without the index *)

Lemma find_Some_split {A : Type} (p : A -> bool) (l : list A) (x : A) :
  List.find p l = Some x ->
  exists l1 l2, l = l1 ++ x :: l2 /\ p x = true /\ Forall (fun y => p y = false) l1.
Proof.
  induction l as [|y l IH]; cbn [List.find]; [done|].
  destruct (p y) eqn:Hy.
  - intros [= <-]. exists [], l. by repeat split.
  - intros (l1 & l2 & -> & Hx & Hl1)%IH. exists (y :: l1), l2.
    split; [done|]. split; [done | by constructor].
Qed.

Lemma find_None_iff {A : Type} (p : A -> bool) (l : list A) :
  List.find p l = None <-> forall x, x ∈ l -> p x = false.
Proof.
  induction l as [|y l IH]; cbn [List.find].
  - split; [intros _ x H; inversion H | done].
  - destruct (p y) eqn:Hy.
    + split; [done|]. intros H. specialize (H y). rewrite Hy in H.
      discriminate H. left.
    + rewrite IH. split.
      * intros H x [->|Hx]%elem_of_cons; [done | by apply H].
      * intros H x Hx. apply H. by right.
Qed.

(** X5.  In a graph whose node identifiers are distinct, the lookup of a node
    through the index and the scan of the node array give the same answer:
    the node with that identifier, or nothing when no node has it. *)
Theorem node_lookup_agrees (g : GraphData.t) (id : string) :
  NoDup (map Node.id (GraphData.nodes g)) ->
  getNodeById g id None = getNodeById g id (Some (buildGraphIndex g))
  /\ (forall n, getNodeById g id None = Some n
                <-> n ∈ GraphData.nodes g /\ Node.id n = id)
  /\ (getNodeById g id None = None
      <-> forall n, n ∈ GraphData.nodes g -> Node.id n <> id).
Proof.
  intros Hnd. cbn [getNodeById buildGraphIndex nodeById].
  change (fold_left _ (GraphData.nodes g) ∅)
    with (index_by Node.id (GraphData.nodes g) ∅).
  set (scan := List.find (fun n => bool_decide (Node.id n = id)) (GraphData.nodes g)).
  assert (Hnone : scan = None
                  <-> forall n, n ∈ GraphData.nodes g -> Node.id n <> id).
  { unfold scan. rewrite find_None_iff. split; intros H n Hn.
    - apply (proj1 (bool_decide_eq_false _)). by apply H.
    - apply bool_decide_eq_false. by apply H. }
  assert (Hsome : forall n, n ∈ GraphData.nodes g -> Node.id n = id ->
                    index_by Node.id (GraphData.nodes g) ∅ !! id = Some n).
  { intros n Hn <-.
    destruct (NoDup_key_split Node.id _ _ Hnd Hn) as (l1 & l2 & -> & Hl2).
    by apply index_by_last. }
  assert (Hscan : forall n, scan = Some n
                    -> n ∈ GraphData.nodes g /\ Node.id n = id).
  { intros n (l1 & l2 & Hl & Hp & _)%find_Some_split.
    apply bool_decide_eq_true in Hp. split; [|done].
    rewrite Hl. apply elem_of_app. right. left. }
  split; [|split; [|done]].
  - destruct scan as [n|] eqn:Hs.
    + destruct (Hscan n eq_refl) as [Hn Hid]. symmetry. by apply Hsome.
    + symmetry. rewrite index_by_other; [apply lookup_empty|].
      apply Forall_forall. intros n Hn. by apply (proj1 Hnone).
  - intros n. split; [apply Hscan|]. intros [Hn Hid].
    destruct scan as [m|] eqn:Hs.
    + destruct (Hscan m eq_refl) as [Hm Hmid].
      pose proof (Hsome n Hn Hid) as H1. pose proof (Hsome m Hm Hmid) as H2.
      congruence.
    + exfalso. by apply (proj1 Hnone eq_refl n Hn).
Qed.

Lemma node_lookup_agrees_witness :
  getNodeById graph_ab "b" None = getNodeById graph_ab "b" (Some (buildGraphIndex graph_ab))
  /\ getNodeById graph_ab "zz" None = None.
Proof.
  assert (Hnd : NoDup (map Node.id (GraphData.nodes graph_ab)))
    by (apply (bool_decide_unpack _); vm_compute; exact I).
  split.
  - exact (proj1 (node_lookup_agrees graph_ab "b" Hnd)).
  - vm_compute. reflexivity.
Defined.

(** Keys made from sources without the delimiter determine their parts. *)
Lemma createEdgeId_inj (s1 t1 s2 t2 : string) :
  ~ contains s1 EDGE_ID_DELIMITER -> ~ contains s2 EDGE_ID_DELIMITER ->
  createEdgeId s1 t1 = createEdgeId s2 t2 -> s1 = s2 /\ t1 = t2.
Proof.
  intros H1 H2 Heq.
  pose proof (search_createEdgeId s1 t1 H1) as E1.
  pose proof (search_createEdgeId s2 t2 H2) as E2.
  rewrite Heq, E2 in E1. injection E1 as Hlen.
  assert (Hs : s1 = s2).
  { rewrite <- (string_take_app s1 (EDGE_ID_DELIMITER +:+ t1)).
    rewrite <- (string_take_app s2 (EDGE_ID_DELIMITER +:+ t2)).
    unfold createEdgeId in Heq. by rewrite Heq, Hlen. }
  split; [done|]. subst s2. unfold createEdgeId in Heq.
  apply (inj (String.app s1)) in Heq. by apply (inj (String.app _)) in Heq.
Qed.

(** X6.  In a graph whose edges have distinct composite keys and whose source
    identifiers do not contain the delimiter, the lookup of an edge through
    the index and the scan of the edge array give the same answer, for any
    source identifier without the delimiter. *)
Theorem edge_lookup_agrees (g : GraphData.t) (sourceId targetId : string) :
  NoDup (map edgeKey (GraphData.edges g)) ->
  (forall e, e ∈ GraphData.edges g ->
             ~ contains (Edge.sourceId e) EDGE_ID_DELIMITER) ->
  ~ contains sourceId EDGE_ID_DELIMITER ->
  getEdgeByIds g sourceId targetId None
  = getEdgeByIds g sourceId targetId (Some (buildGraphIndex g)).
Proof.
  intros Hnd Hsrc Hs. cbn [getEdgeByIds buildGraphIndex edgeByKey].
  change (fold_left _ (GraphData.edges g) ∅)
    with (index_by edgeKey (GraphData.edges g) ∅).
  fold (createEdgeId sourceId targetId).
  destruct (List.find _ (GraphData.edges g)) as [e|] eqn:Hscan.
  - apply find_Some_split in Hscan as (l1 & l2 & Hl & Hp & _).
    apply andb_true_iff in Hp as [<-%bool_decide_eq_true <-%bool_decide_eq_true].
    assert (He : e ∈ GraphData.edges g)
      by (rewrite Hl; apply elem_of_app; right; left).
    destruct (NoDup_key_split edgeKey _ _ Hnd He) as (k1 & k2 & -> & Hk2).
    symmetry. by apply (index_by_last edgeKey).
  - symmetry. rewrite index_by_other; [apply lookup_empty|].
    apply Forall_forall. intros e He Hkey.
    destruct (createEdgeId_inj _ _ _ _ (Hsrc e He) Hs Hkey) as [E1 E2].
    apply (proj1 (find_None_iff _ _) Hscan) in He.
    apply andb_false_iff in He as [H|H]; apply bool_decide_eq_false in H; done.
Qed.

Lemma edge_lookup_agrees_witness :
  getEdgeByIds graph_ab "a" "b" None
  = getEdgeByIds graph_ab "a" "b" (Some (buildGraphIndex graph_ab)).
Proof.
  apply edge_lookup_agrees.
  - apply (bool_decide_unpack _). vm_compute. exact I.
  - intros e He. apply list_elem_of_In in He. cbn in He.
    destruct He as [<-|[]]. apply search_is_None. reflexivity.
  - apply search_is_None. reflexivity.
Defined.

(** ** Further properties of the hook *)

Lemma effectInit_engine (graphData : option GraphData.t)
    (o : UseForceGraphOptions) (st : HookState) :
  stableMatchesEngine (effectInit graphData o st).
Proof.
  unfold stableMatchesEngine, simulationRunning.
  assert (Hcases : emptyGraph graphData
                   \/ exists g, graphData = Some g /\ GraphData.nodes g <> []).
  { destruct graphData as [g|]; [|by left]. cbn [emptyGraph].
    destruct (GraphData.nodes g) eqn:E; [by left|].
    right. exists g. split; [done|]. by rewrite E. }
  destruct Hcases as [He|(g & -> & Hne)].
  - by destruct (effectInit_empty graphData o st He) as (-> & _ & _ & -> & _).
  - rewrite (effectInit_simulationRef g o st Hne). cbn [newSimulation running negb].
    unfold effectInit, setIsStable, dropSimulation, cancelPendingFrame.
    destruct (GraphData.nodes g) as [|n ns]; [done|]. cbn [length Nat.eqb].
    hook_cases; try reflexivity.
    all: by match goal with H : Bool.eqb _ false = true |- _ =>
              apply Bool.eqb_prop in H end.
Qed.

Lemma effectParams_engine (p : ForceParams) (st : HookState) :
  stableMatchesEngine st -> stableMatchesEngine (effectParams p st).
Proof.
  unfold stableMatchesEngine, simulationRunning, effectParams, setIsStable.
  intros H. destruct (simulationRef st) as [sim|] eqn:Hs; [|by rewrite Hs].
  destruct (isRadialRef st); [by rewrite Hs|].
  hook_cases; cbn [applyParams running negb]; try reflexivity.
  by match goal with H : Bool.eqb _ false = true |- _ =>
       apply Bool.eqb_prop in H end.
Qed.

Lemma frameCallbacks_engine (queue : list nat) (st : HookState) :
  simulationRef (fold_left (fun st _ => frameCallback st) queue st)
  = simulationRef st
  /\ isStableState (fold_left (fun st _ => frameCallback st) queue st)
     = isStableState st.
Proof.
  revert st. induction queue as [|h queue IH]; intros st; [done|].
  cbn [fold_left]. by destruct (IH (frameCallback st)) as [-> ->].
Qed.

Lemma displayFrame_engine (st : HookState) :
  stableMatchesEngine st -> stableMatchesEngine (displayFrame st).
Proof.
  unfold stableMatchesEngine, simulationRunning, displayFrame.
  by destruct (frameCallbacks_engine (frameQueue st)
                 (set_frames [] (lastFrameHandle st) st)) as [-> ->].
Qed.

Lemma reactRender_engine (st : HookState) :
  stableMatchesEngine st -> stableMatchesEngine (reactRender st).
Proof.
  unfold stableMatchesEngine, simulationRunning.
  by destruct (reactRender_fields st) as (-> & _ & _ & _ & _ & -> & _).
Qed.

Lemma effectInit_requests_render (graphData : option GraphData.t)
    (o : UseForceGraphOptions) (st : HookState) :
  renderRequested (effectInit graphData o st) = true.
Proof.
  unfold effectInit. destruct graphData as [g|]; [|done].
  by destruct (Nat.eqb (length (GraphData.nodes g)) 0).
Qed.

Lemma setIsStable_shown (v : bool) (st : HookState) :
  stableShown st -> stableShown (setIsStable v st).
Proof.
  unfold setIsStable. destruct (Bool.eqb (isStableState st) v); [done|].
  intros _. by left.
Qed.

Lemma effectParams_shown (p : ForceParams) (st : HookState) :
  stableShown st -> stableShown (effectParams p st).
Proof.
  unfold effectParams. destruct (simulationRef st) as [sim|]; [|done].
  destruct (isRadialRef st); [done|]. intros H. by apply setIsStable_shown.
Qed.

Lemma frameCallbacks_shown (queue : list nat) (st : HookState) :
  stableShown st ->
  stableShown (fold_left (fun st _ => frameCallback st) queue st).
Proof.
  revert st. induction queue as [|h queue IH]; intros st H; [done|].
  cbn [fold_left]. apply IH. by left.
Qed.

Lemma displayFrame_shown (st : HookState) :
  stableShown st -> stableShown (displayFrame st).
Proof. intros H. unfold displayFrame. by apply frameCallbacks_shown. Qed.

Lemma reactRender_shown (st : HookState) :
  stableShown st ->
  option_map isStable (head (rendered (reactRender st)))
  = Some (isStableState (reactRender st)).
Proof.
  intros H. destruct (reactRender_fields st)
    as (_ & _ & _ & _ & _ & -> & _ & _ & _ & ->).
  unfold stableShown in H.
  destruct (renderRequested st); [done|]. by destruct H.
Qed.

Section EngineFurther.
Variable integrate : Simulation -> list D3Link.t -> list D3Node.t -> list D3Node.t.
Variable decay : Q -> Q.
Variable alphaMin : Q.

Local Abbreviation handleE := (handle integrate decay alphaMin).
Local Abbreviation runE := (run integrate decay alphaMin).
Local Abbreviation timerStepE := (timerStep integrate decay alphaMin).
Local Abbreviation tickedE := (ticked integrate decay).

Lemma onTick_engine (st : HookState) :
  simulationRef (onTick st) = simulationRef st
  /\ isStableState (onTick st) = isStableState st.
Proof.
  unfold onTick, requestAnimationFrame.
  destruct (Nat.eqb (rafIdRef st) 0); by hook_simpl.
Qed.

Lemma timerStep_engine (st : HookState) :
  stableMatchesEngine st -> stableMatchesEngine (timerStepE st).
Proof.
  intros H. destruct (simulationRef st) as [sim|] eqn:Hs.
  2: { by rewrite (timerStep_no_simulation integrate decay alphaMin st Hs). }
  destruct (running sim) eqn:Hr.
  2: { rewrite (timerStep_idle integrate decay alphaMin st); [done|].
       intros s Hs'. rewrite Hs in Hs'. by injection Hs' as <-. }
  rewrite (timerStep_running integrate decay alphaMin st sim Hs Hr).
  unfold stableMatchesEngine, simulationRunning in *. rewrite Hs, Hr in H.
  destruct (onTick_engine (tickedE sim st)) as [T1 T2].
  destruct (Qgtb alphaMin (decay (alpha sim))).
  - destruct (onEnd_fields (stopSimulation (onTick (tickedE sim st))))
      as (_ & _ & _ & _ & _ & _ & -> & _).
    unfold onEnd, setIsStable, stopSimulation. rewrite T1.
    cbn [ticked simulationRef set_nodesRef set_simulationRef].
    hook_cases; reflexivity.
  - rewrite T1, T2. cbn [ticked simulationRef isStableState set_nodesRef
                         set_simulationRef cool running].
    by rewrite Hr.
Qed.

Lemma timerStep_shown (st : HookState) :
  stableShown st -> stableShown (timerStepE st).
Proof.
  intros H. destruct (simulationRef st) as [sim|] eqn:Hs.
  2: { by rewrite (timerStep_no_simulation integrate decay alphaMin st Hs). }
  destruct (running sim) eqn:Hr.
  2: { rewrite (timerStep_idle integrate decay alphaMin st); [done|].
       intros s Hs'. rewrite Hs in Hs'. by injection Hs' as <-. }
  rewrite (timerStep_running integrate decay alphaMin st sim Hs Hr).
  destruct (Qgtb alphaMin (decay (alpha sim))).
  - left. by destruct (onEnd_fields (stopSimulation (onTick (tickedE sim st))))
      as (_ & _ & _ & _ & _ & _ & _ & ->).
  - unfold stableShown, onTick, requestAnimationFrame, ticked in *.
    destruct (Nat.eqb (rafIdRef _) 0); by hook_simpl.
Qed.

Lemma handle_engine (ev : Event) (st : HookState) :
  stableMatchesEngine st -> stableMatchesEngine (handleE ev st).
Proof.
  intros H. unfold handle. apply reactRender_engine.
  destruct ev as [| |p|g o].
  - by apply timerStep_engine.
  - by apply displayFrame_engine.
  - by apply effectParams_engine.
  - apply effectInit_engine.
Qed.

Lemma handle_shown (ev : Event) (st : HookState) :
  stableShown st ->
  option_map isStable (head (rendered (handleE ev st)))
  = Some (isStableState (handleE ev st)).
Proof.
  intros H. unfold handle. apply reactRender_shown.
  destruct ev as [| |p|g o].
  - by apply timerStep_shown.
  - by apply displayFrame_shown.
  - by apply effectParams_shown.
  - left. apply effectInit_requests_render.
Qed.

Lemma run_engine (evs : list Event) (st : HookState) :
  stableMatchesEngine st ->
  option_map isStable (head (rendered st)) = Some (isStableState st) ->
  stableMatchesEngine (runE evs st)
  /\ option_map isStable (head (rendered (runE evs st)))
     = Some (isStableState (runE evs st)).
Proof.
  revert st. induction evs as [|ev evs IH]; intros st H1 H2; [done|].
  cbn [run fold_left]. apply IH.
  - by apply handle_engine.
  - apply handle_shown. by right.
Qed.

(** X7.  In every state the hook can reach, the value that the component last
    received reports [isStable] exactly when no simulation is running: it is
    false from the construction of a simulation and from a reheat until the
    simulation has cooled down, and true for an empty layout. *)
Theorem stable_iff_not_running (graphData : option GraphData.t)
    (o : UseForceGraphOptions) (evs : list Event) :
  let st := runE evs (mount graphData o) in
  exists r, head (rendered st) = Some r
            /\ isStable r = negb (simulationRunning st).
Proof.
  cbn zeta.
  assert (H : stableMatchesEngine (runE evs (mount graphData o))
              /\ option_map isStable (head (rendered (runE evs (mount graphData o))))
                 = Some (isStableState (runE evs (mount graphData o)))).
  { apply run_engine; unfold mount.
    - apply reactRender_engine, effectParams_engine, effectInit_engine.
    - apply reactRender_shown, effectParams_shown. left.
      apply effectInit_requests_render. }
  destruct H as [H1 H2].
  destruct (head (rendered _)) as [r|]; [|done].
  exists r. split; [done|]. cbn [option_map] in H2. injection H2 as ->.
  exact H1.
Qed.

Lemma effectInitCleanup_stopped (st : HookState) :
  renderRequested (effectInitCleanup st) = renderRequested st
  /\ rendered (effectInitCleanup st) = rendered st
  /\ nodesRef (effectInitCleanup st) = nodesRef st
  /\ linksRef (effectInitCleanup st) = linksRef st
  /\ isStableState (effectInitCleanup st) = isStableState st
  /\ (forall sim, simulationRef (effectInitCleanup st) = Some sim ->
        running sim = false).
Proof.
  unfold effectInitCleanup, stopSimulation, cancelPendingFrame.
  hook_cases; repeat split; try done.
  all: intros sim0; hook_simpl; try congruence.
  all: by intros [= <-].
Qed.

(** X8.  After the clean-up of the initialisation effect (a change of graph,
    size or mode, or the unmount) has run on a state the hook can reach,
    no frame callback is pending and the timer is stopped: neither a timer
    event nor a display frame changes anything, so nothing is rendered for
    a layout that was torn down.  The arrays and the renders made so far
    are kept. *)
Theorem cleanup_quiesces (graphData : option GraphData.t)
    (o : UseForceGraphOptions) (evs later : list Event) :
  let st := runE evs (mount graphData o) in
  let st' := effectInitCleanup st in
  (frameQueue st' = [] /\ rafIdRef st' = 0%nat)
  /\ (nodesRef st' = nodesRef st /\ linksRef st' = linksRef st
      /\ rendered st' = rendered st)
  /\ (Forall (fun ev => ev = EvTimer \/ ev = EvFrame) later ->
      runE later st' = st').
Proof.
  cbn zeta. set (st := runE evs (mount graphData o)).
  assert (Hc : framesCoalesced st).
  { apply framesCoalesced_run, framesCoalesced_mount. }
  destruct Hc as (Hq & _ & Hrr).
  destruct (effectInitCleanup_frames st Hq) as (F1 & F2 & _).
  destruct (effectInitCleanup_stopped st) as (S1 & S2 & S3 & S4 & _ & S6).
  rewrite Hrr in S1.
  split; [done|]. split; [done|].
  induction 1 as [|ev later [-> | ->] _ IH]; [done| |]; cbn [run fold_left].
  - replace (handleE EvTimer (effectInitCleanup st)) with (effectInitCleanup st);
      [exact IH|].
    unfold handle. rewrite timerStep_idle by exact S6.
    by rewrite reactRender_idle.
  - replace (handleE EvFrame (effectInitCleanup st)) with (effectInitCleanup st);
      [exact IH|].
    unfold handle. rewrite displayFrame_idle by exact F1.
    by rewrite reactRender_idle.
Qed.

End EngineFurther.

(** ** Radial rings *)

Lemma Qmin_le (a b c : Q) : (c <= a)%Q -> (c <= b)%Q -> (c <= Qmin a b)%Q.
Proof. unfold Qmin. by destruct (Qle_bool a b). Qed.

Lemma radiusPerLevel_spec (w h : Q) (maxLevel : Q) :
  (0 < maxLevel)%Q ->
  (computeRadiusPerLevel w h true maxLevel * maxLevel
   == Qmin w h / 2 - 80)%Q.
Proof.
  intros H. unfold computeRadiusPerLevel.
  assert (Qgtb maxLevel 0 = true) as -> by (by apply Qgtb_true).
  cbn [andb]. field. lra.
Qed.

(** X9.  In radial mode every ring fits the canvas, in the exact arithmetic
    of the model (the rounding of binary64 is not modelled): with a viewport
    of at least 160 units on both sides, a node without level field is
    placed on the outermost ring, of radius [min(width, height) / 2 - 80],
    and a node whose level is [null] at the centre; a node of the graph
    whose level is a number that is not negative gets a radius between 0 and
    that of the outermost ring; and a higher level never gets a smaller
    radius. *)
Theorem radial_rings_fit (g : GraphData.t) (o : UseForceGraphOptions) :
  radialLayout o = true ->
  (160 <= width o)%Q -> (160 <= height o)%Q ->
  exists force,
    radial (newSimulation g o) = Some force
    /\ (forall d, Node.level (D3Node.node d) = None ->
          (radial_radius force d == Qmin (width o) (height o) / 2 - 80)%Q)
    /\ (forall d, Node.level (D3Node.node d) = Some LevelNull ->
          (radial_radius force d == 0)%Q)
    /\ (forall d l,
          D3Node.node d ∈ GraphData.nodes g ->
          Node.level (D3Node.node d) = Some (LevelNumber l) -> (0 <= l)%Q ->
          (0 <= radial_radius force d
           /\ radial_radius force d <= Qmin (width o) (height o) / 2 - 80)%Q)
    /\ (forall d1 d2 l1 l2,
          Node.level (D3Node.node d1) = Some (LevelNumber l1) ->
          Node.level (D3Node.node d2) = Some (LevelNumber l2) ->
          (l1 <= l2)%Q ->
          (radial_radius force d1 <= radial_radius force d2)%Q).
Proof.
  intros Hr Hw Hh. unfold newSimulation. rewrite Hr. cbn [radial].
  eexists. split; [done|]. cbn [radial_radius].
  unfold computeMaxLevel.
  destruct (observedMaxLevel_spec (GraphData.nodes g)) as (M1 & M2 & _).
  set (M := observedMaxLevel (GraphData.nodes g)) in *.
  pose proof (radiusPerLevel_spec (width o) (height o) (M + 1)) as Hrpl.
  set (rpl := computeRadiusPerLevel (width o) (height o) true (M + 1)) in *.
  assert (HR : (0 <= Qmin (width o) (height o) / 2 - 80)%Q).
  { pose proof (Qmin_le (width o) (height o) 160 Hw Hh) as Hm.
    revert Hm. generalize (Qmin (width o) (height o)). intros m Hm.
    unfold Qdiv. change (/ 2)%Q with (1 # 2)%Q. lra. }
  set (R := (Qmin (width o) (height o) / 2 - 80)%Q) in *.
  assert (Hrpl' : (rpl * (M + 1) == R)%Q) by (apply Hrpl; lra).
  assert (Hpos : (0 <= rpl)%Q).
  { destruct (Qlt_le_dec rpl 0) as [Hneg|]; [|done]. nra. }
  split; [|split; [|split]].
  - intros d Hd. unfold radialRadius. rewrite Hd. lra.
  - intros d Hd. unfold radialRadius. rewrite Hd. cbn [levelNumber]. lra.
  - intros d l Hin Hl Hl0. unfold radialRadius. rewrite Hl. cbn [levelNumber].
    pose proof (M2 _ _ Hin Hl). nra.
  - intros d1 d2 l1 l2 H1 H2 Hle. unfold radialRadius. rewrite H1, H2.
    cbn [levelNumber]. nra.
Qed.

Lemma radial_rings_fit_witness :
  exists force,
    radial (newSimulation graph_levels exampleRadialOptions) = Some force
    /\ (forall d, Node.level (D3Node.node d) = None ->
          (radial_radius force d == 220)%Q).
Proof.
  destruct (radial_rings_fit graph_levels exampleRadialOptions eq_refl)
    as (force & Hf & Hout & _).
  - vm_compute. discriminate.
  - vm_compute. discriminate.
  - exists force. split; [exact Hf|]. intros d Hd.
    rewrite (Hout d Hd). vm_compute. reflexivity.
Defined.

(** ** Selection *)

Lemma fold_set_add_spec (l acc : list string) :
  NoDup acc ->
  NoDup (fold_left set_add l acc)
  /\ forall c, c ∈ fold_left set_add l acc <-> c ∈ acc \/ c ∈ l.
Proof.
  revert acc. induction l as [|x l IH]; intros acc Hnd; cbn [fold_left].
  - split; [done|]. intros c. split; [by left|]. intros [H|H]; [done|].
    inversion H.
  - destruct (set_add_spec acc x Hnd) as [H1 H2].
    destruct (IH _ H1) as [I1 I2]. split; [done|].
    intros c. rewrite I2, H2, elem_of_cons. tauto.
Qed.

Lemma fold_set_add_extends (l acc : list string) :
  exists extra,
    fold_left set_add l acc = acc ++ extra /\ forall c, c ∈ extra -> c ∈ l.
Proof.
  revert acc. induction l as [|x l IH]; intros acc; cbn [fold_left].
  - exists []. split; [by rewrite app_nil_r|]. intros c H. inversion H.
  - destruct (IH (set_add acc x)) as (extra & -> & Hex). unfold set_add.
    case_bool_decide.
    + exists extra. split; [done|]. intros c Hc. right. by apply Hex.
    + exists (x :: extra). split; [by rewrite <- app_assoc|].
      intros c [->|Hc]%elem_of_cons; [left | right; by apply Hex].
Qed.

Lemma fold_set_add_fresh (l acc : list string) :
  NoDup (acc ++ l) -> fold_left set_add l acc = acc ++ l.
Proof.
  revert acc. induction l as [|x l IH]; intros acc Hnd; cbn [fold_left].
  - by rewrite app_nil_r.
  - assert (Hx : x ∉ acc).
    { apply NoDup_app in Hnd as (_ & Hd & _). intros Hx.
      apply (Hd x Hx). left. }
    unfold set_add. rewrite bool_decide_eq_false_2 by done.
    rewrite IH; rewrite <- app_assoc; done.
Qed.

Lemma distinct_NoDup (l : list string) : NoDup l -> distinct l = l.
Proof. intros H. unfold distinct. by rewrite fold_set_add_fresh. Qed.

Lemma nodeTypeFor_None (ids : list string) : nodeTypeFor ids = None <-> ids = [].
Proof. unfold nodeTypeFor. by destruct ids. Qed.

Lemma nodeTypeFor_not_edge (ids : list string) :
  nodeTypeFor ids <> Some SelectionType.edge.
Proof. unfold nodeTypeFor. by destruct ids. Qed.

Lemma selectionReducer_consistent (s : SelectionState.t) (a : SelectionAction) :
  consistentSelection s
  /\ (SelectionState.type s = Some SelectionType.edge ->
      exists id, SelectionState.ids s = [id]) ->
  consistentSelection (selectionReducer s a)
  /\ (SelectionState.type (selectionReducer s a) = Some SelectionType.edge ->
      exists id, SelectionState.ids (selectionReducer s a) = [id]).
Proof.
  intros Hs. unfold consistentSelection.
  destruct a as [p|p|p|p|p|p|]; cbn [selectionReducer].
  - cbn. split; [split; done | done].
  - cbn [SelectionState.type SelectionState.ids].
    split; [apply nodeTypeFor_None|]. intros H.
    by apply nodeTypeFor_not_edge in H.
  - destruct p as [|x p]; [exact Hs|]. cbn [length Nat.eqb].
    cbn [SelectionState.type SelectionState.ids]. split; [|done].
    split; [done|]. intros Hnil. exfalso.
    match type of Hnil with distinct ?l = _ =>
      assert (Hx : x ∈ distinct l) end.
    { apply fold_set_add_spec; [constructor|]. right.
      apply elem_of_app. right. left. }
    rewrite Hnil in Hx. inversion Hx.
  - destruct (negb _ || _); [exact Hs|].
    cbn [SelectionState.type SelectionState.ids].
    split; [apply nodeTypeFor_None|]. intros H.
    by apply nodeTypeFor_not_edge in H.
  - destruct (negb _).
    + cbn. split; [split; done | done].
    + cbn [SelectionState.type SelectionState.ids].
      split; [apply nodeTypeFor_None|]. intros H.
      by apply nodeTypeFor_not_edge in H.
  - cbn. split; [split; done|]. intros _. by exists p.
  - cbn. split; [split; done | done].
Qed.

(** X10.  Whatever actions are dispatched, the selection's type is null exactly
    when no identifier is selected, and an edge selection holds exactly one
    identifier. *)
Theorem selection_type_tracks_ids (actions : list SelectionAction) :
  let s := dispatchAll actions SelectionContext.initialState in
  (SelectionState.type s = None <-> SelectionState.ids s = [])
  /\ (SelectionState.type s = Some SelectionType.edge ->
      exists id, SelectionState.ids s = [id]).
Proof.
  cbn zeta. unfold dispatchAll.
  assert (H0 : consistentSelection SelectionContext.initialState
               /\ (SelectionState.type SelectionContext.initialState
                   = Some SelectionType.edge ->
                   exists id, SelectionState.ids SelectionContext.initialState
                              = [id])) by done.
  revert H0. generalize SelectionContext.initialState.
  induction actions as [|a actions IH]; intros s Hs; [exact Hs|].
  cbn [fold_left]. apply IH. by apply selectionReducer_consistent.
Qed.

Lemma filter_negb_has_app (payload ids extra : list string) :
  (forall id, id ∈ ids -> id ∉ payload) ->
  (forall id, id ∈ extra -> id ∈ payload) ->
  List.filter (fun id => negb (has (list_to_set payload : gset string) id))
              (ids ++ extra) = ids.
Proof.
  intros Hids Hextra. rewrite List.filter_app.
  assert (H1 : List.filter
                 (fun id => negb (has (list_to_set payload : gset string) id)) ids
               = ids).
  { clear Hextra. induction ids as [|x ids IH]; [done|]. cbn [List.filter].
    assert (Hx : has (list_to_set payload : gset string) x = false).
    { apply not_true_is_false. rewrite has_elem, elem_of_list_to_set.
      apply Hids. left. }
    rewrite Hx. cbn [negb]. f_equal. apply IH. intros id Hid. apply Hids.
    by right. }
  assert (H2 : List.filter
                 (fun id => negb (has (list_to_set payload : gset string) id)) extra
               = []).
  { clear Hids H1. induction extra as [|x extra IH]; [done|]. cbn [List.filter].
    assert (Hx : has (list_to_set payload : gset string) x = true).
    { rewrite has_elem, elem_of_list_to_set. apply Hextra. left. }
    rewrite Hx. cbn [negb]. apply IH. intros id Hid. apply Hextra. by right. }
  by rewrite H1, H2, app_nil_r.
Qed.

(** X11.  Adding nodes to a selection makes a node selection of the distinct
    identifiers of the old node selection and of the payload, the old ones
    first.  Removing from a node selection keeps, in order, the identifiers
    that are not in the payload.  On a selection of distinct nodes, adding
    identifiers that are not selected and removing them again gives back the
    selection. *)
Theorem add_remove_nodes (s : SelectionState.t) (payload : list string) :
  payload <> [] ->
  let added := selectionReducer s (ADD_NODES payload) in
  (SelectionState.type added = Some SelectionType.node
   /\ NoDup (SelectionState.ids added)
   /\ (forall id, id ∈ SelectionState.ids added
                  <-> (isNodeType (SelectionState.type s) = true
                       /\ id ∈ SelectionState.ids s)
                      \/ id ∈ payload))
  /\ (SelectionState.type s = Some SelectionType.node ->
      forall id, id ∈ SelectionState.ids (selectionReducer s (REMOVE_NODES payload))
                 <-> id ∈ SelectionState.ids s /\ id ∉ payload)
  /\ (SelectionState.type s = Some SelectionType.node ->
      SelectionState.ids s <> [] ->
      NoDup (SelectionState.ids s) ->
      (forall id, id ∈ SelectionState.ids s -> id ∉ payload) ->
      selectionReducer added (REMOVE_NODES payload) = s).
Proof.
  intros Hp. cbn zeta. cbn [selectionReducer].
  destruct payload as [|p0 payload]; [done|]. cbn [length Nat.eqb orb].
  set (pl := p0 :: payload) in *.
  split; [|split].
  - cbn [SelectionState.type SelectionState.ids]. split; [done|].
    destruct (fold_set_add_spec
                ((if isNodeType (SelectionState.type s)
                  then SelectionState.ids s else []) ++ pl) [])
      as [H1 H2]; [constructor|].
    split; [exact H1|]. intros id. unfold distinct. rewrite H2, elem_of_app.
    destruct (isNodeType (SelectionState.type s)).
    + split; [intros [H|[H|H]]; [inversion H | by left; split | by right]|].
      intros [[_ H]|H]; right; [by left | by right].
    + split; [intros [H|[H|H]]; [inversion H | inversion H | by right]|].
      intros [[H _]|H]; [done | right; by right].
  - intros Ht id. rewrite Ht. cbn [isNodeType negb orb SelectionState.ids].
    rewrite list_elem_of_In, filter_In, <- list_elem_of_In.
    rewrite negb_true_iff. split.
    + intros [H1 H2]. split; [done|]. intros Hin.
      apply not_true_iff_false in H2. apply H2.
      by rewrite has_elem, elem_of_list_to_set.
    + intros [H1 H2]. split; [done|]. apply not_true_is_false.
      by rewrite has_elem, elem_of_list_to_set.
  - intros Ht Hne Hnd Hdisj. rewrite Ht.
    cbn [isNodeType negb orb SelectionState.type SelectionState.ids].
    unfold distinct. rewrite fold_left_app.
    fold (distinct (SelectionState.ids s)). rewrite (distinct_NoDup _ Hnd).
    destruct (fold_set_add_extends pl (SelectionState.ids s))
      as (extra & -> & Hextra).
    rewrite (filter_negb_has_app pl _ _ Hdisj Hextra).
    destruct s as [ty ids]. cbn in *. subst ty. f_equal.
    unfold nodeTypeFor. by destruct ids.
Qed.

Lemma add_remove_nodes_witness :
  selectionReducer (selectionReducer selection_ab (ADD_NODES ["c"; "d"; "c"]))
                   (REMOVE_NODES ["c"; "d"; "c"])
  = selection_ab.
Proof.
  assert (Hp : ["c"; "d"; "c"] <> ([] : list string)) by discriminate.
  apply (proj2 (proj2 (add_remove_nodes selection_ab ["c"; "d"; "c"] Hp))).
  - reflexivity.
  - discriminate.
  - apply (bool_decide_unpack _). vm_compute. exact I.
  - intros id Hid. apply (bool_decide_unpack _).
    apply list_elem_of_In in Hid. cbn in Hid.
    destruct Hid as [<-|[<-|[]]]; vm_compute; exact I.
Defined.

Lemma filter_neq_absent (id : string) (ids : list string) :
  id ∉ ids ->
  List.filter (fun x => negb (bool_decide (x = id))) ids = ids.
Proof.
  induction ids as [|x ids IH]; [done|]. intros Hid. cbn [List.filter].
  rewrite bool_decide_eq_false_2.
  - cbn [negb]. f_equal. apply IH. intros H. apply Hid. by right.
  - intros ->. apply Hid. left.
Qed.

Lemma filter_neq_present (id : string) (ids : list string) :
  NoDup ids -> id ∈ ids ->
  (id ∉ List.filter (fun x => negb (bool_decide (x = id))) ids)
  /\ ids ≡ₚ List.filter (fun x => negb (bool_decide (x = id))) ids ++ [id].
Proof.
  intros Hnd Hin. split.
  - rewrite list_elem_of_In, filter_In, negb_true_iff.
    intros [_ H]. by apply bool_decide_eq_false in H.
  - apply list_elem_of_split in Hin as (l1 & l2 & ->).
    apply NoDup_app in Hnd as (_ & Hd & Hnd2).
    apply NoDup_cons in Hnd2 as [Hx2 _].
    assert (Hx1 : id ∉ l1) by (intros H; apply (Hd id H); left).
    rewrite List.filter_app. cbn [List.filter].
    rewrite bool_decide_eq_true_2 by done. cbn [negb].
    rewrite !filter_neq_absent by done.
    rewrite <- app_assoc. apply Permutation_app_head.
    change (id :: l2) with ([id] ++ l2). apply Permutation_app_comm.
Qed.

(** X12.  Toggling a node twice (two Ctrl-clicks on it) leaves the same nodes
    selected, when the selection is consistent, holds distinct identifiers
    and is not an edge selection; if the node was not selected, the
    selection is restored exactly. *)
Theorem toggle_node_twice (s : SelectionState.t) (id : string) :
  consistentSelection s ->
  SelectionState.type s <> Some SelectionType.edge ->
  NoDup (SelectionState.ids s) ->
  let s2 := selectionReducer (selectionReducer s (TOGGLE_NODE id)) (TOGGLE_NODE id) in
  SelectionState.type s2 = SelectionState.type s
  /\ SelectionState.ids s2 ≡ₚ SelectionState.ids s
  /\ (id ∉ SelectionState.ids s -> s2 = s).
Proof.
  unfold consistentSelection. destruct s as [ty ids]. cbn.
  intros Hc He Hnd. destruct ty as [[|]|]; [|done|].
  - (* a node selection *)
    cbn [isNodeType negb selectionReducer SelectionState.type SelectionState.ids].
    assert (Hne : ids <> []) by (intros H; by apply Hc in H).
    destruct (decide (id ∈ ids)) as [Hin|Hout].
    + rewrite (bool_decide_eq_true_2 _ Hin).
      destruct (filter_neq_present id ids Hnd Hin) as [Hf Hperm].
      destruct (List.filter _ ids) as [|r rs].
      * cbn. cbn in Hperm. split; [done|]. split; [by symmetry | done].
      * cbn [nodeTypeFor length Nat.ltb Nat.leb isNodeType negb
             SelectionState.type SelectionState.ids].
        rewrite (bool_decide_eq_false_2 _ Hf).
        cbn [SelectionState.type SelectionState.ids].
        split; [done|]. split; [by symmetry | done].
    + rewrite (bool_decide_eq_false_2 _ Hout).
      assert (Ht : nodeTypeFor (ids ++ [id]) = Some SelectionType.node).
      { unfold nodeTypeFor. rewrite List.length_app. cbn.
        by destruct (length ids). }
      rewrite Ht. cbn [isNodeType negb SelectionState.type SelectionState.ids].
      rewrite bool_decide_eq_true_2
        by (apply elem_of_app; right; left).
      rewrite List.filter_app, filter_neq_absent by done.
      cbn [List.filter]. rewrite bool_decide_eq_true_2 by done.
      cbn [negb]. rewrite app_nil_r.
      assert (Hn : nodeTypeFor ids = Some SelectionType.node).
      { unfold nodeTypeFor. by destruct ids. }
      rewrite Hn. by cbn.
  - (* no selection *)
    assert (ids = []) as -> by (by apply Hc).
    cbn. rewrite bool_decide_eq_true_2 by left.
    cbn. rewrite bool_decide_eq_true_2 by done. by cbn.
Qed.

Lemma toggle_node_twice_witness :
  selectionReducer (selectionReducer selection_ab (TOGGLE_NODE "c"))
                   (TOGGLE_NODE "c")
  = selection_ab.
Proof.
  assert (H1 : consistentSelection selection_ab) by (split; discriminate).
  assert (H2 : SelectionState.type selection_ab <> Some SelectionType.edge)
    by discriminate.
  assert (H3 : NoDup (SelectionState.ids selection_ab))
    by (apply (bool_decide_unpack _); vm_compute; exact I).
  apply (proj2 (proj2 (toggle_node_twice selection_ab "c" H1 H2 H3))).
  apply (bool_decide_unpack _). vm_compute. exact I.
Defined.

(** ** The graph state *)

Lemma graphReducer_coherent (JSON_parse : string -> option JsValue)
    (state : GraphState.t) (action : GraphAction) :
  coherentGraphState JSON_parse state ->
  match action with
  | LOAD_SUCCESS payload =>
      (exists content data,
         JSON_parse content = Some data
         /\ validateGraphData data = Success (LoadedGraph.data payload))
      /\ LoadedGraph.index payload = buildGraphIndex (LoadedGraph.data payload)
      /\ LoadedGraph.stats payload = calculateStats (LoadedGraph.data payload)
  | _ => True
  end ->
  coherentGraphState JSON_parse (graphReducer state action).
Proof.
  unfold coherentGraphState. destruct state as [gd gi gs fp il er rl fpar hc].
  cbn [GraphState.graphData GraphState.graphIndex
       GraphState.stats GraphState.filePath].
  intros Hg Ha.
  destruct action; cbn [graphReducer GraphState.graphData
    GraphState.graphIndex GraphState.stats GraphState.filePath
    GraphContext.initialState]; try done.
  destruct Ha as (Hv & -> & ->). split; [done|]. split; [done|].
  split; [done | by eexists].
Qed.

Lemma afterAwait_fails (JSON_parse : string -> option JsValue)
    (onNull : string) (outcome : IpcOutcome) (message : string)
    (state : GraphState.t) :
  loadFails JSON_parse onNull outcome message ->
  afterAwait JSON_parse onNull outcome state
  = graphReducer state (graphActions.loadError message).
Proof.
  intros H. destruct H as [m| | |e|content path Hp|content path data e Hp Hv];
    cbn [afterAwait]; try reflexivity.
  - unfold parseAndValidateGraph. by rewrite Hp.
  - unfold parseAndValidateGraph. by rewrite Hp, Hv.
Qed.

Lemma afterAwait_gives (JSON_parse : string -> option JsValue)
    (onNull : string) (outcome : IpcOutcome) (g : GraphData.t)
    (filePath : string) (state : GraphState.t) :
  loadGives JSON_parse outcome g filePath ->
  afterAwait JSON_parse onNull outcome state
  = graphReducer state (graphActions.loadSuccess g filePath).
Proof.
  intros (content & data & -> & Hp & Hv). cbn [afterAwait].
  unfold parseAndValidateGraph. by rewrite Hp, Hv.
Qed.

Lemma load_fails_or_gives (JSON_parse : string -> option JsValue)
    (onNull : string) (outcome : IpcOutcome) :
  (exists message, loadFails JSON_parse onNull outcome message)
  \/ (exists g filePath, loadGives JSON_parse outcome g filePath).
Proof.
  destruct outcome as [[m|]|[[e|content path]|]].
  - left. eexists. constructor.
  - left. eexists. constructor.
  - left. eexists. constructor.
  - destruct (JSON_parse content) as [data|] eqn:Hp.
    + destruct (validateGraphData data) as [g|e] eqn:Hv.
      * right. exists g, path, content, data. done.
      * left. eexists. by eapply fails_not_graph.
    + left. eexists. by apply fails_not_json.
  - left. eexists. constructor.
Qed.

Lemma settled_step (JSON_parse : string -> option JsValue)
    (state : GraphState.t) (ev : UiEvent) (onNull : string)
    (outcome : IpcOutcome) :
  settlingOf ev = Some (onNull, outcome) ->
  uiStep JSON_parse state ev = afterAwait JSON_parse onNull outcome state.
Proof. destruct ev; cbn; intros H; by simplify_eq. Qed.

Lemma afterAwait_coherent (JSON_parse : string -> option JsValue)
    (onNull : string) (outcome : IpcOutcome) (state : GraphState.t) :
  coherentGraphState JSON_parse state ->
  coherentGraphState JSON_parse (afterAwait JSON_parse onNull outcome state).
Proof.
  intros H.
  destruct (load_fails_or_gives JSON_parse onNull outcome)
    as [[m Hf]|(g & path & Hg)].
  - rewrite (afterAwait_fails _ _ _ _ _ Hf). by apply graphReducer_coherent.
  - rewrite (afterAwait_gives _ onNull _ _ _ _ Hg).
    apply graphReducer_coherent; [done|]. cbn.
    destruct Hg as (content & data & _ & Hp & Hv).
    split; [|done]. by exists content, data.
Qed.

Lemma uiStep_coherent (JSON_parse : string -> option JsValue)
    (state : GraphState.t) (ev : UiEvent) :
  coherentGraphState JSON_parse state ->
  coherentGraphState JSON_parse (uiStep JSON_parse state ev).
Proof.
  intros H. destruct ev; cbn [uiStep openFile openFilePath called settled].
  - by apply graphReducer_coherent.
  - by apply afterAwait_coherent.
  - by apply graphReducer_coherent.
  - by apply afterAwait_coherent.
  - by apply graphReducer_coherent.
  - by apply graphReducer_coherent.
  - by apply graphReducer_coherent.
  - by apply graphReducer_coherent.
  - unfold handleToggleAll. destruct (allHidden state);
      by apply graphReducer_coherent.
Qed.

Lemma fold_uiStep_coherent (JSON_parse : string -> option JsValue)
    (events : list UiEvent) (state : GraphState.t) :
  coherentGraphState JSON_parse state ->
  coherentGraphState JSON_parse (fold_left (uiStep JSON_parse) events state).
Proof.
  revert state. induction events as [|ev events IH]; intros state H; [done|].
  cbn [fold_left]. apply IH. by apply uiStep_coherent.
Qed.

(** The four fields of the state that describe the loaded graph. *)
Lemma graphReducer_keeps_graph (state : GraphState.t) (action : GraphAction) :
  match action with
  | LOAD_SUCCESS _ | CLEAR_GRAPH => False
  | _ => True
  end ->
  let state' := graphReducer state action in
  GraphState.graphData state' = GraphState.graphData state
  /\ GraphState.graphIndex state' = GraphState.graphIndex state
  /\ GraphState.stats state' = GraphState.stats state
  /\ GraphState.filePath state' = GraphState.filePath state.
Proof.
  destruct state as [gd gi gs fp il er rl fpar hc].
  by destruct action.
Qed.

Lemma uiStep_keeps_graph (JSON_parse : string -> option JsValue)
    (state : GraphState.t) (ev : UiEvent) :
  keepsGraph JSON_parse ev ->
  let state' := uiStep JSON_parse state ev in
  GraphState.graphData state' = GraphState.graphData state
  /\ GraphState.graphIndex state' = GraphState.graphIndex state
  /\ GraphState.stats state' = GraphState.stats state
  /\ GraphState.filePath state' = GraphState.filePath state.
Proof.
  intros [Hc Hs]. cbn zeta.
  destruct ev; cbn [uiStep openFile openFilePath called settled].
  - by apply graphReducer_keeps_graph.
  - destruct (Hs _ _ eq_refl) as [m Hf].
    rewrite (afterAwait_fails _ _ _ _ _ Hf). by apply graphReducer_keeps_graph.
  - by apply graphReducer_keeps_graph.
  - destruct (Hs _ _ eq_refl) as [m Hf].
    rewrite (afterAwait_fails _ _ _ _ _ Hf). by apply graphReducer_keeps_graph.
  - done.
  - by apply graphReducer_keeps_graph.
  - by apply graphReducer_keeps_graph.
  - by apply graphReducer_keeps_graph.
  - unfold handleToggleAll. destruct (allHidden state);
      by apply graphReducer_keeps_graph.
Qed.

Lemma fold_uiStep_keeps_graph (JSON_parse : string -> option JsValue)
    (events : list UiEvent) (state : GraphState.t) :
  Forall (keepsGraph JSON_parse) events ->
  let state' := fold_left (uiStep JSON_parse) events state in
  GraphState.graphData state' = GraphState.graphData state
  /\ GraphState.graphIndex state' = GraphState.graphIndex state
  /\ GraphState.stats state' = GraphState.stats state
  /\ GraphState.filePath state' = GraphState.filePath state.
Proof.
  cbn zeta. revert state.
  induction events as [|ev events IH]; intros state H; [done|].
  apply Forall_cons in H as [Hev H]. cbn [fold_left].
  destruct (IH (uiStep JSON_parse state ev) H) as (-> & -> & -> & ->).
  by apply uiStep_keeps_graph.
Qed.

(** X13.  A load is two events, the call of [openFile] or [openFilePath] and
    the settling of its request, and any other event can come between them.
    After any sequence of events, the graph of the state is one that
    [validateGraphData] accepted, with its own index and statistics and with
    a path, and a state without graph has no index, statistics or path.
    From such a state: calling a loader sets [isLoading], clears the error
    and changes nothing else; a request that fails (it threw, answered
    [null] or an error, or the content is not JSON or not a graph) clears
    [isLoading], records its message and changes nothing else, so the graph
    and the hidden categories stay; a request that gives a graph installs it
    with its index, its statistics and its path, clears [isLoading], the
    error and the hidden categories, and keeps the layout settings; every
    request does one or the other; and as long as the graph is not cleared
    and no request gives a graph, the graph, its index, its statistics and
    its path stay what they were, whatever else happens. *)
Theorem graph_state_coherent (JSON_parse : string -> option JsValue)
    (events : list UiEvent) :
  let step := uiStep JSON_parse in
  let state := fold_left step events GraphContext.initialState in
  match GraphState.graphData state with
  | None =>
      GraphState.graphIndex state = None
      /\ GraphState.stats state = None
      /\ GraphState.filePath state = None
  | Some g =>
      (exists content data,
         JSON_parse content = Some data /\ validateGraphData data = Success g)
      /\ GraphState.graphIndex state = Some (buildGraphIndex g)
      /\ GraphState.stats state = Some (calculateStats g)
      /\ is_Some (GraphState.filePath state)
  end
  /\ (forall ev,
        ev = UiOpenFile \/ ev = UiOpenFilePath ->
        step state ev
        = {| GraphState.graphData := GraphState.graphData state;
             GraphState.graphIndex := GraphState.graphIndex state;
             GraphState.stats := GraphState.stats state;
             GraphState.filePath := GraphState.filePath state;
             GraphState.isLoading := true;
             GraphState.error := None;
             GraphState.radialLayout := GraphState.radialLayout state;
             GraphState.forceParams := GraphState.forceParams state;
             GraphState.hiddenCategories :=
               GraphState.hiddenCategories state |})
  /\ (forall ev onNull outcome message,
        settlingOf ev = Some (onNull, outcome) ->
        loadFails JSON_parse onNull outcome message ->
        step state ev
        = {| GraphState.graphData := GraphState.graphData state;
             GraphState.graphIndex := GraphState.graphIndex state;
             GraphState.stats := GraphState.stats state;
             GraphState.filePath := GraphState.filePath state;
             GraphState.isLoading := false;
             GraphState.error := Some message;
             GraphState.radialLayout := GraphState.radialLayout state;
             GraphState.forceParams := GraphState.forceParams state;
             GraphState.hiddenCategories :=
               GraphState.hiddenCategories state |})
  /\ (forall ev onNull outcome g filePath,
        settlingOf ev = Some (onNull, outcome) ->
        loadGives JSON_parse outcome g filePath ->
        step state ev
        = {| GraphState.graphData := Some g;
             GraphState.graphIndex := Some (buildGraphIndex g);
             GraphState.stats := Some (calculateStats g);
             GraphState.filePath := Some filePath;
             GraphState.isLoading := false;
             GraphState.error := None;
             GraphState.radialLayout := GraphState.radialLayout state;
             GraphState.forceParams := GraphState.forceParams state;
             GraphState.hiddenCategories := ∅ |})
  /\ (forall onNull outcome,
        (exists message, loadFails JSON_parse onNull outcome message)
        \/ (exists g filePath, loadGives JSON_parse outcome g filePath))
  /\ (forall more,
        Forall (keepsGraph JSON_parse) more ->
        let state' := fold_left step more state in
        GraphState.graphData state' = GraphState.graphData state
        /\ GraphState.graphIndex state' = GraphState.graphIndex state
        /\ GraphState.stats state' = GraphState.stats state
        /\ GraphState.filePath state' = GraphState.filePath state).
Proof.
  cbn zeta.
  set (state := fold_left (uiStep JSON_parse) events GraphContext.initialState).
  split.
  { change (coherentGraphState JSON_parse state).
    by apply fold_uiStep_coherent. }
  split.
  { intros ev [-> | ->]; by destruct state. }
  split.
  { intros ev onNull outcome m Hs Hf.
    rewrite (settled_step _ _ _ _ _ Hs), (afterAwait_fails _ _ _ _ _ Hf).
    by destruct state. }
  split.
  { intros ev onNull outcome g path Hs Hg.
    rewrite (settled_step _ _ _ _ _ Hs), (afterAwait_gives _ onNull _ _ _ _ Hg).
    by destruct state. }
  split.
  { intros onNull outcome. apply load_fails_or_gives. }
  intros more H. by apply fold_uiStep_keeps_graph.
Qed.

(** A graph is loaded; while a second request is pending the user switches
    the layout, and the request is cancelled: the graph is still there. *)
Lemma graph_state_coherent_witness :
  let step := uiStep parseExample in
  let loaded :=
    fold_left step
      [UiOpenFile;
       UiOpenFileSettled
         (IpcReturned (Some (FileContent "ab" "/tmp/ab.json")))]
      GraphContext.initialState in
  let later :=
    fold_left step
      [UiOpenFile; UiSetRadialLayout true; UiOpenFileSettled (IpcReturned None)]
      loaded in
  GraphState.graphData loaded = Some graph_ab
  /\ GraphState.filePath loaded = Some "/tmp/ab.json"
  /\ GraphState.graphData later = Some graph_ab
  /\ GraphState.graphIndex later = Some (buildGraphIndex graph_ab)
  /\ GraphState.filePath later = Some "/tmp/ab.json".
Proof.
  cbn zeta.
  assert (Hg : loadGives parseExample
                 (IpcReturned (Some (FileContent "ab" "/tmp/ab.json")))
                 graph_ab "/tmp/ab.json").
  { exists "ab", doc_ab. split; [reflexivity|]. split; [reflexivity|].
    vm_compute. reflexivity. }
  pose proof (graph_state_coherent parseExample [UiOpenFile])
    as (_ & _ & _ & Hgives & _).
  cbv zeta in Hgives.
  specialize (Hgives (UiOpenFileSettled
                        (IpcReturned (Some (FileContent "ab" "/tmp/ab.json"))))
                     EmptyString _ graph_ab "/tmp/ab.json" eq_refl Hg).
  set (loaded := fold_left (uiStep parseExample)
                   [UiOpenFile;
                    UiOpenFileSettled
                      (IpcReturned (Some (FileContent "ab" "/tmp/ab.json")))]
                   GraphContext.initialState).
  assert (Hl : GraphState.graphData loaded = Some graph_ab
               /\ GraphState.graphIndex loaded
                  = Some (buildGraphIndex graph_ab)
               /\ GraphState.filePath loaded = Some "/tmp/ab.json").
  { change loaded with
      (uiStep parseExample
         (fold_left (uiStep parseExample) [UiOpenFile]
            GraphContext.initialState)
         (UiOpenFileSettled
            (IpcReturned (Some (FileContent "ab" "/tmp/ab.json"))))).
    rewrite Hgives. done. }
  destruct Hl as (Hd & Hi & Hp).
  pose proof (graph_state_coherent parseExample
                [UiOpenFile;
                 UiOpenFileSettled
                   (IpcReturned (Some (FileContent "ab" "/tmp/ab.json")))])
    as (_ & _ & _ & _ & _ & Hkeep).
  cbv zeta in Hkeep. fold loaded in Hkeep.
  destruct (Hkeep [UiOpenFile; UiSetRadialLayout true;
                   UiOpenFileSettled (IpcReturned None)])
    as (Hd' & Hi' & _ & Hp').
  { repeat constructor; try done.
    all: cbn; intros onNull outcome Hs; simplify_eq.
    eexists; constructor. }
  rewrite Hd', Hi', Hp'. done.
Defined.

(** ** Hiding categories *)

(** X14.  The eye button of a legend entry: it flips the entry and no other one,
    a second click undoes the first, and hiding an entry hides, besides the
    nodes already hidden, exactly the nodes that have that category. *)
Theorem toggle_category_visibility (state : GraphState.t) (category : string) :
  let state' := handleVisibilityToggle category state in
  (category ∈ GraphState.hiddenCategories state'
   <-> category ∉ GraphState.hiddenCategories state)
  /\ (forall c, c <> category ->
         (c ∈ GraphState.hiddenCategories state'
          <-> c ∈ GraphState.hiddenCategories state))
  /\ handleVisibilityToggle category state' = state
  /\ (category ∉ GraphState.hiddenCategories state ->
       forall node,
         isNodeHidden node (GraphState.hiddenCategories state')
         = isNodeHidden node (GraphState.hiddenCategories state)
           || nodeHasCategory node category).
Proof.
  destruct state as [gd gi gs fp il er rl fpar hc].
  cbn [handleVisibilityToggle graphActions.toggleCategoryVisibility graphReducer
       GraphState.hiddenCategories].
  destruct (has hc category) eqn:Hh.
  - apply has_elem in Hh. split; [set_solver|]. split; [set_solver|]. split.
    + assert (has (hc ∖ {[category]}) category = false) as ->.
      { apply not_true_is_false. rewrite has_elem. set_solver. }
      f_equal. apply set_eq. intros c.
      destruct (decide (c = category)); set_solver.
    + done.
  - assert (Hn : category ∉ hc).
    { intros H. apply has_elem in H. congruence. }
    split; [set_solver|]. split; [set_solver|]. split.
    + assert (has ({[category]} ∪ hc) category = true) as ->.
      { rewrite has_elem. set_solver. }
      f_equal. apply set_eq. intros c.
      destruct (decide (c = category)); set_solver.
    + intros _ node. apply eq_true_iff_eq.
      rewrite orb_true_iff, !isNodeHidden_spec. split.
      * intros (c & [->%elem_of_singleton|Hc]%elem_of_union & H);
          [by right | left; by exists c].
      * intros [(c & Hc & H)|H].
        -- exists c. split; [set_solver | done].
        -- exists category. split; [set_solver | done].
Qed.

Lemma allCategoryKeys_spec (state : GraphState.t) (g : GraphData.t) (c : string) :
  GraphState.graphData state = Some g ->
  c ∈ allCategoryKeys state
  <-> categoryOf (GraphData.nodes g) c
      \/ (c = UNCATEGORIZED
          /\ (1 <= countOf (getCategoryCounts (GraphData.nodes g)) UNCATEGORIZED)%nat).
Proof.
  intros Hg. unfold allCategoryKeys, legendData. rewrite Hg.
  cbn [LegendData.categories LegendData.uncategorizedCount].
  destruct (extractCategories_spec (GraphData.nodes g)) as (_ & _ & Hc).
  fold (countOf (getCategoryCounts (GraphData.nodes g)) UNCATEGORIZED).
  destruct (Nat.ltb_spec 0 (countOf (getCategoryCounts (GraphData.nodes g))
                              UNCATEGORIZED)) as [Hlt|Hge].
  - rewrite elem_of_app, Hc, list_elem_of_singleton. split.
    + intros [H| ->]; [by left | right; split; [done | lia]].
    + intros [H|[-> _]]; [by left | by right].
  - rewrite Hc. split; [by left|]. intros [H|[_ H]]; [done | lia].
Qed.

Lemma uncategorized_positive (ns : list Node.t) (node : Node.t) :
  node ∈ ns -> hasNoCategories node = true -> (1 <= uncategorized ns)%nat.
Proof.
  intros Hin Hn. unfold uncategorized.
  assert (H : node ∈ List.filter hasNoCategories ns).
  { apply list_elem_of_In, filter_In. split; [by apply list_elem_of_In | done]. }
  destruct (List.filter hasNoCategories ns); [inversion H | cbn; lia].
Qed.

(** X15.  The button [Hide All] hides the nodes of the graph that have no
    category or have a label other than the empty string (a node whose only
    labels are empty strings stays visible); the button then reads
    [Show All], and a second click leaves no category hidden. *)
Theorem hide_all_show_all (state : GraphState.t) (g : GraphData.t) :
  GraphState.graphData state = Some g ->
  allHidden state = false ->
  let hiddenAll := handleToggleAll state in
  (forall node, node ∈ GraphData.nodes g ->
     (isNodeHidden node (GraphState.hiddenCategories hiddenAll) = true
      <-> hasNoCategories node = true \/ hasNamedCategory node))
  /\ (allCategoryKeys state <> [] ->
      allHidden hiddenAll = true
      /\ GraphState.hiddenCategories (handleToggleAll hiddenAll) = ∅
      /\ forall node,
           isNodeHidden node
             (GraphState.hiddenCategories (handleToggleAll hiddenAll)) = false).
Proof.
  intros Hg Hall. cbn zeta.
  assert (Hta : handleToggleAll state
                = graphReducer state
                    (graphActions.setHiddenCategories
                       (list_to_set (allCategoryKeys state))))
    by (unfold handleToggleAll; by rewrite Hall).
  rewrite Hta. set (hiddenAll := graphReducer state _).
  assert (Hkeys : allCategoryKeys hiddenAll = allCategoryKeys state).
  { unfold hiddenAll. by destruct state. }
  assert (Hhid : GraphState.hiddenCategories hiddenAll
                 = list_to_set (allCategoryKeys state)).
  { unfold hiddenAll. by destruct state. }
  split.
  - intros node Hin. rewrite Hhid, isNodeHidden_spec. split.
    + intros (c & Hc & Hhas). apply elem_of_list_to_set in Hc.
      apply (allCategoryKeys_spec state g c Hg) in Hc.
      unfold nodeHasCategory in Hhas. unfold hasNoCategories, hasNamedCategory.
      destruct (Node.categories node) as [[|x cs]|]; [by left | | by left].
      right. apply bool_decide_eq_true in Hhas. exists (x :: cs), c.
      split; [done|]. split; [done|].
      destruct Hc as [[Hne _]|[-> _]]; [done | discriminate].
    + intros [Hno|(cs & c & Hcs & Hc & Hne)].
      * exists UNCATEGORIZED. split.
        -- apply elem_of_list_to_set, (allCategoryKeys_spec state g _ Hg).
           right. split; [done|].
           destruct (getCategoryCounts_spec (GraphData.nodes g) UNCATEGORIZED)
             as (_ & -> & _).
           pose proof (uncategorized_positive _ _ Hin Hno).
           destruct (Nat.ltb_spec 0 (uncategorized (GraphData.nodes g))); lia.
        -- unfold nodeHasCategory. unfold hasNoCategories in Hno.
           destruct (Node.categories node) as [[|x xs]|];
             [by apply bool_decide_eq_true | done | by apply bool_decide_eq_true].
      * exists c. split.
        -- apply elem_of_list_to_set, (allCategoryKeys_spec state g _ Hg).
           left. split; [done|]. by exists node, cs.
        -- unfold nodeHasCategory. rewrite Hcs.
           destruct cs as [|x xs]; [inversion Hc|].
           by apply bool_decide_eq_true.
  - intros Hne.
    assert (Ha : allHidden hiddenAll = true).
    { unfold allHidden. rewrite Hkeys, Hhid. apply andb_true_iff. split.
      - destruct (allCategoryKeys state); [done | cbn; done].
      - apply forallb_forall. intros c Hc. apply has_elem, elem_of_list_to_set.
        by apply list_elem_of_In. }
    split; [exact Ha|]. unfold handleToggleAll. rewrite Ha.
    assert (He : GraphState.hiddenCategories
                   (graphReducer hiddenAll (graphActions.setHiddenCategories ∅))
                 = ∅) by (by destruct hiddenAll).
    split; [exact He|]. intros node. by rewrite He.
Qed.

Lemma hide_all_show_all_witness :
  isNodeHidden (Node.mk "b" "B" None None None None [])
    (GraphState.hiddenCategories
       (handleToggleAll (stateOf (GraphData.mk graph_categories []))))
  = true.
Proof.
  apply (proj1 (hide_all_show_all (stateOf (GraphData.mk graph_categories []))
                  (GraphData.mk graph_categories []) eq_refl eq_refl)).
  - apply list_elem_of_In. cbn. right. left. reflexivity.
  - left. reflexivity.
Defined.

(** ** The property panel *)

Lemma parseEdgeId_getEdgeId (sourceId targetId : string) :
  ~ contains sourceId EDGE_ID_DELIMITER ->
  parseEdgeId (getEdgeId sourceId targetId) = Some (sourceId, targetId).
Proof.
  intros Hn. change (getEdgeId sourceId targetId)
    with (createEdgeId sourceId targetId).
  unfold parseEdgeId, indexOf. rewrite (search_createEdgeId _ _ Hn).
  destruct (Z.eqb_spec (Z.of_nat (String.length sourceId)) (-1)) as [E|_]; [lia|].
  f_equal. f_equal.
  - rewrite slice_prefix by (unfold createEdgeId; rewrite length_app; lia).
    apply string_take_app.
  - unfold jsLength. rewrite <- Nat2Z.inj_add.
    rewrite slice_suffix by (unfold createEdgeId; rewrite !length_app; lia).
    unfold createEdgeId. rewrite append_assoc.
    rewrite <- length_app. apply string_drop_app.
Qed.

Lemma getNodeById_found (g : GraphData.t) (index : option GraphIndex) (n : Node.t) :
  NoDup (map Node.id (GraphData.nodes g)) ->
  indexOfGraph g index ->
  n ∈ GraphData.nodes g ->
  getNodeById g (Node.id n) index = Some n.
Proof.
  intros Hnd Hidx Hn.
  destruct (NoDup_key_split Node.id _ _ Hnd Hn) as (l1 & l2 & Hl & Hl2).
  destruct Hidx as [-> | ->]; cbn [getNodeById buildGraphIndex nodeById].
  - destruct (List.find _ (GraphData.nodes g)) as [m|] eqn:Hf.
    + apply find_Some_split in Hf as (k1 & k2 & Hk & Hp & _).
      apply bool_decide_eq_true in Hp. f_equal.
      assert (Hm : m ∈ GraphData.nodes g)
        by (rewrite Hk; apply elem_of_app; right; left).
      pose proof (index_by_last Node.id l1 l2 n ∅ Hl2) as H1.
      destruct (NoDup_key_split Node.id _ _ Hnd Hm) as (j1 & j2 & Hj & Hj2).
      pose proof (index_by_last Node.id j1 j2 m ∅ Hj2) as H2.
      rewrite <- Hl in H1. rewrite <- Hj, Hp in H2. congruence.
    + exfalso. apply (proj1 (find_None_iff _ _)) with (x := n) in Hf; [|done].
      by apply bool_decide_eq_false in Hf.
  - change (fold_left _ (GraphData.nodes g) ∅)
      with (index_by Node.id (GraphData.nodes g) ∅).
    rewrite Hl. by apply index_by_last.
Qed.

Lemma getEdgeByIds_found (g : GraphData.t) (index : option GraphIndex)
    (e0 : Edge.t) :
  (forall e, e ∈ GraphData.edges g ->
             ~ contains (Edge.sourceId e) EDGE_ID_DELIMITER) ->
  indexOfGraph g index ->
  e0 ∈ GraphData.edges g ->
  exists e,
    getEdgeByIds g (Edge.sourceId e0) (Edge.targetId e0) index = Some e
    /\ e ∈ GraphData.edges g
    /\ Edge.sourceId e = Edge.sourceId e0
    /\ Edge.targetId e = Edge.targetId e0.
Proof.
  intros Hsrc Hidx He0.
  destruct Hidx as [-> | ->]; cbn [getEdgeByIds buildGraphIndex edgeByKey].
  - destruct (List.find _ (GraphData.edges g)) as [e|] eqn:Hf.
    + apply find_Some_split in Hf as (k1 & k2 & Hk & Hp & _).
      apply andb_true_iff in Hp as [H1%bool_decide_eq_true H2%bool_decide_eq_true].
      exists e. split; [done|]. split; [|done].
      rewrite Hk. apply elem_of_app. right. left.
    + exfalso. apply (proj1 (find_None_iff _ _)) with (x := e0) in Hf; [|done].
      by rewrite !bool_decide_eq_true_2 in Hf.
  - change (fold_left _ (GraphData.edges g) ∅)
      with (index_by edgeKey (GraphData.edges g) ∅).
    destruct (index_by_is_Some edgeKey (GraphData.edges g) ∅ e0 He0) as [e He].
    exists e. split; [exact He|].
    apply index_by_elem in He as [He|[He Hkey]];
      [by rewrite lookup_empty in He|].
    split; [done|].
    apply (createEdgeId_inj _ _ _ _ (Hsrc e He) (Hsrc e0 He0) Hkey).
Qed.

Lemma initD3Links_edge (g : GraphData.t) (link : D3Link.t) :
  link ∈ initD3Links g ->
  exists e, e ∈ GraphData.edges g
            /\ Edge.sourceId e = D3Link.source link
            /\ Edge.targetId e = D3Link.target link.
Proof.
  unfold initD3Links. rewrite list_elem_of_In, in_map_iff.
  intros (e & <- & He). apply filter_In in He as [He _].
  exists e. split; [by apply list_elem_of_In | done].
Qed.

(** X16.  A click on a link of the layout, in a graph whose source identifiers do
    not contain the delimiter: the link is marked as selected, a link with
    other endpoints is not, and the property panel shows one edge of the
    graph, which has the endpoints of the link, with or without the
    index. *)
Theorem clicked_edge_is_shown (g : GraphData.t) (link : D3Link.t)
    (selection : SelectionState.t) :
  (forall e, e ∈ GraphData.edges g ->
             ~ contains (Edge.sourceId e) EDGE_ID_DELIMITER) ->
  link ∈ initD3Links g ->
  let selection' := handleEdgeClick link selection in
  isEdgeSelected selection' link = true
  /\ (forall other,
        other ∈ initD3Links g ->
        isEdgeSelected selection' other = true ->
        D3Link.source other = D3Link.source link
        /\ D3Link.target other = D3Link.target link)
  /\ (forall index,
        indexOfGraph g index ->
        exists e,
          selectedElements (Some g) index selection' = Some (SelectedEdge [e])
          /\ e ∈ GraphData.edges g
          /\ Edge.sourceId e = D3Link.source link
          /\ Edge.targetId e = D3Link.target link).
Proof.
  intros Hsrc Hlink. cbn zeta.
  destruct (initD3Links_edge g link Hlink) as (e0 & He0 & Hs0 & Ht0).
  assert (Hfree : ~ contains (D3Link.source link) EDGE_ID_DELIMITER)
    by (rewrite <- Hs0; by apply Hsrc).
  unfold handleEdgeClick. cbn [selectionReducer isEdgeSelected
    SelectionState.type SelectionState.ids].
  split; [|split].
  - apply bool_decide_eq_true. left.
  - intros other Hother Hsel. apply bool_decide_eq_true in Hsel.
    apply list_elem_of_singleton in Hsel.
    destruct (initD3Links_edge g other Hother) as (e1 & He1 & Hs1 & Ht1).
    apply (createEdgeId_inj _ _ _ _); [|done|exact Hsel].
    rewrite <- Hs1. by apply Hsrc.
  - intros index Hidx. unfold selectedElements.
    cbn [SelectionState.type SelectionState.ids length Nat.eqb].
    rewrite (parseEdgeId_getEdgeId _ _ Hfree).
    destruct (getEdgeByIds_found g index e0 Hsrc Hidx He0)
      as (e & Hget & He & Hs & Ht).
    rewrite Hs0, Ht0 in Hget. rewrite Hs0 in Hs. rewrite Ht0 in Ht.
    rewrite Hget. by exists e.
Qed.

Lemma clicked_edge_is_shown_witness :
  selectedElements (Some graph_ab) (Some (buildGraphIndex graph_ab))
    (handleEdgeClick {| D3Link.source := "a"; D3Link.target := "b" |}
                     SelectionContext.initialState)
  = Some (SelectedEdge [plainEdge "a" "b"]).
Proof.
  assert (Hsrc : forall e, e ∈ GraphData.edges graph_ab ->
                   ~ contains (Edge.sourceId e) EDGE_ID_DELIMITER).
  { intros e He. apply list_elem_of_In in He. cbn in He.
    destruct He as [<-|[]]. apply search_is_None. reflexivity. }
  assert (Hlink : {| D3Link.source := "a"; D3Link.target := "b" |}
                  ∈ initD3Links graph_ab).
  { apply list_elem_of_In. vm_compute. left. reflexivity. }
  destruct (proj2 (proj2 (clicked_edge_is_shown graph_ab _
                            SelectionContext.initialState Hsrc Hlink))
              (Some (buildGraphIndex graph_ab)) (or_intror eq_refl))
    as (e & He & Hin & _).
  rewrite He. apply list_elem_of_In in Hin. cbn in Hin.
  destruct Hin as [<-|[]]. reflexivity.
Defined.

Lemma collect_found (g : GraphData.t) (index : option GraphIndex)
    (l acc : list Node.t) :
  (forall n, n ∈ l -> getNodeById g (Node.id n) index = Some n) ->
  fold_left
    (fun nodes id =>
       match getNodeById g id index with
       | Some node => nodes ++ [node]
       | None => nodes
       end)
    (map Node.id l) acc
  = acc ++ l.
Proof.
  revert acc. induction l as [|n l IH]; intros acc H; cbn [map fold_left].
  - by rewrite app_nil_r.
  - rewrite (H n) by left. rewrite IH by (intros m Hm; apply H; by right).
    by rewrite <- app_assoc.
Qed.

(** X17.  A plain click on a legend entry that some node has, in a graph with
    distinct node identifiers: the selection becomes the nodes that have the
    category, in the order of the graph, and the property panel shows
    exactly these nodes, with or without the index. *)
Theorem legend_click_shows_category (state : GraphState.t) (g : GraphData.t)
    (category : string) (selection : SelectionState.t) :
  GraphState.graphData state = Some g ->
  NoDup (map Node.id (GraphData.nodes g)) ->
  nodesOfCategory category (GraphData.nodes g) <> [] ->
  let selection' := handleCategoryClick state plainClick category selection in
  SelectionState.type selection' = Some SelectionType.node
  /\ SelectionState.ids selection'
     = map Node.id (nodesOfCategory category (GraphData.nodes g))
  /\ (forall index,
        indexOfGraph g index ->
        selectedElements (Some g) index selection'
        = Some (SelectedNodes (nodesOfCategory category (GraphData.nodes g)))).
Proof.
  intros Hg Hnd Hne. cbn zeta. unfold handleCategoryClick. rewrite Hg.
  fold (nodesOfCategory category (GraphData.nodes g)).
  set (sel := nodesOfCategory category (GraphData.nodes g)) in *.
  assert (Hlen : Nat.eqb (length (map Node.id sel)) 0 = false).
  { rewrite length_map. by destruct sel. }
  rewrite Hlen. cbn [plainClick metaKey ctrlKey shiftKey orb selectionReducer].
  assert (Hty : nodeTypeFor (map Node.id sel) = Some SelectionType.node).
  { unfold nodeTypeFor. rewrite length_map. by destruct sel. }
  cbn [SelectionState.type SelectionState.ids]. split; [done|]. split; [done|].
  intros index Hidx. unfold selectedElements.
  cbn [SelectionState.type SelectionState.ids]. rewrite Hty, Hlen.
  rewrite collect_found.
  - cbn [app]. by destruct sel.
  - intros n Hn. apply getNodeById_found; [done | done|].
    apply list_elem_of_In in Hn. apply filter_In in Hn as [Hn _].
    by apply list_elem_of_In.
Qed.

Lemma legend_click_shows_category_witness :
  SelectionState.ids
    (handleCategoryClick (stateOf (GraphData.mk graph_categories []))
       plainClick "x" SelectionContext.initialState)
  = ["a"; "c"].
Proof.
  assert (Hnd : NoDup (map Node.id graph_categories))
    by (apply (bool_decide_unpack _); vm_compute; exact I).
  assert (Hne : nodesOfCategory "x" graph_categories <> []) by discriminate.
  exact (proj1 (proj2 (legend_click_shows_category
                         (stateOf (GraphData.mk graph_categories []))
                         (GraphData.mk graph_categories []) "x"
                         SelectionContext.initialState eq_refl Hnd Hne))).
Defined.

(** ** Recent files *)

Lemma filter_neq_NoDup (f : string) (l : list string) :
  NoDup l -> NoDup (List.filter (fun x => negb (bool_decide (x = f))) l).
Proof.
  intros H. apply NoDup_ListNoDup, List.NoDup_filter. by apply NoDup_ListNoDup.
Qed.

Lemma filter_neq_elem (f x : string) (l : list string) :
  x ∈ List.filter (fun y => negb (bool_decide (y = f))) l <-> x ∈ l /\ x <> f.
Proof.
  rewrite list_elem_of_In, filter_In, <- list_elem_of_In, negb_true_iff.
  by rewrite bool_decide_eq_false.
Qed.

Lemma addRecentFile_unfold (f : string) (l : list string) :
  addRecentFile f l
  = f :: take 9 (List.filter (fun x => negb (bool_decide (x = f))) l).
Proof. reflexivity. Qed.

Lemma addRecentFile_spec (f : string) (l : list string) :
  NoDup l ->
  NoDup (addRecentFile f l)
  /\ (length (addRecentFile f l) <= 10)%nat
  /\ (forall x, x ∈ addRecentFile f l -> x = f \/ x ∈ l).
Proof.
  intros Hnd. rewrite addRecentFile_unfold.
  set (r := List.filter _ l).
  assert (Hr : NoDup r) by (by apply filter_neq_NoDup).
  assert (Hf : f ∉ r).
  { unfold r. rewrite filter_neq_elem. by intros [_ ?]. }
  split; [|split].
  - apply NoDup_cons. split.
    + intros H. apply Hf. by apply (subseteq_take 9 r).
    + apply (sublist_NoDup _ r); [done | apply sublist_take].
  - cbn [length]. rewrite length_take. lia.
  - intros x [->|Hx]%elem_of_cons; [by left|]. right.
    apply (subseteq_take 9 r), filter_neq_elem in Hx. tauto.
Qed.

Lemma storeCalls_spec (calls done : list StoreCall) (l : list string) :
  NoDup l -> (length l <= 10)%nat ->
  (forall f, f ∈ l -> AddRecentFile f ∈ done) ->
  NoDup (fold_left storeCall calls l)
  /\ (length (fold_left storeCall calls l) <= 10)%nat
  /\ (forall f, f ∈ fold_left storeCall calls l ->
                AddRecentFile f ∈ done ++ calls).
Proof.
  revert done l. induction calls as [|c calls IH]; intros done l H1 H2 H3.
  - cbn [fold_left]. rewrite app_nil_r. done.
  - cbn [fold_left].
    replace (done ++ c :: calls) with ((done ++ [c]) ++ calls)
      by (by rewrite <- app_assoc).
    destruct c as [f|]; cbn [storeCall clearRecentFiles].
    + destruct (addRecentFile_spec f l H1) as (A1 & A2 & A3).
      apply IH; [done | done|]. intros x Hx. apply elem_of_app.
      destruct (A3 x Hx) as [->|Hl]; [right; left | left; by apply H3].
    + apply IH; [constructor | cbn; lia|]. intros f H. inversion H.
Qed.

(** X18.  The list of recent files, after any calls on the store: it repeats no
    path and holds at most ten, all of them paths that were added.  Adding a
    path puts it first, keeps the others in their order (dropping the last
    one when the list is full), and adding it a second time changes
    nothing. *)
Theorem recent_files_store (calls : list StoreCall) (filePath : string) :
  let recentFiles := storedAfter calls in
  NoDup recentFiles
  /\ (length recentFiles <= 10)%nat
  /\ (forall f, f ∈ recentFiles -> AddRecentFile f ∈ calls)
  /\ addRecentFile filePath recentFiles
     = filePath :: take 9 (List.filter (fun f => negb (bool_decide (f = filePath)))
                                       recentFiles)
  /\ (filePath ∉ recentFiles -> (length recentFiles < 10)%nat ->
      addRecentFile filePath recentFiles = filePath :: recentFiles)
  /\ addRecentFile filePath (addRecentFile filePath recentFiles)
     = addRecentFile filePath recentFiles.
Proof.
  cbn zeta.
  assert (Hinv : NoDup (storedAfter calls)
                 /\ (length (storedAfter calls) <= 10)%nat
                 /\ (forall f, f ∈ storedAfter calls -> AddRecentFile f ∈ calls)).
  { unfold storedAfter.
    apply (storeCalls_spec calls [] []); [constructor | cbn; lia|].
    intros f H. inversion H. }
  destruct Hinv as (H1 & H2 & H3).
  split; [done|]. split; [done|]. split; [done|]. split; [reflexivity|]. split.
  - intros Hout Hlen. rewrite addRecentFile_unfold.
    rewrite filter_neq_absent by done. by rewrite take_ge by lia.
  - rewrite !addRecentFile_unfold. cbn [List.filter].
    rewrite bool_decide_eq_true_2 by done. cbn [negb].
    set (r := List.filter _ (storedAfter calls)).
    assert (Hf : filePath ∉ take 9 r).
    { intros H. apply (subseteq_take 9 r) in H.
      unfold r in H. apply filter_neq_elem in H. by destruct H. }
    rewrite filter_neq_absent by done. by rewrite take_take, Nat.min_id.
Qed.

(** ** Escaping of labels in the SVG export *)

Lemma replaceAll_app (c : ascii) (r a b : string) :
  replaceAll c r (a +:+ b) = replaceAll c r a +:+ replaceAll c r b.
Proof.
  induction a as [|x a IH]; [done|]. rewrite append_cons. cbn [replaceAll].
  rewrite IH. case_bool_decide; [|done]. by rewrite <- append_assoc.
Qed.

Lemma replaceAll_single (c x : ascii) (r : string) :
  replaceAll c r (String x EmptyString)
  = if bool_decide (x = c) then r else String x EmptyString.
Proof.
  cbn [replaceAll]. case_bool_decide; [|done].
  induction r as [|y r IH]; [done|]. rewrite append_cons. by f_equal.
Qed.

Lemma escapeXml_cons (x : ascii) (rest : string) :
  escapeXml (String x rest) = escapeChar x +:+ escapeXml rest.
Proof.
  change (String x rest) with (String x EmptyString +:+ rest).
  unfold escapeXml. rewrite !replaceAll_app. f_equal.
  unfold escapeChar. rewrite replaceAll_single.
  case_bool_decide as E1; [reflexivity|].
  rewrite replaceAll_single. case_bool_decide as E2; [reflexivity|].
  rewrite replaceAll_single. case_bool_decide as E3; [reflexivity|].
  rewrite replaceAll_single. case_bool_decide as E4; [reflexivity|].
  rewrite replaceAll_single. by case_bool_decide as E5.
Qed.

Lemma escapeXml_escapeEach (text : string) : escapeXml text = escapeEach text.
Proof.
  induction text as [|x rest IH]; [done|].
  rewrite escapeXml_cons. cbn [escapeEach]. by rewrite IH.
Qed.

Lemma occurs_app (c : ascii) (a b : string) :
  occurs c (a +:+ b) = occurs c a || occurs c b.
Proof.
  induction a as [|x a IH]; [done|]. rewrite append_cons. cbn [occurs].
  by rewrite IH, orb_assoc.
Qed.

Lemma escapeChar_markup (c x : ascii) :
  c ∈ markupChars -> occurs c (escapeChar x) = false.
Proof.
  unfold markupChars. rewrite !elem_of_cons, elem_of_nil.
  unfold escapeChar.
  intros [->|[->|[->|[->|[]]]]]; repeat case_bool_decide; subst;
    try reflexivity; cbn [occurs]; rewrite bool_decide_eq_false_2 by done;
    reflexivity.
Qed.

Lemma append_nil_l (s : string) : EmptyString +:+ s = s.
Proof. reflexivity. Qed.

Lemma escapeChar_prefix (c1 c2 : ascii) (r1 r2 : string) :
  escapeChar c1 +:+ r1 = escapeChar c2 +:+ r2 -> c1 = c2 /\ r1 = r2.
Proof.
  unfold escapeChar.
  repeat case_bool_decide; subst;
    rewrite ?append_cons, ?append_nil_l; intros Heq;
    try (injection Heq; intros; subst; done);
    try discriminate Heq.
Qed.

(** X19.  The five replacements of [escapeXml], made one after the other, amount
    to one pass that replaces each of the five characters by its entity: an
    ampersand written by a later replacement is not escaped again.  The
    result contains no angle bracket and no quote, and two different texts
    are never escaped to the same string. *)
Theorem escapeXml_one_pass (text : string) :
  escapeXml text = escapeEach text
  /\ (forall c, c ∈ markupChars -> occurs c (escapeXml text) = false)
  /\ (forall other, escapeXml text = escapeXml other -> text = other).
Proof.
  split; [apply escapeXml_escapeEach|]. split.
  - intros c Hc. rewrite escapeXml_escapeEach.
    induction text as [|x rest IH]; [done|]. cbn [escapeEach].
    by rewrite occurs_app, escapeChar_markup, IH.
  - induction text as [|x rest IH]; intros [|y other].
    + done.
    + rewrite escapeXml_cons. change (escapeXml EmptyString) with EmptyString.
      unfold escapeChar. repeat case_bool_decide; discriminate.
    + rewrite escapeXml_cons. change (escapeXml EmptyString) with EmptyString.
      unfold escapeChar. repeat case_bool_decide; discriminate.
    + rewrite !escapeXml_cons. intros [-> H]%escapeChar_prefix.
      f_equal. by apply IH.
Qed.

(** ** Zoom to fit *)

Lemma extent_grows {A : Type} (accessor : A -> option Q) (values : list A)
    (lo hi : Q) :
  (lo <= hi)%Q ->
  exists lo' hi',
    fold_left
      (fun acc d =>
         match accessor d with
         | None => acc
         | Some value =>
             match acc with
             | None => Some (value, value)
             | Some (min, max) =>
                 Some (if Qgtb min value then value else min,
                       if Qgtb value max then value else max)
             end
         end)
      values (Some (lo, hi))
    = Some (lo', hi')
    /\ (lo' <= lo)%Q /\ (hi <= hi')%Q
    /\ (forall d v, d ∈ values -> accessor d = Some v -> (lo' <= v <= hi')%Q).
Proof.
  revert lo hi. induction values as [|d values IH]; intros lo hi Hle.
  - exists lo, hi. split; [done|]. split; [lra|]. split; [lra|].
    intros d v H. inversion H.
  - cbn [fold_left]. destruct (accessor d) as [v|] eqn:Hd.
    + set (lo1 := if Qgtb lo v then v else lo).
      set (hi1 := if Qgtb v hi then v else hi).
      assert (H1 : (lo1 <= lo /\ lo1 <= v)%Q).
      { unfold lo1. destruct (Qgtb lo v) eqn:E.
        - apply Qgtb_true in E. lra.
        - apply Qgtb_false in E. lra. }
      assert (H2 : (hi <= hi1 /\ v <= hi1)%Q).
      { unfold hi1. destruct (Qgtb v hi) eqn:E.
        - apply Qgtb_true in E. lra.
        - apply Qgtb_false in E. lra. }
      destruct (IH lo1 hi1) as (lo' & hi' & Hf & Hlo & Hhi & Hall); [lra|].
      exists lo', hi'. split; [done|]. split; [lra|]. split; [lra|].
      intros d' v' [->|Hin]%elem_of_cons Hv.
      * rewrite Hd in Hv. injection Hv as <-. lra.
      * by apply (Hall d').
    + destruct (IH lo hi Hle) as (lo' & hi' & Hf & Hlo & Hhi & Hall).
      exists lo', hi'. split; [done|]. split; [done|]. split; [done|].
      intros d' v' [->|Hin]%elem_of_cons Hv; [congruence|].
      by apply (Hall d').
Qed.

Lemma extent_spec {A : Type} (accessor : A -> option Q) (values : list A)
    (lo hi : Q) :
  extent values accessor = Some (lo, hi) ->
  (lo <= hi)%Q
  /\ forall d v, d ∈ values -> accessor d = Some v -> (lo <= v <= hi)%Q.
Proof.
  unfold extent. induction values as [|d values IH]; [done|].
  cbn [fold_left]. destruct (accessor d) as [v|] eqn:Hd.
  - destruct (extent_grows accessor values v v) as (lo' & hi' & Hf & Hlo & Hhi & Hall);
      [lra|].
    rewrite Hf. intros [= <- <-]. split; [lra|].
    intros d' v' [->|Hin]%elem_of_cons Hv.
    + rewrite Hd in Hv. injection Hv as <-. lra.
    + by apply (Hall d').
  - intros H. destruct (IH H) as [H1 H2]. split; [done|].
    intros d' v' [->|Hin]%elem_of_cons Hv; [congruence|]. by apply (H2 d').
Qed.

Lemma Qmax_spec (a b : Q) : (a <= Qmax a b /\ b <= Qmax a b)%Q.
Proof.
  unfold Qmax. destruct (Qle_bool a b) eqn:E.
  - apply Qle_bool_iff in E. lra.
  - destruct (Qlt_le_dec b a) as [H|H]; [lra|].
    apply Qle_bool_iff in H. congruence.
Qed.

Lemma Qmin_spec (a b : Q) :
  (Qmin a b <= a /\ Qmin a b <= b)%Q /\ (Qmin a b = a \/ Qmin a b = b).
Proof.
  unfold Qmin. destruct (Qle_bool a b) eqn:E.
  - apply Qle_bool_iff in E. split; [lra | by left].
  - split; [|by right]. destruct (Qlt_le_dec b a) as [H|H]; [lra|].
    apply Qle_bool_iff in H. congruence.
Qed.

(** One axis of the fit: a point between the bounds lands between the
    paddings. *)
Lemma fit_axis (size lo hi k v : Q) :
  (160 <= size)%Q -> (lo <= v <= hi)%Q -> (0 <= k)%Q ->
  (k <= (size - 80 * 2) / Qmax (hi - lo) 1)%Q ->
  (80 <= v * (1 * k) + (0 + 1 * (size / 2) + 1 * k * - ((lo + hi) / 2))
   /\ v * (1 * k) + (0 + 1 * (size / 2) + 1 * k * - ((lo + hi) / 2))
      <= size - 80)%Q.
Proof.
  intros Hsize Hv Hk Hle.
  destruct (Qmax_spec (hi - lo) 1) as [B1 B2].
  set (b := Qmax (hi - lo) 1) in *.
  assert (Hkb : (k * b <= size - 160)%Q).
  { assert (E : ((size - 80 * 2) / b * b == size - 160)%Q) by (field; lra).
    rewrite <- E. apply Qmult_le_compat_r; lra. }
  assert (P1 : (0 <= k * (hi - v))%Q) by (apply Qmult_le_0_compat; lra).
  assert (P2 : (0 <= k * (v - lo))%Q) by (apply Qmult_le_0_compat; lra).
  assert (P3 : (0 <= k * (b - (hi - lo)))%Q) by (apply Qmult_le_0_compat; lra).
  assert (E1 : (v * (1 * k) + (0 + 1 * (size / 2) + 1 * k * - ((lo + hi) / 2))
                == size * (1 # 2) + (k * (v - lo) - k * (hi - v)) * (1 # 2))%Q)
    by field.
  rewrite E1. split; lra.
Qed.

(** X20.  Zoom to fit, in a viewport of at least 160 units on both sides: the
    scale is between 0 and [ZOOM_MAX_SCALE], and every target node that has
    a coordinate is drawn at least [ZOOM_PADDING] inside the viewport on
    that axis. *)
Theorem zoom_to_nodes_fits (width height : Q) (targetNodes : list D3Node.t)
    (transform : Transform.t) :
  (160 <= width)%Q -> (160 <= height)%Q ->
  zoomToNodes width height targetNodes = Some transform ->
  (0 <= Transform.k transform /\ Transform.k transform <= ZOOM_MAX_SCALE)%Q
  /\ (forall d px, d ∈ targetNodes -> D3Node.x d = Some px ->
        (ZOOM_PADDING <= Transform.applyX transform px
         /\ Transform.applyX transform px <= width - ZOOM_PADDING)%Q)
  /\ (forall d py, d ∈ targetNodes -> D3Node.y d = Some py ->
        (ZOOM_PADDING <= Transform.applyY transform py
         /\ Transform.applyY transform py <= height - ZOOM_PADDING)%Q).
Proof.
  intros Hw Hh. unfold zoomToNodes.
  destruct (Nat.eqb (length targetNodes) 0); [done|].
  destruct (extent targetNodes D3Node.x) as [[xlo xhi]|] eqn:Ex; [|done].
  destruct (extent targetNodes D3Node.y) as [[ylo yhi]|] eqn:Ey; [|done].
  apply extent_spec in Ex as [Hx Hxs]. apply extent_spec in Ey as [Hy Hys].
  cbn [fst snd]. unfold ZOOM_PADDING, ZOOM_MAX_SCALE.
  set (sx := ((width - 80 * 2) / Qmax (xhi - xlo) 1)%Q).
  set (sy := ((height - 80 * 2) / Qmax (yhi - ylo) 1)%Q).
  set (k := Qmin (Qmin sx sy) 2).
  intros [= <-].
  cbn [Transform.translate Transform.scale Transform.applyX Transform.applyY
       Transform.k Transform.x Transform.y zoomIdentity].
  assert (Hsx : (0 <= sx)%Q).
  { unfold sx. destruct (Qmax_spec (xhi - xlo) 1) as [_ B].
    apply Qle_shift_div_l; lra. }
  assert (Hsy : (0 <= sy)%Q).
  { unfold sy. destruct (Qmax_spec (yhi - ylo) 1) as [_ B].
    apply Qle_shift_div_l; lra. }
  destruct (Qmin_spec (Qmin sx sy) 2) as [[K1 K2] K3].
  destruct (Qmin_spec sx sy) as [[M1 M2] M3].
  fold k in K1, K2, K3.
  assert (Hk : (0 <= k)%Q).
  { destruct K3 as [-> | ->]; [|lra]. destruct M3 as [-> | ->]; done. }
  split; [split; lra|]. split.
  - intros d px Hd Hpx. apply fit_axis; [done | by apply (Hxs d) | done|].
    fold sx. lra.
  - intros d py Hd Hpy. apply fit_axis; [done | by apply (Hys d) | done|].
    fold sy. lra.
Qed.

Lemma zoom_to_nodes_fits_witness :
  exists transform,
    zoomToNodes 800 600 placedNodes = Some transform
    /\ (Transform.k transform <= 2)%Q.
Proof.
  eexists. split; [reflexivity|].
  refine (proj2 (proj1 (zoom_to_nodes_fits 800 600 placedNodes _ _ _ eq_refl))).
  - vm_compute. discriminate.
  - vm_compute. discriminate.
Defined.

(** ** Search *)

Lemma startsWith_refl (s : string) : startsWith s s = true.
Proof.
  induction s as [|c s IH]; [done|]. cbn [startsWith].
  by rewrite bool_decide_eq_true_2, IH.
Qed.

Lemma includes_refl (s : string) : includes s s = true.
Proof.
  unfold includes. destruct s as [|c s]; [done|].
  cbn [search]. by rewrite startsWith_refl.
Qed.

(** X21.  A query that is not blank and that is, up to the case mapping, the
    identifier, the name or a category of a node of the graph finds that
    node: the search reports at least one match and selects the matches, the
    node among them, in the order of the graph. *)
Theorem search_finds_named_node (toLowerCase : string -> string)
    (g : GraphData.t) (node : Node.t) (query : string)
    (selection : SelectionState.t) :
  node ∈ GraphData.nodes g ->
  trim query <> EmptyString ->
  namesNode toLowerCase query node ->
  let matches := searchNodes toLowerCase query (GraphData.nodes g) in
  let result := handleSearch toLowerCase (Some g) query selection in
  node ∈ matches
  /\ matches `sublist_of` GraphData.nodes g
  /\ fst result = Some (length matches)
  /\ (1 <= length matches)%nat
  /\ SelectionState.type (snd result) = Some SelectionType.node
  /\ SelectionState.ids (snd result) = map Node.id matches.
Proof.
  intros Hin Hq Hname. cbn zeta.
  assert (Hne : negb (nonEmpty (trim query)) = false).
  { unfold nonEmpty. by rewrite bool_decide_eq_false_2. }
  assert (Hm : node ∈ searchNodes toLowerCase query (GraphData.nodes g)).
  { unfold searchNodes. rewrite Hne.
    apply list_elem_of_In, filter_In. split; [by apply list_elem_of_In|].
    destruct Hname as [E|[E|(cs & cat & Hcs & Hcat & E)]].
    - by rewrite E, includes_refl.
    - rewrite E, includes_refl. by destruct (includes _ _).
    - rewrite Hcs. destruct (includes _ _); [done|].
      destruct (includes _ _); [done|].
      apply existsb_exists. exists cat. split; [by apply list_elem_of_In|].
      by rewrite E, includes_refl. }
  split; [exact Hm|]. split.
  { unfold searchNodes. rewrite Hne. apply List_filter_sublist. }
  unfold handleSearch. rewrite Hne. cbn [fst snd].
  destruct (searchNodes toLowerCase query (GraphData.nodes g)) as [|m ms];
    [inversion Hm|].
  cbn [length Nat.ltb Nat.leb selectionReducer SelectionState.type
       SelectionState.ids nodeTypeFor].
  split; [done|]. split; [lia|]. done.
Qed.

Lemma search_finds_named_node_witness :
  plainNode "a" "A" ∈ searchNodes lowerAscii "A" (GraphData.nodes graph_ab).
Proof.
  refine (proj1 (search_finds_named_node lowerAscii graph_ab (plainNode "a" "A")
                   "A" SelectionContext.initialState _ _ _)).
  - apply list_elem_of_In. left. reflexivity.
  - discriminate.
  - left. reflexivity.
Defined.
